(** * Rafiki backend: incoming payments, wallet addresses, receivers,
      quotes, outgoing payments, the connector pipeline and start-up

    A shallow embedding of the parts of [packages/backend] that the
    Open Payments / ILP connector properties below talk about.

    Conventions of the embedding.
    - A [bigint] is a [Z]; a [Date] is a [Z] (milliseconds since the epoch).
    - A nullable column ([T | null]) is an [option T]; a field of an
      objection patch object, which may be left out, is an [option] around
      the column type.
    - A database table keyed by its [id] column is a [gmap string row].
    - Code that can fail returns a sum ([inl] result, [inr] error) or an
      [option]; code that touches a table returns the new table as well.
    - Injected services ([ctx.services], [deps]) are records of functions. *)

From Stdlib Require Import ZArith List Bool Lia.
From stdpp Require Import base option strings gmap.
From Equations Require Import Equations.

Open Scope string_scope.
Open Scope Z_scope.

(** ** JavaScript string operations

    Strings are taken to be ASCII, one character per UTF-16 code unit. *)

Module JsStrings.

(** [s.startsWith(prefix)] *)
Definition startsWith (prefix s : string) : bool :=
  bool_decide (String.substring 0 (String.length prefix) s = prefix).

(** [s.slice(from, to)], for [0 <= from <= to] *)
Definition slice (from to : nat) (s : string) : string :=
  String.substring from (to - from) s.

(** [s.slice(-n)] *)
Definition lastChars (n : nat) (s : string) : string :=
  String.substring (String.length s - n) n s.

(** A line terminator, which the regular expression [.] does not match. *)
Definition isLineTerminator (c : Ascii.ascii) : bool :=
  bool_decide (c = Ascii.ascii_of_nat 10) || bool_decide (c = Ascii.ascii_of_nat 13).

(** The whole of [s] matches [(.)*]. *)
Fixpoint allDots (s : string) : bool :=
  match s with
  | EmptyString => true
  | String c s' => negb (isLineTerminator c) && allDots s'
  end.

End JsStrings.

(** ** Assets and wallet addresses  ([open_payments/wallet_address/model.ts]) *)

Module WalletAddresses.

Record Asset := {
  asset_code : string;
  asset_scale : Z;
  (* [withdrawalThreshold: bigint | null] *)
  withdrawalThreshold : option Z
}.

Record WalletAddress := {
  id : string;
  url : string;
  asset : Asset;
  totalEventsAmount : Z;
  processAt : option Z;
  deactivatedAt : option Z
}.

Definition set_processAt (w : WalletAddress) (t : option Z) : WalletAddress :=
  {| id := id w; url := url w; asset := asset w;
     totalEventsAmount := totalEventsAmount w;
     processAt := t; deactivatedAt := deactivatedAt w |}.

(** [get isActive() { return !this.deactivatedAt || this.deactivatedAt > new Date() }] *)
Definition isActive (w : WalletAddress) (now : Z) : bool :=
  match deactivatedAt w with
  | None => true
  | Some d => now <? d
  end.

(** [OnCreditOptions]: [withdrawalThrottleDelay] may be [undefined]. *)
Record OnCreditOptions := {
  totalReceived : Z;
  withdrawalThrottleDelay : option Z
}.

(** [WalletAddress.query().patchAndFetchById(id, { processAt })
      .whereRaw('?? <= ?', ['totalEventsAmount', bound])]:
    the row is patched, and returned, only when it exists and satisfies
    the [where] clause; otherwise nothing is written and the result is
    [undefined]. *)
Definition patchProcessAt_where_totalEventsAmount_le
    (db : gmap string WalletAddress) (wid : string) (t : Z) (bound : Z)
    : option WalletAddress * gmap string WalletAddress :=
  match db !! wid with
  | Some row =>
      if totalEventsAmount row <=? bound
      then let row' := set_processAt row (Some t) in
           (Some row', <[wid := row']> db)
      else (None, db)
  | None => (None, db)
  end.

(** [this.$query().patch({ processAt })]: writes the row with the id of
    [this] (when there is one) and updates the instance in place. *)
Definition instance_patch_processAt
    (db : gmap string WalletAddress) (this : WalletAddress) (t : Z)
    : WalletAddress * gmap string WalletAddress :=
  (set_processAt this (Some t),
   match db !! id this with
   | Some row => <[id this := set_processAt row (Some t)]> db
   | None => db
   end).

(** [WalletAddress.onCredit]. [now] is the clock reading ([new Date()],
    [Date.now()]) of the call. *)
Definition onCredit (this : WalletAddress) (opts : OnCreditOptions) (now : Z)
    (db : gmap string WalletAddress)
    : WalletAddress * gmap string WalletAddress :=
  let throttled (db : gmap string WalletAddress) :=
    match withdrawalThrottleDelay opts, processAt this with
    | Some delay, None => instance_patch_processAt db this (now + delay)
    | _, _ => (this, db)
    end in
  match withdrawalThreshold (asset this) with
  | Some threshold =>
      match patchProcessAt_where_totalEventsAmount_le db (id this) now
              (totalReceived opts - threshold) with
      | (Some walletAddress, db') => (walletAddress, db')
      | (None, db') => throttled db'
      end
  | None => throttled db
  end.

End WalletAddresses.

(** ** Incoming payments  ([open_payments/payment/incoming/model.ts]) *)

Module IncomingPayments.

Inductive IncomingPaymentState := Pending | Processing | Completed | Expired.

#[global] Instance IncomingPaymentState_eq_dec : EqDecision IncomingPaymentState.
Proof. solve_decision. Defined.

Record IncomingPayment := {
  id : string;
  walletAddressId : string;
  state : IncomingPaymentState;
  expiresAt : Z;
  (* [connectionId?: string | null] *)
  connectionId : option string;
  processAt : option Z;
  (* [incomingAmountValue?: bigint | null] *)
  incomingAmountValue : option Z;
  receivedAmountValue : option Z
}.

(** A patch object: the columns that the patches of this code base set.
    A column left out of the patch is [None]. *)
Record Patch := {
  patch_state : option IncomingPaymentState;
  patch_processAt : option (option Z);
  patch_connectionId : option (option string);
  patch_expiresAt : option Z;
  patch_incomingAmountValue : option (option Z)
}.

(** [[Completed, Expired].includes(state)] *)
Definition isTerminal (s : IncomingPaymentState) : bool :=
  match s with
  | Completed | Expired => true
  | Pending | Processing => false
  end.

(** [get incomingAmount()]: [undefined] unless [incomingAmountValue] is
    truthy (neither [null] nor [0n]). *)
Definition incomingAmount (p : IncomingPayment) : option Z :=
  match incomingAmountValue p with
  | Some v => if v =? 0 then None else Some v
  | None => None
  end.

(** [$beforeInsert]: [this.connectionId = this.connectionId || uuid()].
    [fresh] is the value [uuid()] returns. An empty string is falsy. *)
Definition beforeInsert (this : IncomingPayment) (fresh : string) : IncomingPayment :=
  {| id := id this; walletAddressId := walletAddressId this;
     state := state this; expiresAt := expiresAt this;
     connectionId :=
       match connectionId this with
       | Some c => if bool_decide (c = "") then Some fresh else Some c
       | None => Some fresh
       end;
     processAt := processAt this;
     incomingAmountValue := incomingAmountValue this;
     receivedAmountValue := receivedAmountValue this |}.

(** [$beforeUpdate], run on the patch object: when the patch carries a
    state that is [Completed] or [Expired], [connectionId = null] is
    added to the patch. *)
Definition beforeUpdate (this : Patch) : Patch :=
  match patch_state this with
  | Some s =>
      if isTerminal s
      then {| patch_state := patch_state this;
              patch_processAt := patch_processAt this;
              patch_connectionId := Some None;
              patch_expiresAt := patch_expiresAt this;
              patch_incomingAmountValue := patch_incomingAmountValue this |}
      else this
  | None => this
  end.

(** The row after an [UPDATE ... SET] with the columns of the patch. *)
Definition applyPatch (row : IncomingPayment) (p : Patch) : IncomingPayment :=
  {| id := id row; walletAddressId := walletAddressId row;
     state := default (state row) (patch_state p);
     expiresAt := default (expiresAt row) (patch_expiresAt p);
     connectionId := default (connectionId row) (patch_connectionId p);
     processAt := default (processAt row) (patch_processAt p);
     incomingAmountValue :=
       default (incomingAmountValue row) (patch_incomingAmountValue p);
     receivedAmountValue := receivedAmountValue row |}.

(** [IncomingPayment.query().patchAndFetchById(id, patch)
      .whereNotIn('state', excluded)]: [$beforeUpdate] runs on the patch;
    the row is written and returned only when it exists and its state is
    not excluded, otherwise the result is [undefined]. *)
Definition patchAndFetchById_whereNotIn
    (db : gmap string IncomingPayment) (pid : string) (patch : Patch)
    (excluded : list IncomingPaymentState)
    : option IncomingPayment * gmap string IncomingPayment :=
  let patch' := beforeUpdate patch in
  match db !! pid with
  | Some row =>
      if bool_decide (state row ∈ excluded) then (None, db)
      else let row' := applyPatch row patch' in
           (Some row', <[pid := row']> db)
  | None => (None, db)
  end.

(** [row.$query().patch(patch)] / [query().findById(id).patch(patch)]. *)
Definition patchById (db : gmap string IncomingPayment) (pid : string)
    (patch : Patch) : gmap string IncomingPayment :=
  (patchAndFetchById_whereNotIn db pid patch []).2.

(** [query().insert(p)]: [$beforeInsert] runs, then the row is stored. *)
Definition insert (db : gmap string IncomingPayment) (p : IncomingPayment)
    (fresh : string) : gmap string IncomingPayment :=
  let row := beforeInsert p fresh in <[id row := row]> db.

(** [IncomingPayment.onCredit({ totalReceived })]. *)
Definition onCredit (this : IncomingPayment) (totalReceived : Z) (now : Z)
    (db : gmap string IncomingPayment)
    : IncomingPayment * gmap string IncomingPayment :=
  let '(incomingPayment, db') :=
    if match incomingAmount this with
       | Some v => v <=? totalReceived
       | None => false
       end
    then patchAndFetchById_whereNotIn db (id this)
           {| patch_state := Some Completed;
              patch_processAt := Some (Some (now + 30000));
              patch_connectionId := None; patch_expiresAt := None;
              patch_incomingAmountValue := None |}
           [Expired; Completed]
    else patchAndFetchById_whereNotIn db (id this)
           {| patch_state := Some Processing;
              patch_processAt := None;
              patch_connectionId := None; patch_expiresAt := None;
              patch_incomingAmountValue := None |}
           [Expired; Completed]
  in
  match incomingPayment with
  | Some p => (p, db')
  | None => (this, db')
  end.

(** The life of the [incomingPayments] table. A payment "has a state of
    PENDING when it is initially created"; afterwards rows change through
    [onCredit] and through patches that leave [connectionId] to
    [$beforeUpdate] and either keep the state or move it to [Completed]
    (manual completion) or [Expired]. *)
Inductive step : gmap string IncomingPayment -> gmap string IncomingPayment -> Prop :=
| step_insert db p fresh :
    state p = Pending ->
    db !! id p = None ->
    step db (insert db p fresh)
| step_onCredit db this totalReceived now :
    step db (onCredit this totalReceived now db).2
| step_patch db pid patch :
    patch_connectionId patch = None ->
    match patch_state patch with
    | Some s => isTerminal s = true
    | None => True
    end ->
    step db (patchById db pid patch).

Inductive reachable : gmap string IncomingPayment -> Prop :=
| reachable_empty : reachable ∅
| reachable_step db db' : reachable db -> step db db' -> reachable db'.

End IncomingPayments.

(** ** The connector's account middleware
       ([connector/core/middleware/account.ts]) *)

Module AccountMiddleware.
Import JsStrings IncomingPayments.

Record Peer := { peer_id : string; staticIlpAddress : string }.

Inductive LiquidityAccountType := INCOMING | WEB_MONETIZATION.

(** What [accounting.createLiquidityAccount] can do: succeed, throw
    [AccountAlreadyExistsError], or throw something else. *)
Inductive CreateAccountOutcome :=
| Created
| AccountAlreadyExistsError
| OtherAccountingError (message : string).

(** [ctx.services] *)
Record Services := {
  incomingPayments_get : string -> option IncomingPayment;
  walletAddresses_get : string -> option WalletAddresses.WalletAddress;
  peers_getByDestinationAddress : string -> option Peer;
  accounting_createLiquidityAccount :
    string -> LiquidityAccountType -> CreateAccountOutcome
}.

(** [ctx.state] and [ctx.request.prepare]. The incoming account is the
    peer that the auth middleware resolved, if any. *)
Record ILPContext := {
  incomingAccount : option Peer;
  streamDestination : option string;
  prepare_amount : string;
  prepare_destination : string
}.

Inductive OutgoingAccount :=
| OutgoingIncomingPayment (p : IncomingPayment)
| OutgoingWalletAddress (w : WalletAddresses.WalletAddress)
| OutgoingPeer (p : Peer).

Inductive Thrown :=
| HttpError (status : Z) (message : string)
| UnreachableError (message : string)
| AccountingError (message : string).

Record Accounts := { incoming : Peer; outgoing : OutgoingAccount }.

(** The local [createLiquidityAccount] helper: an already existing
    account is not an error. [inl tt] is a normal return. *)
Definition createLiquidityAccount (services : Services) (accountId : string)
    (accountType : LiquidityAccountType) : unit + Thrown :=
  match accounting_createLiquidityAccount services accountId accountType with
  | Created => inl tt
  | AccountAlreadyExistsError => inl tt
  | OtherAccountingError m => inr (AccountingError m)
  end.

Definition UUID_LENGTH : nat := 36.

Section middleware.

(** [createAccountMiddleware(serverAddress)]; [validateId] is the helper
    of [shared/utils]. *)
Variable serverAddress : string.
Variable validateId : string -> bool.

(** [getAccountByDestinationAddress]. For an address under
    [serverAddress] that carries an account id nothing is returned
    either way: the lookup of direct ILP access accounts is a TODO. *)
Definition getAccountByDestinationAddress (services : Services)
    (ctx : ILPContext) : option OutgoingAccount + Thrown :=
  let byAddress : option OutgoingAccount + Thrown :=
    let address := prepare_destination ctx in
    match peers_getByDestinationAddress services address with
    | Some peer => inl (Some (OutgoingPeer peer))
    | None =>
        if startsWith (serverAddress ++ ".") address
           && ((String.length address
                =? String.length serverAddress + 1 + UUID_LENGTH)%nat
               || bool_decide
                    (String.get (String.length serverAddress + 1 + UUID_LENGTH) address
                     = Some (Ascii.ascii_of_nat 46)))
        then
          let accountId :=
            slice (String.length serverAddress + 1)
              (String.length serverAddress + 1 + UUID_LENGTH) address in
          if validateId accountId then inl None else inl None
        else inl None
    end in
  match streamDestination ctx with
  | Some dest =>
      if bool_decide (dest = "") then byAddress else
      match incomingPayments_get services dest with
      | Some incomingPayment =>
          if negb (bool_decide (prepare_amount ctx = "0"))
             && isTerminal (state incomingPayment)
          then inr (UnreachableError "destination account is disabled")
          else
            if bool_decide (state incomingPayment = Pending)
            then match createLiquidityAccount services (id incomingPayment) INCOMING with
                 | inl _ => inl (Some (OutgoingIncomingPayment incomingPayment))
                 | inr e => inr e
                 end
            else inl (Some (OutgoingIncomingPayment incomingPayment))
      | None =>
          match walletAddresses_get services dest with
          | Some walletAddress =>
              if WalletAddresses.totalEventsAmount walletAddress =? 0
              then match createLiquidityAccount services
                           (WalletAddresses.id walletAddress) WEB_MONETIZATION with
                   | inl _ => inl (Some (OutgoingWalletAddress walletAddress))
                   | inr e => inr e
                   end
              else inl (Some (OutgoingWalletAddress walletAddress))
          | None => byAddress
          end
      end
  | None => byAddress
  end.

(** The middleware up to the call of [next()]: it throws, or sets
    [ctx.accounts]. *)
Definition account (services : Services) (ctx : ILPContext) : Accounts + Thrown :=
  match incomingAccount ctx with
  | None => inr (HttpError 401 "unauthorized")
  | Some incomingAccount =>
      match getAccountByDestinationAddress services ctx with
      | inr e => inr e
      | inl None => inr (UnreachableError "unknown destination account")
      | inl (Some outgoingAccount) =>
          inl {| incoming := incomingAccount; outgoing := outgoingAccount |}
      end
  end.

End middleware.

End AccountMiddleware.

(** ** The receiver service  ([open_payments/receiver/service.ts]) *)

Module Receivers.
Import JsStrings.

(** A thrown JavaScript [Error]. *)
Inductive Thrown := Error (message : string).

Inductive AccessType := AccessIncomingPayment | AccessOutgoingPayment | AccessQuote.
Inductive AccessAction := Create | Read | ReadAll | Complete | ListAction | ListAll.

#[global] Instance AccessType_eq_dec : EqDecision AccessType.
Proof. solve_decision. Defined.
#[global] Instance AccessAction_eq_dec : EqDecision AccessAction.
Proof. solve_decision. Defined.

(** The fields of a stored [Grant] that the receiver service reads. *)
Record Grant := {
  grant_authServer : option string;
  grant_accessType : AccessType;
  grant_accessActions : list AccessAction;
  grant_accessToken : string;
  grant_managementUrl : string;
  grant_expiresAt : option Z
}.

Record GrantOptions := {
  authServer : string;
  accessType : AccessType;
  accessActions : list AccessAction
}.

(** [access_token] of a grant or token response. *)
Record AccessToken := {
  value : string;
  manage : string;
  expires_in : option Z
}.

Inductive GrantResponse :=
| PendingGrant
| NonPendingGrant (access_token : AccessToken).

Definition isPendingGrant (g : GrantResponse) : bool :=
  match g with PendingGrant => true | NonPendingGrant _ => false end.

Record RemoteWalletAddress := { wa_id : string; wa_authServer : string }.

(** An Open Payments incoming payment, local or fetched. *)
Inductive OpenPaymentsIncomingPayment :=
| LocalIncomingPayment (p : IncomingPayments.IncomingPayment) (connection : string)
| RemoteIncomingPayment (url : string) (accessToken : string).

Inductive Receiver :=
| FromConnection (connection : string)
| FromIncomingPayment (p : OpenPaymentsIncomingPayment).

(** Calls made on [deps.openPaymentsClient], in order. *)
Inductive ClientCall :=
| Call_walletAddress_get (url : string)
| Call_token_rotate (url accessToken : string)
| Call_grant_request (authServerUrl : string)
| Call_incomingPayment_get (url accessToken : string)
| Call_ilpStreamConnection_get (url : string).

(** [ServiceDependencies]: what the remote side and the local services
    answer. A client call returns a value or throws. *)
Record ServiceDependencies := {
  openPaymentsUrl : string;
  walletAddressService_getByUrl : string -> option WalletAddresses.WalletAddress;
  incomingPaymentService_get :
    string -> string -> option IncomingPayments.IncomingPayment;
  incomingPaymentService_getByConnection :
    string -> option IncomingPayments.IncomingPayment;
  connectionService_get : IncomingPayments.IncomingPayment -> option string;
  client_walletAddress_get : string -> option RemoteWalletAddress + Thrown;
  client_token_rotate : string -> string -> AccessToken + Thrown;
  client_grant_request : string -> GrantResponse + Thrown;
  client_incomingPayment_get : string -> string -> OpenPaymentsIncomingPayment + Thrown;
  client_ilpStreamConnection_get : string -> string + Thrown
}.

(** The mutable world of a call: the stored grants and the calls made on
    the Open Payments client so far (latest first). *)
Record World := {
  grants : list Grant;
  calls : list ClientCall
}.

Definition M (A : Type) : Type := World -> (A + Thrown) * World.

Definition ret {A} (a : A) : M A := fun w => (inl a, w).
Definition throw {A} (e : Thrown) : M A := fun w => (inr e, w).
Definition bind {A B} (m : M A) (k : A -> M B) : M B :=
  fun w => match m w with
           | (inl a, w') => k a w'
           | (inr e, w') => (inr e, w')
           end.
(** [try { m } catch (err) { handler }] *)
Definition try_catch {A} (m : M A) (handler : Thrown -> M A) : M A :=
  fun w => match m w with
           | (inl a, w') => (inl a, w')
           | (inr e, w') => handler e w'
           end.
(** A call on the client is recorded, then answers. *)
Definition call {A} (c : ClientCall) (answer : A + Thrown) : M A :=
  fun w => (answer, {| grants := grants w; calls := c :: calls w |}).

Notation "'let!' x ':=' m 'in' k" := (bind m (fun x => k))
  (at level 10, x name, m at level 100, k at level 200).

(** Modelled from the spec: the grant cache behind [deps.grantService]
    ([grant/service.ts] and [grant/model.ts] are not part of the sources
    at hand). It is "keyed by (authServer, accessType, accessActions)";
    a grant is expired once its [expiresAt] has passed; [update] stores a
    rotated token in place of the old one; [create] adds a grant. *)
Definition grantMatches (o : GrantOptions) (g : Grant) : bool :=
  bool_decide (grant_authServer g = Some (authServer o))
  && bool_decide (grant_accessType g = accessType o)
  && bool_decide (grant_accessActions g = accessActions o).

(** Modelled from the spec: [grantService.get(options)], the grant cached
    under the options, if any. *)
Definition grantService_get (o : GrantOptions) : M (option Grant) :=
  fun w => (inl (List.find (grantMatches o) (grants w)), w).

(** Modelled from the spec: [grant.expired]. *)
Definition expired (now : Z) (g : Grant) : bool :=
  match grant_expiresAt g with
  | Some t => t <=? now
  | None => false
  end.

(** Modelled from the spec: the expiry of a token that lasts [expires_in]
    seconds from now. *)
Definition expiry (now : Z) (expiresIn : option Z) : option Z :=
  match expiresIn with
  | Some s => Some (now + s * 1000)
  | None => None
  end.

(** Modelled from the spec: two grants under the same key of the cache. *)
Definition sameGrant (g g' : Grant) : bool :=
  bool_decide (grant_authServer g = grant_authServer g')
  && bool_decide (grant_accessType g = grant_accessType g')
  && bool_decide (grant_accessActions g = grant_accessActions g').

(** Modelled from the spec: [grantService.update(grant, token)]. *)
Definition grantService_update (now : Z) (g : Grant) (t : AccessToken) : M Grant :=
  fun w =>
    let g' := {| grant_authServer := grant_authServer g;
                 grant_accessType := grant_accessType g;
                 grant_accessActions := grant_accessActions g;
                 grant_accessToken := value t;
                 grant_managementUrl := manage t;
                 grant_expiresAt := expiry now (expires_in t) |} in
    (inl g',
     {| grants := List.map (fun x => if sameGrant g x then g' else x) (grants w);
        calls := calls w |}).

(** Modelled from the spec: [grantService.create(options and token)]. *)
Definition grantService_create (now : Z) (o : GrantOptions) (t : AccessToken)
    : M Grant :=
  fun w =>
    let g := {| grant_authServer := Some (authServer o);
                grant_accessType := accessType o;
                grant_accessActions := accessActions o;
                grant_accessToken := value t;
                grant_managementUrl := manage t;
                grant_expiresAt := expiry now (expires_in t) |} in
    (inl g, {| grants := g :: grants w; calls := calls w |}).

(** Modelled from the spec: [existingGrant.getManagementUrl(authServerUrl)],
    the management URL that is kept with the grant. *)
Definition getManagementUrl (g : Grant) (authServerUrl : string) : string :=
  grant_managementUrl g.

(** [getIncomingPaymentGrant] *)
Definition getIncomingPaymentGrant (deps : ServiceDependencies) (now : Z)
    (walletAddressUrl : string) : M (option Grant) :=
  let! walletAddress := call (Call_walletAddress_get walletAddressUrl)
                        (client_walletAddress_get deps walletAddressUrl) in
  match walletAddress with
  | None => ret None
  | Some walletAddress =>
      let grantOptions :=
        {| authServer := wa_authServer walletAddress;
           accessType := AccessIncomingPayment;
           accessActions := [ReadAll] |} in
      let! existingGrant := grantService_get grantOptions in
      match existingGrant with
      | Some existingGrant =>
          if expired now existingGrant then
            match grant_authServer existingGrant with
            | None => ret None
            | Some authServerUrl =>
                try_catch
                  (let url := getManagementUrl existingGrant authServerUrl in
                   let! rotatedToken :=
                     call (Call_token_rotate url (grant_accessToken existingGrant))
                          (client_token_rotate deps url
                             (grant_accessToken existingGrant)) in
                   let! g := grantService_update now existingGrant rotatedToken in
                   ret (Some g))
                  (fun err => ret None)
            end
          else ret (Some existingGrant)
      | None =>
          let! grant := call (Call_grant_request (wa_authServer walletAddress))
                        (client_grant_request deps (wa_authServer walletAddress)) in
          match grant with
          | NonPendingGrant access_token =>
              try_catch
                (let! g := grantService_create now grantOptions access_token in
                 ret (Some g))
                (fun err => ret None)
          | PendingGrant => ret None
          end
      end
  end.

(** [url.match(CONNECTION_URL_REGEX)] with
    [/\/connections\/(.){36}$/]. *)
Definition matchesConnectionUrl (url : string) : bool :=
  let n := String.length url in
  (49 <=? n)%nat
  && bool_decide (String.substring (n - 49) 13 url = "/connections/")
  && allDots (lastChars 36 url).

(** [parseIncomingPaymentUrl], with
    [/(?<walletAddressUrl>^(.)+)\/incoming-payments\/(?<id>(.){36}$)/]:
    the result is [(id, walletAddressUrl)]. *)
Definition parseIncomingPaymentUrl (url : string) : option (string * string) :=
  let n := String.length url in
  let walletAddressUrl := String.substring 0 (n - 55) url in
  let id := lastChars 36 url in
  if (56 <=? n)%nat
     && bool_decide (String.substring (n - 55) 19 url = "/incoming-payments/")
     && allDots walletAddressUrl && allDots id
  then Some (id, walletAddressUrl)
  else None.

(** [getLocalIncomingPayment] *)
Definition getLocalIncomingPayment (deps : ServiceDependencies) (id : string)
    (walletAddress : WalletAddresses.WalletAddress)
    : option OpenPaymentsIncomingPayment :=
  match incomingPaymentService_get deps id (WalletAddresses.id walletAddress) with
  | None => None
  | Some incomingPayment =>
      match connectionService_get deps incomingPayment with
      | None => None
      | Some connection => Some (LocalIncomingPayment incomingPayment connection)
      end
  end.

(** [getIncomingPayment]: everything runs inside [try]; whatever is
    thrown is logged and turned into [undefined]. *)
Definition getIncomingPayment (deps : ServiceDependencies) (now : Z)
    (url : string) : M (option OpenPaymentsIncomingPayment) :=
  try_catch
    (match parseIncomingPaymentUrl url with
     | None => ret None
     | Some (id, walletAddressUrl) =>
         match walletAddressService_getByUrl deps walletAddressUrl with
         | Some walletAddress => ret (getLocalIncomingPayment deps id walletAddress)
         | None =>
             let! grant := getIncomingPaymentGrant deps now walletAddressUrl in
             match grant with
             | None => throw (Error "Could not find grant")
             | Some grant =>
                 let! p := call (Call_incomingPayment_get url (grant_accessToken grant))
                           (client_incomingPayment_get deps url
                              (grant_accessToken grant)) in
                 ret (Some p)
             end
         end
     end)
    (fun error => ret None).

(** [getLocalConnection] *)
Definition getLocalConnection (deps : ServiceDependencies) (url : string)
    : option string :=
  match incomingPaymentService_getByConnection deps (lastChars 36 url) with
  | None => None
  | Some incomingPayment => connectionService_get deps incomingPayment
  end.

(** [getConnection] *)
Definition getConnection (deps : ServiceDependencies) (url : string)
    : M (option string) :=
  try_catch
    (if startsWith (openPaymentsUrl deps ++ "/connections/") url
     then ret (getLocalConnection deps url)
     else let! c := call (Call_ilpStreamConnection_get url)
                    (client_ilpStreamConnection_get deps url) in
          ret (Some c))
    (fun error => ret None).

(** [getReceiver], which is [ReceiverService.get]. *)
Definition getReceiver (deps : ServiceDependencies) (now : Z) (url : string)
    : M (option Receiver) :=
  if matchesConnectionUrl url then
    let! connection := getConnection deps url in
    match connection with
    | Some connection => ret (Some (FromConnection connection))
    | None => ret None
    end
  else
    let! incomingPayment := getIncomingPayment deps now url in
    match incomingPayment with
    | Some incomingPayment => ret (Some (FromIncomingPayment incomingPayment))
    | None => ret None
    end.

End Receivers.

(** ** Quotes  ([open_payments/quote/model.ts], [quote/service.test.ts]) *)

Module Quotes.

(** [Amount] ([open_payments/amount.ts]) *)
Record Amount := {
  value : Z;
  assetCode : string;
  assetScale : Z
}.

(** The stored columns of a [Quote] with its [asset] relation joined. *)
Record Quote := {
  id : string;
  walletAddressId : string;
  asset_code : string;
  asset_scale : Z;
  receiver : string;
  debitAmountValue : Z;
  receiveAmountValue : Z;
  receiveAmountAssetCode : string;
  receiveAmountAssetScale : Z;
  expiresAt : Z;
  createdAt : Z
}.

(** [get debitAmount()] *)
Definition debitAmount (q : Quote) : Amount :=
  {| value := debitAmountValue q; assetCode := asset_code q;
     assetScale := asset_scale q |}.

(** [get receiveAmount()] *)
Definition receiveAmount (q : Quote) : Amount :=
  {| value := receiveAmountValue q; assetCode := receiveAmountAssetCode q;
     assetScale := receiveAmountAssetScale q |}.

(** [get maxSourceAmount()], [get minDeliveryAmount()] *)
Definition maxSourceAmount (q : Quote) : Z := debitAmountValue q.
Definition minDeliveryAmount (q : Quote) : Z := receiveAmountValue q.

(** *** Expiry *)

(** Modelled from the spec: the expiry that quote creation sets
    ([quote/service.ts] is not part of the sources at hand):
    "expiresAt = min(now + config.quoteLifespan, receiver.expiresAt)",
    the receiver's expiry counting only when it has one. *)
Definition quoteExpiresAt (createdAt quoteLifespan : Z)
    (receiverExpiresAt : option Z) : Z :=
  match receiverExpiresAt with
  | Some e => Z.min (createdAt + quoteLifespan) e
  | None => createdAt + quoteLifespan
  end.

(** The expiry that the test 'sets expiry date to $description' expects:
    [maxExpiration.getTime() > expiryDate.getTime() ? expiryDate : maxExpiration]
    with [maxExpiration = quote.createdAt + config.quoteLifespan]. *)
Definition expectedExpiresAt (createdAt quoteLifespan expiryDate : Z) : Z :=
  let maxExpiration := createdAt + quoteLifespan in
  if maxExpiration >? expiryDate then expiryDate else maxExpiration.

(** *** Sending fees *)

Record Fee := {
  fixedFee : Z;
  basisPointFee : Z
}.

(** An exchange rate as a ratio of two positive integers ([Pay.Ratio]). *)
Record Ratio := { ratio_a : Z; ratio_b : Z }.

(** What the rate probe gives before fees: the source amount, the
    amount delivered, and the rate between them. *)
Record Estimate := {
  est_debitAmountValue : Z;
  est_receiveAmountValue : Z;
  est_rate : Ratio
}.

Definition ceilDiv (a b : Z) : Z := - ((- a) / b).

(** Modelled from the spec: the fee as the specification words it,
    "Fee = fixedFee + ceil(amount × basisPointFee / 10000)". *)
Definition calculate_ceil (fee : Fee) (amount : Z) : Z :=
  fixedFee fee + ceilDiv (amount * basisPointFee fee) 10000.

(** Modelled from the spec: the fee with the rounding that the tables
    of [quote/service.test.ts] fix ([fee/model.ts] is not part of the
    sources at hand): the basis-point part is rounded down. *)
Definition calculate (fee : Fee) (amount : Z) : Z :=
  fixedFee fee + (amount * basisPointFee fee) / 10000.

(** Modelled from the spec: how quote creation applies a sending fee
    ([quote/service.ts] is not part of the sources at hand). "In
    fixed-delivery mode, fees inflate debitAmount; in fixed-source mode,
    fees reduce receiveAmount". The fee is taken on the amount to
    deliver; for a fixed source amount it is deducted in the receiving
    asset, converted at the quote's rate. [calc] is the fee formula. *)
Definition fixedDeliveryDebitAmount (calc : Fee -> Z -> Z) (fee : option Fee)
    (e : Estimate) : Z :=
  match fee with
  | Some f => est_debitAmountValue e + calc f (est_receiveAmountValue e)
  | None => est_debitAmountValue e
  end.

Definition fixedSendReceiveAmount (calc : Fee -> Z -> Z) (fee : option Fee)
    (e : Estimate) : Z :=
  match fee with
  | Some f =>
      est_receiveAmountValue e
      - (calc f (est_receiveAmountValue e) * ratio_a (est_rate e))
        / ratio_b (est_rate e)
  | None => est_receiveAmountValue e
  end.

(** The rows of the table of 'fees - fixed delivery':
    [(incomingAmountValue, fixedFee, basisPointFee,
      expectedQuoteDebitAmountValue)]. *)
Definition fees_fixed_delivery : list (Z * Z * Z * Z) :=
  [ (3364, 0, 0, 3365);
    (3364, 150, 0, 3515);
    (3364, 0, 200, 3432);
    (3364, 150, 200, 3582) ].

(** The rows of the table of 'fees - fixed send with cross-currency':
    [(debitAmountValue, fixedFee, basisPointFee,
      expectedReceiveAmountValue)]. *)
Definition fees_fixed_send : list (Z * Z * Z * Z) :=
  [ (200, 0, 0, 100);
    (200, 20, 0, 90);
    (200, 0, 200, 99);
    (200, 20, 200, 89) ].

(** A row of the fixed-delivery table holds for a fee formula when the
    quote of the row has the expected debit amount. Both wallet
    addresses hold the same asset, slippage is 0; [debit0] is the
    source amount that the rate probe asks for, before fees. *)
Definition fixedDeliveryRowHolds (calc : Fee -> Z -> Z) (debit0 : Z)
    (row : Z * Z * Z * Z) : bool :=
  let '(incomingAmountValue, fixed, bp, expected) := row in
  fixedDeliveryDebitAmount calc
    (Some {| fixedFee := fixed; basisPointFee := bp |})
    {| est_debitAmountValue := debit0;
       est_receiveAmountValue := incomingAmountValue;
       est_rate := {| ratio_a := 1; ratio_b := 1 |} |}
  =? expected.

(** A row of the fixed-send table: USD to XRP at rate 0.5. *)
Definition fixedSendRowHolds (calc : Fee -> Z -> Z) (row : Z * Z * Z * Z) : bool :=
  let '(debitAmountValue, fixed, bp, expected) := row in
  fixedSendReceiveAmount calc
    (Some {| fixedFee := fixed; basisPointFee := bp |})
    {| est_debitAmountValue := debitAmountValue;
       est_receiveAmountValue := debitAmountValue * 1 / 2;
       est_rate := {| ratio_a := 1; ratio_b := 2 |} |}
  =? expected.

End Quotes.

(** ** Outgoing payments  ([open_payments/payment/outgoing/model.ts],
       [payment/outgoing/service.test.ts]) *)

Module OutgoingPayments.
Import Quotes.

(** *** The model ([model.ts]) *)

Inductive OutgoingPaymentState := Funding | Sending | Failed | Completed.

#[global] Instance OutgoingPaymentState_eq_dec : EqDecision OutgoingPaymentState.
Proof. solve_decision. Defined.

Record OutgoingPayment := {
  id : string;
  walletAddressId : string;
  quote : Quote;
  state : OutgoingPaymentState;
  (* [error?: string | null] *)
  error : option string;
  stateAttempts : Z;
  grantId : option string;
  createdAt : Z;
  updatedAt : Z
}.

Definition receiver (p : OutgoingPayment) : string := Quotes.receiver (quote p).
Definition debitAmount (p : OutgoingPayment) : Amount := Quotes.debitAmount (quote p).
Definition receiveAmount (p : OutgoingPayment) : Amount := Quotes.receiveAmount (quote p).

(** [get failed()] *)
Definition failed (p : OutgoingPayment) : bool :=
  bool_decide (state p = Failed).

Record Patch := {
  patch_state : option OutgoingPaymentState;
  patch_error : option (option string);
  patch_stateAttempts : option Z
}.

(** [$beforeUpdate(opts, queryContext)], run on the patch object:
    [if (opts.old && this.state) { if (!this.stateAttempts) this.stateAttempts = 0 }].
    [old] says whether [opts.old] is there (an instance patch). A patch
    that sets a state and no attempt count resets the count. *)
Definition beforeUpdate (old : bool) (this : Patch) : Patch :=
  match patch_state this with
  | Some _ =>
      if old then
        match patch_stateAttempts this with
        | Some _ => this   (* a count of 0 is set to 0 again *)
        | None => {| patch_state := patch_state this;
                     patch_error := patch_error this;
                     patch_stateAttempts := Some 0 |}
        end
      else this
  | None => this
  end.

(** The row after an instance patch [payment.$query().patch(patch)] at
    time [now]; the base model stamps [updatedAt]. *)
Definition applyPatch (now : Z) (row : OutgoingPayment) (patch : Patch)
    : OutgoingPayment :=
  let p := beforeUpdate true patch in
  {| id := id row; walletAddressId := walletAddressId row; quote := quote row;
     state := default (state row) (patch_state p);
     error := default (error row) (patch_error p);
     stateAttempts := default (stateAttempts row) (patch_stateAttempts p);
     grantId := grantId row; createdAt := createdAt row; updatedAt := now |}.

(** [PaymentEventType] *)
Inductive PaymentEventType := PaymentCreated | PaymentFailed | PaymentCompleted.

(** A [PaymentEvent] row: its type, the payment it is about, and the
    withdrawal [(withdrawalAccountId, withdrawalAmount)] if it has one. *)
Record PaymentEvent := {
  event_type : PaymentEventType;
  event_paymentId : string;
  withdrawal : option (string * Z)
}.

(** *** The ledger *)

Inductive TransferError :=
| TransferExists | TransferInvalidAmount | InvalidAccount | InsufficientBalance.

(** Modelled from the spec: the accounting service ([accounting/service.ts]
    is not part of the sources at hand). An account has a balance and a
    total sent; deposits are idempotent on their id; "createDeposit ...
    Fails with TransferExists, InvalidAmount (non-positive),
    InvalidAccount". *)
Record Ledger := {
  balances : gmap string Z;
  totalsSent : gmap string Z;
  transfers : gset string
}.

(** Modelled from the spec: [getBalance(accountId)]. *)
Definition getBalance (l : Ledger) (account : string) : option Z :=
  balances l !! account.

(** Modelled from the spec: [getTotalSent(accountId)]. *)
Definition getTotalSent (l : Ledger) (account : string) : Z :=
  default 0 (totalsSent l !! account).

(** Modelled from the spec: [createLiquidityAccount]; an account that
    exists already is left as it is. *)
Definition createLiquidityAccount (l : Ledger) (account : string) : Ledger :=
  match balances l !! account with
  | Some _ => l
  | None => {| balances := <[account := 0]> (balances l);
               totalsSent := totalsSent l; transfers := transfers l |}
  end.

(** Modelled from the spec: [createDeposit({id, account, amount})]. *)
Definition createDeposit (l : Ledger) (transferId account : string) (amount : Z)
    : Ledger + TransferError :=
  if bool_decide (transferId ∈ transfers l) then inr TransferExists
  else if amount <=? 0 then inr TransferInvalidAmount
  else match balances l !! account with
       | None => inr InvalidAccount
       | Some b =>
           inl {| balances := <[account := b + amount]> (balances l);
                  totalsSent := totalsSent l;
                  transfers := {[transferId]} ∪ transfers l |}
       end.

(** Modelled from the spec: money leaving an account through the packet
    pipeline. *)
Definition send (l : Ledger) (account : string) (amount : Z) : Ledger :=
  {| balances := <[account := default 0 (balances l !! account) - amount]> (balances l);
     totalsSent := <[account := getTotalSent l account + amount]> (totalsSent l);
     transfers := transfers l |}.

(** *** The tables *)

(** The tables and the ledger that the outgoing payment service works
    on. *)
Record World := {
  walletAddresses : gmap string WalletAddresses.WalletAddress;
  quotes : gmap string Quote;
  (* the incoming payment that a receiver URL resolves to, if any *)
  receivers : gmap string IncomingPayments.IncomingPayment;
  outgoingPayments : gmap string OutgoingPayment;
  outgoingPaymentGrants : gset string;
  ledger : Ledger;
  events : list PaymentEvent
}.

Definition with_payment (w : World) (p : OutgoingPayment) : World :=
  {| walletAddresses := walletAddresses w; quotes := quotes w;
     receivers := receivers w;
     outgoingPayments := <[id p := p]> (outgoingPayments w);
     outgoingPaymentGrants := outgoingPaymentGrants w;
     ledger := ledger w; events := events w |}.

Definition with_ledger (w : World) (l : Ledger) : World :=
  {| walletAddresses := walletAddresses w; quotes := quotes w;
     receivers := receivers w; outgoingPayments := outgoingPayments w;
     outgoingPaymentGrants := outgoingPaymentGrants w;
     ledger := l; events := events w |}.

Definition with_event (w : World) (e : PaymentEvent) : World :=
  {| walletAddresses := walletAddresses w; quotes := quotes w;
     receivers := receivers w; outgoingPayments := outgoingPayments w;
     outgoingPaymentGrants := outgoingPaymentGrants w;
     ledger := ledger w; events := e :: events w |}.

Definition with_grant_row (w : World) (g : string) : World :=
  {| walletAddresses := walletAddresses w; quotes := quotes w;
     receivers := receivers w; outgoingPayments := outgoingPayments w;
     outgoingPaymentGrants := {[g]} ∪ outgoingPaymentGrants w;
     ledger := ledger w; events := events w |}.

(** Modelled from the spec: [payment.sentAmount], which the service fills
    in with what the ledger says the account has sent. *)
Definition sentAmount (w : World) (p : OutgoingPayment) : Z :=
  getTotalSent (ledger w) (id p).

(** *** Creation *)

(** [OutgoingPaymentError] *)
Inductive OutgoingPaymentError :=
| UnknownWalletAddress
| UnknownPayment
| UnknownQuote
| WrongState
| InvalidQuote
| InsufficientGrant
| InactiveWalletAddress.

(** An ISO 8601 repeating interval, unfolded into the time windows
    [(start, end)] it stands for; a window holds its start and not
    its end. *)
Definition Interval := list (Z * Z).

(** Modelled from the spec: the window covers the time [t]. *)
Definition inWindow (t : Z) (win : Z * Z) : bool :=
  (win.1 <=? t) && (t <? win.2).

(** [grant.limits]: [{receiver?, debitAmount?, receiveAmount?, interval?}] *)
Record Limits := {
  limit_receiver : option string;
  limit_debitAmount : option Amount;
  limit_receiveAmount : option Amount;
  limit_interval : option Interval
}.

(** [Grant] of the auth middleware *)
Record Grant := {
  grant_id : string;
  limits : option Limits
}.

(** [CreateOutgoingPaymentOptions] *)
Record CreateOutgoingPaymentOptions := {
  opt_walletAddressId : string;
  opt_quoteId : string;
  opt_grant : option Grant
}.

(** Modelled from the spec: the limit is in the asset [(code, scale)]. *)
Definition sameAsset (limit : Amount) (code : string) (scale : Z) : bool :=
  bool_decide (assetCode limit = code) && (assetScale limit =? scale).

(** Modelled from the spec: what a prior payment of the grant counts
    for ([payment/outgoing/service.ts] is not part of the sources at
    hand). "Σ debitAmount (for debit-limited) or Σ receiveAmount (for
    receive-limited); for Failed prior payments with partial send,
    replace that payment's contribution with its actual sent amount (for
    debit) or an equivalent derived from rate (for receive)": the
    delivered share of a failed payment is its receive amount scaled by
    sent over debit amount, rounded down. *)
Definition sentContribution (l : Ledger) (p : OutgoingPayment) : Z :=
  if failed p then getTotalSent l (id p)
  else value (debitAmount p).

(** Modelled from the spec: what a prior payment counts for under a
    receive limit. *)
Definition receivedContribution (l : Ledger) (p : OutgoingPayment) : Z :=
  if failed p
  then (value (receiveAmount p) * getTotalSent l (id p)) / value (debitAmount p)
  else value (receiveAmount p).

(** Modelled from the spec: the prior payments that count against a
    grant are those of the same grant, other than the one being created,
    made in the window of the interval that covers now (all of them when
    there is no interval). *)
Definition countsAgainst (grant : string) (paymentId : string)
    (window : option (Z * Z)) (p : OutgoingPayment) : bool :=
  bool_decide (grantId p = Some grant)
  && negb (bool_decide (id p = paymentId))
  && match window with
     | Some win => inWindow (createdAt p) win
     | None => true
     end.

(** Modelled from the spec: the running totals [(sent, received)] of the
    loop over the grant's payments. *)
Definition addGrantPayment (l : Ledger) (grant paymentId : string)
    (window : option (Z * Z)) (amounts : Z * Z) (p : OutgoingPayment) : Z * Z :=
  if countsAgainst grant paymentId window p
  then (amounts.1 + sentContribution l p, amounts.2 + receivedContribution l p)
  else amounts.

(** Modelled from the spec: the totals over all payments of the table. *)
Definition grantAmounts (w : World) (grant paymentId : string)
    (window : option (Z * Z)) : Z * Z :=
  fold_left (addGrantPayment (ledger w) grant paymentId window)
    (map_to_list (outgoingPayments w)).*2 (0, 0).

(** Modelled from the spec: the checks of [validateGrant] once the window
    of the interval is known. "If debitAmount/receiveAmount is set, its
    currency (assetCode, assetScale) must equal the quote's
    source/destination asset respectively. ... The quote's amount must
    fit in the remaining budget". *)
Definition withinLimits (w : World) (q : Quote) (grant : Grant) (lim : Limits)
    (window : option (Z * Z)) : bool :=
  let debitOk :=
    match limit_debitAmount lim with
    | Some a => sameAsset a (asset_code q) (asset_scale q)
    | None => true
    end in
  let receiveOk :=
    match limit_receiveAmount lim with
    | Some a => sameAsset a (receiveAmountAssetCode q) (receiveAmountAssetScale q)
    | None => true
    end in
  if negb (debitOk && receiveOk) then false else
  let amounts := grantAmounts w (grant_id grant) (Quotes.id q) window in
  let debitFits :=
    match limit_debitAmount lim with
    | Some a => negb (value a - amounts.1 <? debitAmountValue q)
    | None => true
    end in
  let receiveFits :=
    match limit_receiveAmount lim with
    | Some a => negb (value a - amounts.2 <? receiveAmountValue q)
    | None => true
    end in
  debitFits && receiveFits.

(** Modelled from the spec: [validateGrant] ([payment/outgoing/service.ts]
    is not part of the sources at hand). "If interval is set, it must
    cover now." [true] means that the grant allows the payment. *)
Definition validateGrant (w : World) (now : Z) (q : Quote) (grant : Grant) : bool :=
  match limits grant with
  | None => true
  | Some lim =>
      match limit_interval lim with
      | Some interval =>
          match List.find (inWindow now) interval with
          | Some win => withinLimits w q grant lim (Some win)
          | None => false
          end
      | None => withinLimits w q grant lim None
      end
  end.

(** Modelled from the spec: the receiver of a quote can still be paid: it
    resolves, and the incoming payment is neither [Completed] nor
    [Expired]. *)
Definition receiverOpen (w : World) (q : Quote) : bool :=
  match receivers w !! Quotes.receiver q with
  | Some incomingPayment =>
      negb (IncomingPayments.isTerminal (IncomingPayments.state incomingPayment))
  | None => false
  end.

(** Modelled from the spec: [OutgoingPaymentService.create]
    ([payment/outgoing/service.ts] is not part of the sources at hand).
    "Reject UnknownWalletAddress, InactiveWalletAddress, UnknownQuote,
    InvalidQuote (quote consumed, expired, wallet mismatch, receiver
    Completed/Expired). If grant is set: acquire an exclusive lock on
    outgoingPaymentGrants(grant.id) ... Insert the outgoing payment with
    state = Funding; insert a PaymentCreated webhook event in the same
    transaction." The payment takes the id of its quote, the key of
    [outgoingPayments], so a consumed quote shows as a taken key. A
    rejected creation writes nothing. *)
Definition create (w : World) (now : Z) (options : CreateOutgoingPaymentOptions)
    : (OutgoingPayment + OutgoingPaymentError) * World :=
  match walletAddresses w !! opt_walletAddressId options with
  | None => (inr UnknownWalletAddress, w)
  | Some walletAddress =>
      if negb (WalletAddresses.isActive walletAddress now)
      then (inr InactiveWalletAddress, w)
      else
        match quotes w !! opt_quoteId options with
        | None => (inr UnknownQuote, w)
        | Some q =>
            if bool_decide (is_Some (outgoingPayments w !! opt_quoteId options))
               || (Quotes.expiresAt q <=? now)
               || negb (bool_decide (Quotes.walletAddressId q = opt_walletAddressId options))
               || negb (receiverOpen w q)
            then (inr InvalidQuote, w)
            else
              let payment :=
                {| id := opt_quoteId options;
                   walletAddressId := opt_walletAddressId options;
                   quote := q; state := Funding; error := None;
                   stateAttempts := 0;
                   grantId := grant_id <$> opt_grant options;
                   createdAt := now; updatedAt := now |} in
              let inserted (w : World) :=
                with_event
                  (with_ledger (with_payment w payment)
                     (createLiquidityAccount (ledger w) (id payment)))
                  {| event_type := PaymentCreated;
                     event_paymentId := id payment; withdrawal := None |} in
              match opt_grant options with
              | Some grant =>
                  if validateGrant w now q grant
                  then (inl payment, inserted (with_grant_row w (grant_id grant)))
                  else (inr InsufficientGrant, w)
              | None => (inl payment, inserted w)
              end
        end
  end.

(** *** Funding *)

Inductive FundingError :=
| FundingUnknownPayment
| FundingWrongState
| FundingInvalidAmount
| FundingTransferError (e : TransferError).

Record FundOptions := {
  fund_id : string;
  fund_amount : Z;
  fund_transferId : string
}.

(** Modelled from the spec: [OutgoingPaymentService.fund]
    ([payment/outgoing/service.ts] is not part of the sources at hand).
    "Funding → Sending: triggered by fund({id, amount, transferId});
    fails with WrongState (not Funding), InvalidAmount (amount ≠
    quote.debitAmount), UnknownPayment. Atomic with a ledger deposit to
    the payment's account." A failed call writes nothing. *)
Definition fund (w : World) (now : Z) (options : FundOptions)
    : (OutgoingPayment + FundingError) * World :=
  match outgoingPayments w !! fund_id options with
  | None => (inr FundingUnknownPayment, w)
  | Some payment =>
      if negb (bool_decide (state payment = Funding))
      then (inr FundingWrongState, w)
      else if negb (fund_amount options =? value (debitAmount payment))
      then (inr FundingInvalidAmount, w)
      else
        match createDeposit (ledger w) (fund_transferId options) (id payment)
                (fund_amount options) with
        | inr e => (inr (FundingTransferError e), w)
        | inl l =>
            let payment' :=
              applyPatch now payment
                {| patch_state := Some Sending; patch_error := None;
                   patch_stateAttempts := None |} in
            (inl payment', with_ledger (with_payment w payment') l)
        end
  end.

(** *** The lifecycle worker *)

(** [Pay.PaymentError], the kinds that the pay step tells apart. *)
Inductive PaymentError :=
| ClosedByReceiver | IdleTimeout | EstablishmentFailed
| InsufficientExchangeRate | RateProbeFailed | ConnectorError
| ReceiverProtocolViolation | DestinationAssetConflict
| IncompatibleReceiveMax | InvalidGeneratedSequence.

Inductive LifecycleFailure :=
| SourceAssetConflict
| PayFailure (e : PaymentError).

Definition paymentErrorName (e : PaymentError) : string :=
  match e with
  | ClosedByReceiver => "ClosedByReceiver"
  | IdleTimeout => "IdleTimeout"
  | EstablishmentFailed => "EstablishmentFailed"
  | InsufficientExchangeRate => "InsufficientExchangeRate"
  | RateProbeFailed => "RateProbeFailed"
  | ConnectorError => "ConnectorError"
  | ReceiverProtocolViolation => "ReceiverProtocolViolation"
  | DestinationAssetConflict => "DestinationAssetConflict"
  | IncompatibleReceiveMax => "IncompatibleReceiveMax"
  | InvalidGeneratedSequence => "InvalidGeneratedSequence"
  end.

Definition failureName (f : LifecycleFailure) : string :=
  match f with
  | SourceAssetConflict => "SourceAssetConflict"
  | PayFailure e => paymentErrorName e
  end.

(** Modelled from the spec: "retryable {ClosedByReceiver, IdleTimeout,
    EstablishmentFailed, InsufficientExchangeRate, RateProbeFailed,
    ConnectorError}; fatal {ReceiverProtocolViolation,
    DestinationAssetConflict, IncompatibleReceiveMax,
    InvalidGeneratedSequence, …}". *)
Definition canRetryError (f : LifecycleFailure) : bool :=
  match f with
  | PayFailure (ClosedByReceiver | IdleTimeout | EstablishmentFailed
               | InsufficientExchangeRate | RateProbeFailed | ConnectorError) => true
  | _ => false
  end.

(** [Pay.PaymentProgress]: what one call of [Pay.pay] moved, and the
    error it ended with, if any. *)
Record PaymentProgress := {
  amountSent : Z;
  amountDelivered : Z;
  pay_error : option PaymentError
}.

(** Modelled from the spec: the bound on attempts in one state ("After a
    bounded number of attempts"; "After 5 attempts"). *)
Definition MAX_STATE_ATTEMPTS : Z := 5.

(** Modelled from the spec: entering [Failed] or [Completed]
    ([payment/outgoing/lifecycle.ts] is not part of the sources at hand).
    "On entry to Completed or Failed: a withdrawal is initiated for any
    residual balance (debitAmount - sentAmount); a webhook event ... is
    enqueued with withdrawal". *)
Definition finish (w : World) (now : Z) (payment : OutgoingPayment)
    (s : OutgoingPaymentState) (err : option string) (type : PaymentEventType)
    : World :=
  let balance := default 0 (getBalance (ledger w) (id payment)) in
  let payment' :=
    applyPatch now payment
      {| patch_state := Some s;
         patch_error := match err with Some e => Some (Some e) | None => None end;
         patch_stateAttempts := None |} in
  with_event (with_payment w payment')
    {| event_type := type; event_paymentId := id payment;
       withdrawal := if 0 <? balance then Some (id payment, balance) else None |}.

(** Modelled from the spec: entering [Failed], with the error. *)
Definition handleFailed (w : World) (now : Z) (payment : OutgoingPayment)
    (error : string) : World :=
  finish w now payment Failed (Some error) PaymentFailed.

(** Modelled from the spec: entering [Completed]. *)
Definition handleCompleted (w : World) (now : Z) (payment : OutgoingPayment)
    : World :=
  finish w now payment Completed None PaymentCompleted.

(** Modelled from the spec: what the worker does with an error of the
    pay step ([payment/outgoing/worker.ts] is not part of the sources at
    hand). "Retryable errors incur ... backoff keyed off stateAttempts
    ... After a bounded number of attempts, transitions to Failed with
    the last error." *)
Definition onLifecycleError (w : World) (now : Z) (payment : OutgoingPayment)
    (err : LifecycleFailure) : World :=
  let stateAttempts' := stateAttempts payment + 1 in
  if (stateAttempts' <? MAX_STATE_ATTEMPTS) && canRetryError err
  then with_payment w
         (applyPatch now payment
            {| patch_state := None; patch_error := None;
               patch_stateAttempts := Some stateAttempts' |})
  else handleFailed w now payment (failureName err).

(** Modelled from the spec: "Verify the source asset matches the quote". *)
Definition sourceAssetMatches (w : World) (payment : OutgoingPayment) : bool :=
  match walletAddresses w !! walletAddressId payment with
  | Some wa =>
      bool_decide (WalletAddresses.asset_code (WalletAddresses.asset wa)
                   = asset_code (quote payment))
      && (WalletAddresses.asset_scale (WalletAddresses.asset wa)
          =? asset_scale (quote payment))
  | None => false
  end.

(** Modelled from the spec: one pay step of the worker
    ([payment/outgoing/worker.ts] and [lifecycle.ts] are not part of the
    sources at hand). "Verify the source asset matches the quote (else
    Fail with SourceAssetConflict). Build a streaming-pay plan ... and run
    it ... On completion, sentAmount := amountSent is persisted together
    with the new state." [pay] stands for [Pay.pay] run against the
    packet pipeline; what it sent has left the account whether or not it
    ended with an error. *)
Definition handlePaymentLifecycle (pay : World -> OutgoingPayment -> PaymentProgress)
    (w : World) (now : Z) (payment : OutgoingPayment) : World :=
  if negb (bool_decide (state payment = Sending)) then w
  else if negb (sourceAssetMatches w payment)
  then onLifecycleError w now payment SourceAssetConflict
  else
    let progress := pay w payment in
    let w' := with_ledger w (send (ledger w) (id payment) (amountSent progress)) in
    match pay_error progress with
    | Some e => onLifecycleError w' now payment (PayFailure e)
    | None => handleCompleted w' now payment
    end.

(** *** The retry schedule *)

(** [fastForwardToAttempt(stateAttempts)] of the test: "fast-forward to
    the time that the specified (absolute, not relative) attempt is
    scheduled", [Date.now() + stateAttempts * RETRY_BACKOFF_SECONDS * 1000].
    [RETRY_BACKOFF_SECONDS] is a constant of the worker. *)
Definition fastForwardToAttempt (RETRY_BACKOFF_SECONDS : Z) (now : Z)
    (stateAttempts : Z) : Z :=
  now + stateAttempts * RETRY_BACKOFF_SECONDS * 1000.

(** Modelled from the spec: the delay before a retry as the specification
    words it, "RETRY_BACKOFF_SECONDS × 2^k", in milliseconds. *)
Definition exponentialDelay (RETRY_BACKOFF_SECONDS : Z) (k : nat) : Z :=
  RETRY_BACKOFF_SECONDS * 2 ^ Z.of_nat k * 1000.

(** Modelled from the spec: the delay before the attempt that follows
    [stateAttempts] failed ones ([payment/outgoing/worker.ts] is not part
    of the sources at hand), in milliseconds. It is taken from the test,
    whose [fastForwardToAttempt] jumps to "the time that the specified
    attempt is scheduled": [stateAttempts] times the base, and not the
    base times a power of two. *)
Definition retryDelay (RETRY_BACKOFF_SECONDS : Z) (stateAttempts : Z) : Z :=
  stateAttempts * RETRY_BACKOFF_SECONDS * 1000.

(** Modelled from the spec: when the next attempt of a payment is due,
    counted from its last write. *)
Definition scheduledAt (RETRY_BACKOFF_SECONDS : Z) (p : OutgoingPayment) : Z :=
  updatedAt p + retryDelay RETRY_BACKOFF_SECONDS (stateAttempts p).

(** Modelled from the spec: the worker's choice of a payment ("claims one
    payment whose processAt ≤ now"). A payment in [Sending] is taken at
    once when it has not been attempted, and otherwise once its next
    attempt is due. *)
Definition isPending (RETRY_BACKOFF_SECONDS : Z) (now : Z) (p : OutgoingPayment)
    : bool :=
  bool_decide (state p = Sending)
  && ((stateAttempts p =? 0) || (scheduledAt RETRY_BACKOFF_SECONDS p <=? now)).

(** Modelled from the spec: a payment that the worker can take, if there
    is one. *)
Definition getPendingPayment (RETRY_BACKOFF_SECONDS : Z) (w : World) (now : Z)
    : option OutgoingPayment :=
  List.find (isPending RETRY_BACKOFF_SECONDS now)
    (map_to_list (outgoingPayments w)).*2.

(** Modelled from the spec: [OutgoingPaymentService.processNext], one tick
    of the worker; the result is the id of the payment that was
    processed, if there was one to process. *)
Definition processNext (RETRY_BACKOFF_SECONDS : Z)
    (pay : World -> OutgoingPayment -> PaymentProgress) (w : World) (now : Z)
    : option string * World :=
  match getPendingPayment RETRY_BACKOFF_SECONDS w now with
  | Some payment => (Some (id payment), handlePaymentLifecycle pay w now payment)
  | None => (None, w)
  end.

(** *** The test 'SENDING (partial payment then retryable Pay error)' *)

(** [mockPay({ maxSourceAmount, minDeliveryAmount }, error)]: each call
    of [Pay.pay] moves the capped amounts and then reports the error. *)
Definition mockPay (maxSourceAmount minDeliveryAmount : Z)
    (error : option PaymentError) : World -> OutgoingPayment -> PaymentProgress :=
  fun _ _ => {| amountSent := maxSourceAmount;
                amountDelivered := minDeliveryAmount;
                pay_error := error |}.

(** The loop of the test: [processNext], then
    [fastForwardToAttempt(payment.stateAttempts)], [n] times. *)
Fixpoint retryLoop (RETRY_BACKOFF_SECONDS : Z)
    (pay : World -> OutgoingPayment -> PaymentProgress) (paymentId : string)
    (n : nat) (w : World) (now : Z) : World * Z :=
  match n with
  | O => (w, now)
  | S n' =>
      let w' := (processNext RETRY_BACKOFF_SECONDS pay w now).2 in
      let attempts :=
        match outgoingPayments w' !! paymentId with
        | Some payment => stateAttempts payment
        | None => 0
        end in
      retryLoop RETRY_BACKOFF_SECONDS pay paymentId n' w'
        (fastForwardToAttempt RETRY_BACKOFF_SECONDS now attempts)
  end.

(** Four rounds of the loop and the last [processNext]. *)
Definition partialPaymentThenRetryableError (RETRY_BACKOFF_SECONDS : Z)
    (paymentId : string) (w : World) (now : Z) : option string * World :=
  let pay := mockPay 10 5 (Some ClosedByReceiver) in
  let '(w4, now4) := retryLoop RETRY_BACKOFF_SECONDS pay paymentId 4 w now in
  processNext RETRY_BACKOFF_SECONDS pay w4 now4.

End OutgoingPayments.

(** ** More of the incoming payment model
       ([open_payments/payment/incoming/model.ts]) *)

Module IncomingPaymentModel.
Import IncomingPayments.

(** [static readonly urlPath = '/incoming-payments'] *)
Definition urlPath : string := "/incoming-payments".

(** [getUrl(walletAddress)]:
    [`${walletAddress.url}${IncomingPayment.urlPath}/${this.id}`] *)
Definition getUrl (this : IncomingPayment)
    (walletAddress : WalletAddresses.WalletAddress) : string :=
  WalletAddresses.url walletAddress ++ urlPath ++ "/" ++ id this.

(** [set incomingAmount(amount)]:
    [this.incomingAmountValue = amount?.value ?? null] *)
Definition set_incomingAmount (this : IncomingPayment)
    (amount : option Quotes.Amount) : IncomingPayment :=
  {| id := id this; walletAddressId := walletAddressId this;
     state := state this; expiresAt := expiresAt this;
     connectionId := connectionId this; processAt := processAt this;
     incomingAmountValue :=
       match amount with
       | Some a => Some (Quotes.value a)
       | None => None
       end;
     receivedAmountValue := receivedAmountValue this |}.

End IncomingPaymentModel.

(** ** Queries on the resources of a wallet address
       ([SubresourceQueryBuilder] of [open_payments/wallet_address/model.ts]) *)

Module Subresources.

(** [GetOptions]: [client] and [walletAddressId] may be left out. *)
Record GetOptions := {
  get_id : string;
  get_client : option string;
  get_walletAddressId : option string
}.

(** An optional string in a condition: [undefined] and the empty string
    are falsy. *)
Definition truthy (s : option string) : option string :=
  match s with
  | Some v => if bool_decide (v = "") then None else Some v
  | None => None
  end.

Section get.

(** The model [M] of the query, a [WalletAddressSubresource], with its
    columns [walletAddressId] and [client] (nullable). *)
Context {M : Type}.
Variable walletAddressId : M -> string.
Variable client : M -> option string.

(** [get({ id, walletAddressId, client })]: each [where] narrows the
    query, [findById] then gives the row with the id if the query still
    holds it. *)
Definition get (table : gmap string M) (options : GetOptions) : option M :=
  let where_walletAddressId (row : M) : bool :=
    match truthy (get_walletAddressId options) with
    | Some w => bool_decide (walletAddressId row = w)
    | None => true
    end in
  let where_client (row : M) : bool :=
    match truthy (get_client options) with
    | Some c => bool_decide (client row = Some c)
    | None => true
    end in
  match table !! get_id options with
  | Some row =>
      if where_walletAddressId row && where_client row then Some row else None
  | None => None
  end.

End get.

End Subresources.

(** ** Creating receivers  ([open_payments/receiver/service.ts]) *)

Module ReceiverCreation.
Import Receivers.

(** [CreateReceiverArgs], without the metadata. *)
Record CreateReceiverArgs := {
  walletAddressUrl : string;
  expiresAt : option Z;
  incomingAmount : option Quotes.Amount
}.

Section create.

(** The error side of the unions [OpenPaymentsIncomingPayment |
    ReceiverError] and [IncomingPayment | IncomingPaymentError] that the
    functions below are declared with: the values that the type guards
    [isReceiverError] and [isIncomingPaymentError] single out. *)
Context {ReceiverError : Type}.

(** The services that creation uses, next to those of
    [ServiceDependencies]: what [incomingPaymentService.create] and
    [remoteIncomingPaymentService.create] answer, and
    [Receiver.fromIncomingPayment], which may throw. *)
Variable incomingPaymentService_create :
  string -> option Z -> option Quotes.Amount ->
  IncomingPayments.IncomingPayment + ReceiverError.
Variable remoteIncomingPaymentService_create :
  CreateReceiverArgs -> OpenPaymentsIncomingPayment + ReceiverError.
Variable Receiver_fromIncomingPayment :
  OpenPaymentsIncomingPayment -> Receiver + Thrown.

(** [createLocalIncomingPayment]: [inl] is what the function returns,
    [inr] what it throws. *)
Definition createLocalIncomingPayment (deps : ServiceDependencies)
    (args : CreateReceiverArgs) (walletAddress : WalletAddresses.WalletAddress)
    : (OpenPaymentsIncomingPayment + ReceiverError) + Thrown :=
  match incomingPaymentService_create (WalletAddresses.id walletAddress)
          (expiresAt args) (incomingAmount args) with
  | inr incomingPaymentError => inl (inr incomingPaymentError)
  | inl incomingPayment =>
      match connectionService_get deps incomingPayment with
      | None => inr (Error "Could not get connection for local incoming payment")
      | Some connection =>
          inl (inl (LocalIncomingPayment incomingPayment connection))
      end
  end.

(** [createReceiver], which is [ReceiverService.create]. *)
Definition createReceiver (deps : ServiceDependencies) (args : CreateReceiverArgs)
    : (Receiver + ReceiverError) + Thrown :=
  let incomingPaymentOrError :=
    match walletAddressService_getByUrl deps (walletAddressUrl args) with
    | Some localWalletAddress =>
        createLocalIncomingPayment deps args localWalletAddress
    | None => inl (remoteIncomingPaymentService_create args)
    end in
  match incomingPaymentOrError with
  | inr thrown => inr thrown
  | inl (inr receiverError) => inl (inr receiverError)
  | inl (inl incomingPayment) =>
      match Receiver_fromIncomingPayment incomingPayment with
      | inl receiver => inl (inl receiver)
      | inr error => inr (Error "Could not create receiver from incoming payment")
      end
  end.

End create.

End ReceiverCreation.

(** ** The connector's middleware pipeline  ([connector/index.ts]) *)

Module Connector.

Section compose.

(** The context that the middlewares share, and what they may throw. *)
Context {Ctx E : Type}.

(** What a promise of the pipeline rejects with: an [Error] made by
    [compose], or what a middleware threw. *)
Inductive Rejection :=
| Error (message : string)
| Thrown (e : E).

(** An [ILPMiddleware] [(ctx, next) => Promise<void>], by what it does
    in turn: it returns, throws, reads or writes [ctx], or awaits
    [next()], inside a [try] with a [catch] block or outside one. *)
Inductive Middleware :=
| Return
| Throw (e : E)
| GetCtx (k : Ctx -> Middleware)
| SetCtx (c : Ctx) (k : Middleware)
| AwaitNext (k : Middleware)
| AwaitNextCatch (k : Middleware) (handler : Rejection -> Middleware).

(** The variables of one call of the composed middleware: [ctx] and
    [index], the "last called middleware". [entered] is not in the code:
    it keeps the positions that [dispatch] has run for, latest first. *)
Record Frame := {
  ctx : Ctx;
  index : Z;
  entered : list Z
}.

Definition Promise : Type := Frame -> (unit + Rejection) * Frame.

Definition set_ctx (f : Frame) (c : Ctx) : Frame :=
  {| ctx := c; index := index f; entered := entered f |}.

(** [fn(ctx, next)] *)
Fixpoint run (fn : Middleware) (next : Promise) (f : Frame)
    : (unit + Rejection) * Frame :=
  match fn with
  | Return => (inl tt, f)
  | Throw e => (inr (Thrown e), f)
  | GetCtx k => run (k (ctx f)) next f
  | SetCtx c k => run k next (set_ctx f c)
  | AwaitNext k =>
      match next f with
      | (inl _, f') => run k next f'
      | (inr err, f') => (inr err, f')
      end
  | AwaitNextCatch k handler =>
      match next f with
      | (inl _, f') => run k next f'
      | (inr err, f') => run (handler err) next f'
      end
  end.

(** [dispatch(i)], where [middlewares] is the rest of the array from
    position [i] on, so that its head is [middlewares[i]] and it is
    empty when [i === middlewares.length]. The [next] of the composed
    middleware takes no arguments; it may be [undefined]. A throw of
    [fn] and a rejection of its promise are the same [inr]. *)
Fixpoint dispatch (middlewares : list Middleware)
    (next : option (Ctx -> (unit + Rejection) * Ctx)) (i : Z) (f : Frame)
    : (unit + Rejection) * Frame :=
  if i <=? index f then (inr (Error "next() called multiple times"), f)
  else
    let f := {| ctx := ctx f; index := i; entered := i :: entered f |} in
    match middlewares with
    | fn :: rest => run fn (dispatch rest next (i + 1)) f
    | [] =>
        match next with
        | Some fn => let '(result, c) := fn (ctx f) in (result, set_ctx f c)
        | None => (inl tt, f)
        end
    end.

(** [compose(middlewares)(ctx, next)], with the frame it ends in. *)
Definition composed (middlewares : list Middleware)
    (next : option (Ctx -> (unit + Rejection) * Ctx)) (c : Ctx)
    : (unit + Rejection) * Frame :=
  dispatch middlewares next 0 {| ctx := c; index := -1; entered := [] |}.

(** [compose(middlewares)(ctx, next)]: how the promise settles, and
    [ctx] by then. *)
Definition compose (middlewares : list Middleware)
    (next : option (Ctx -> (unit + Rejection) * Ctx)) (c : Ctx)
    : (unit + Rejection) * Ctx :=
  let '(result, f) := composed middlewares next c in (result, ctx f).

End compose.

Arguments Rejection : clear implicits.
Arguments Middleware : clear implicits.
Arguments Frame : clear implicits.
Arguments Promise : clear implicits.

(** The context of a packet, as far as the account middleware goes:
    what it reads and the [ctx.accounts] it sets. *)
Record Context := {
  packet : AccountMiddleware.ILPContext;
  accounts : option AccountMiddleware.Accounts
}.

(** [createAccountMiddleware(serverAddress)] as a stage of the pipeline
    ([connector/core/middleware/account.ts]): it throws, or sets
    [ctx.accounts] and awaits [next()]. *)
Definition accountMiddleware (serverAddress : string) (validateId : string -> bool)
    (services : AccountMiddleware.Services)
    : Middleware Context AccountMiddleware.Thrown :=
  GetCtx (fun c =>
    match AccountMiddleware.account serverAddress validateId services (packet c) with
    | inr e => Throw e
    | inl a => SetCtx {| packet := packet c; accounts := Some a |} (AwaitNext Return)
    end).

End Connector.

(** ** Start-up  ([index.ts]) *)

Module Startup.

(** The time line of a call of [callWithRetry]: how often [fn] was
    called, and for how many milliseconds the call has slept. *)
Record Timeline := {
  calls : nat;
  waited : Z
}.

Section callWithRetry.

(** [fn], which may answer differently from call to call: its [n]-th
    call (counted from 0) returns a value or throws. *)
Context {A E : Type}.
Variable fn : nat -> A + E.

(** [callWithRetry(fn, depth)] *)
Equations callWithRetry (depth : nat) (t : Timeline) : (A + E) * Timeline
  by wf (8 - depth)%nat lt :=
callWithRetry depth t with fn (calls t) := {
  | inl a => (inl a, {| calls := S (calls t); waited := waited t |})
  | inr e with decide (7 < depth)%nat := {
      | left _ => (inr e, {| calls := S (calls t); waited := waited t |})
      | right _ =>
          callWithRetry (S depth)
            {| calls := S (calls t);
               waited := waited t + 2 ^ Z.of_nat depth * 30 |} } }.
Next Obligation. lia. Qed.

End callWithRetry.

End Startup.

(** * Properties *)

(** Split the conjunctions that are written out in the goal. *)
Ltac splits := repeat match goal with |- _ /\ _ => split end.

(** ** Incoming payments and the account middleware *)

Module IncomingPaymentProps.
Import IncomingPayments.

(** The invariant on a row: a connection id exactly in the states that
    can still receive. *)
Definition connection_invariant (p : IncomingPayment) : Prop :=
  connectionId p <> None <-> (state p = Pending \/ state p = Processing).

Lemma invariant_of_bool (p : IncomingPayment) :
  (isTerminal (state p) = false -> connectionId p <> None) ->
  (isTerminal (state p) = true -> connectionId p = None) ->
  connection_invariant p.
Proof.
  intros Hopen Hclosed. unfold connection_invariant.
  destruct (state p) eqn:Hs; simpl in *; split; intros H; auto;
    try (exfalso; apply H; auto; fail);
    try (destruct H; discriminate).
Qed.

Lemma invariant_open (p : IncomingPayment) :
  connection_invariant p -> isTerminal (state p) = false -> connectionId p <> None.
Proof.
  unfold connection_invariant. intros [_ H] Hs. apply H.
  destruct (state p); simpl in Hs; try discriminate; auto.
Qed.

Lemma invariant_closed (p : IncomingPayment) :
  connection_invariant p -> isTerminal (state p) = true -> connectionId p = None.
Proof.
  unfold connection_invariant. intros [H _] Hs.
  destruct (connectionId p) eqn:Hc; [|reflexivity].
  destruct H as [H|H]; [discriminate| |]; rewrite H in Hs; discriminate.
Qed.

(** A freshly inserted row has a connection id, whatever was asked for. *)
Lemma beforeInsert_connectionId (p : IncomingPayment) (fresh : string) :
  connectionId (beforeInsert p fresh) <> None.
Proof.
  unfold beforeInsert; simpl.
  destruct (connectionId p); [case_bool_decide|]; discriminate.
Qed.

(** [$beforeUpdate] nulls the connection id of a patch into a closing
    state and leaves every other patch alone. *)
Lemma beforeUpdate_terminal (patch : Patch) (s : IncomingPaymentState) :
  patch_state patch = Some s -> isTerminal s = true ->
  patch_connectionId (beforeUpdate patch) = Some None
  /\ patch_state (beforeUpdate patch) = Some s.
Proof.
  intros Hp Hs. unfold beforeUpdate. rewrite Hp, Hs. simpl. auto.
Qed.

Lemma beforeUpdate_other (patch : Patch) :
  match patch_state patch with Some s => isTerminal s = false | None => True end ->
  beforeUpdate patch = patch.
Proof.
  unfold beforeUpdate. destruct (patch_state patch) as [s|]; [|reflexivity].
  intros ->. reflexivity.
Qed.

(** A patch that leaves [connectionId] to [$beforeUpdate] keeps the
    invariant of the row it is applied to, as long as it does not reopen
    a closed row. *)
Lemma applyPatch_invariant (row : IncomingPayment) (patch : Patch) :
  connection_invariant row ->
  patch_connectionId patch = None ->
  match patch_state patch with
  | Some s => isTerminal s = true \/ isTerminal (state row) = false
  | None => True
  end ->
  connection_invariant (applyPatch row (beforeUpdate patch)).
Proof.
  intros Hinv Hc Hs.
  destruct (patch_state patch) as [s|] eqn:Hp.
  - destruct (isTerminal s) eqn:Ht.
    + destruct (beforeUpdate_terminal patch s Hp Ht) as [Hc' Hs'].
      apply invariant_of_bool; unfold applyPatch; simpl;
        rewrite ?Hc', ?Hs'; simpl; congruence.
    + destruct Hs as [Hs|Hs]; [discriminate|].
      rewrite beforeUpdate_other by (rewrite Hp; exact Ht).
      apply invariant_of_bool; unfold applyPatch; simpl;
        rewrite Hc, Hp; simpl; [|congruence].
      intros _. apply invariant_open; assumption.
  - rewrite beforeUpdate_other by (rewrite Hp; exact I).
    apply invariant_of_bool; unfold applyPatch; simpl; rewrite Hc, Hp; simpl.
    + apply invariant_open; assumption.
    + apply invariant_closed; assumption.
Qed.

Definition table_invariant (db : gmap string IncomingPayment) : Prop :=
  forall pid p, db !! pid = Some p -> connection_invariant p.

Lemma patchAndFetchById_whereNotIn_invariant
    (db : gmap string IncomingPayment) (pid : string) (patch : Patch)
    (excluded : list IncomingPaymentState) :
  table_invariant db ->
  patch_connectionId patch = None ->
  match patch_state patch with
  | Some s => isTerminal s = true \/ (Expired ∈ excluded /\ Completed ∈ excluded)
  | None => True
  end ->
  table_invariant (patchAndFetchById_whereNotIn db pid patch excluded).2.
Proof.
  intros Hdb Hc Hs. unfold patchAndFetchById_whereNotIn.
  destruct (db !! pid) as [row|] eqn:Hrow; [|exact Hdb].
  case_bool_decide as Hex; [exact Hdb|]. simpl.
  intros pid' p'. rewrite lookup_insert. case_decide as Heq.
  - intros [= <-]. apply applyPatch_invariant; [eapply Hdb; eassumption|assumption|].
    destruct (patch_state patch) as [s|]; [|exact I].
    destruct Hs as [Hs|[He Hco]]; [left; assumption|right].
    destruct (state row) eqn:Hst; simpl; auto; exfalso; apply Hex; assumption.
  - apply Hdb.
Qed.

(** Both patch queries of [onCredit] leave a closed row alone. *)
Lemma patch_excluding_closed (db : gmap string IncomingPayment) (pid : string)
    (patch : Patch) (row : IncomingPayment) :
  db !! pid = Some row -> isTerminal (state row) = true ->
  patchAndFetchById_whereNotIn db pid patch [Expired; Completed] = (None, db).
Proof.
  intros Hrow Hs. unfold patchAndFetchById_whereNotIn. rewrite Hrow.
  case_bool_decide as Hex; [reflexivity|].
  exfalso. apply Hex. destruct (state row); try discriminate; set_solver.
Qed.

Lemma step_invariant (db db' : gmap string IncomingPayment) :
  step db db' -> table_invariant db -> table_invariant db'.
Proof.
  intros Hstep Hdb. destruct Hstep as [db p fresh Hs Hfree|db this tr now|db pid patch Hc Hs].
  - unfold insert. intros pid' p'. rewrite lookup_insert. case_decide.
    + intros [= <-]. apply invariant_of_bool.
      * intros _. apply beforeInsert_connectionId.
      * simpl. rewrite Hs. discriminate.
    + apply Hdb.
  - unfold onCredit.
    destruct (match incomingAmount this with Some v => v <=? tr | None => false end).
    + pose proof (patchAndFetchById_whereNotIn_invariant db (id this)
        {| patch_state := Some Completed;
           patch_processAt := Some (Some (now + 30000));
           patch_connectionId := None; patch_expiresAt := None;
           patch_incomingAmountValue := None |} [Expired; Completed] Hdb eq_refl) as H.
      destruct (patchAndFetchById_whereNotIn _ _ _ _) as [[r|] d]; simpl in *;
        apply H; left; reflexivity.
    + pose proof (patchAndFetchById_whereNotIn_invariant db (id this)
        {| patch_state := Some Processing;
           patch_processAt := None;
           patch_connectionId := None; patch_expiresAt := None;
           patch_incomingAmountValue := None |} [Expired; Completed] Hdb eq_refl) as H.
      destruct (patchAndFetchById_whereNotIn _ _ _ _) as [[r|] d]; simpl in *;
        apply H; right; set_solver.
  - unfold patchById. apply patchAndFetchById_whereNotIn_invariant; [assumption..|].
    destruct (patch_state patch); [left; assumption|exact I].
Qed.

Lemma reachable_invariant (db : gmap string IncomingPayment) :
  reachable db -> table_invariant db.
Proof.
  induction 1 as [|db db' _ IH Hstep].
  - intros pid p. rewrite lookup_empty. discriminate.
  - eapply step_invariant; eassumption.
Qed.

Import AccountMiddleware.

(** The middleware turns away money for a closed incoming payment. *)
Lemma account_closed_payment (serverAddress : string) (validateId : string -> bool)
    (services : Services) (ctx : ILPContext) (pid : string) (p : IncomingPayment) :
  incomingAccount ctx <> None ->
  streamDestination ctx = Some pid -> pid <> "" ->
  incomingPayments_get services pid = Some p ->
  prepare_amount ctx <> "0" ->
  isTerminal (state p) = true ->
  account serverAddress validateId services ctx
  = inr (UnreachableError "destination account is disabled").
Proof.
  intros Hin Hdest Hne Hget Hamount Hclosed.
  unfold account. destruct (incomingAccount ctx) as [peer|]; [|congruence].
  unfold getAccountByDestinationAddress. rewrite Hdest.
  rewrite bool_decide_eq_false_2 by assumption.
  rewrite Hget, Hclosed.
  rewrite (bool_decide_eq_false_2 _ Hamount). reflexivity.
Qed.

(** C1. For every incoming payment of a table that the engine can reach,
    [connectionId] is non-null if and only if the state is [Pending] or
    [Processing]: [$beforeInsert] always assigns a connection id, and
    [$beforeUpdate] nulls it in every update that sets the state to
    [Completed] or [Expired]. And when such a payment is [Completed] or
    [Expired], the account middleware rejects every prepare with an
    amount other than ["0"] that is addressed to it (its id is the
    stream destination of a packet from an authenticated peer) with
    [UnreachableError]. *)
Theorem connectionId_iff_open_and_closed_unreachable
    (db : gmap string IncomingPayment) (pid : string) (p : IncomingPayment) :
  reachable db -> db !! pid = Some p ->
  (connectionId p <> None <-> (state p = Pending \/ state p = Processing))
  /\ (forall (q : IncomingPayment) (fresh : string),
        connectionId (beforeInsert q fresh) <> None)
  /\ (forall (row : IncomingPayment) (patch : Patch) (s : IncomingPaymentState),
        patch_state patch = Some s -> s = Completed \/ s = Expired ->
        connectionId (applyPatch row (beforeUpdate patch)) = None)
  /\ (state p = Completed \/ state p = Expired ->
      forall (serverAddress : string) (validateId : string -> bool)
             (services : Services) (ctx : ILPContext),
        incomingAccount ctx <> None ->
        streamDestination ctx = Some pid -> pid <> "" ->
        incomingPayments_get services pid = Some p ->
        prepare_amount ctx <> "0" ->
        account serverAddress validateId services ctx
        = inr (UnreachableError "destination account is disabled")).
Proof.
  intros Hreach Hp. repeat split.
  - apply (reachable_invariant db Hreach pid p Hp).
  - apply (reachable_invariant db Hreach pid p Hp).
  - intros q fresh. apply beforeInsert_connectionId.
  - intros row patch s Hs Hclosed.
    assert (isTerminal s = true) as Ht by (destruct Hclosed; subst; reflexivity).
    destruct (beforeUpdate_terminal patch s Hs Ht) as [Hc _].
    unfold applyPatch; simpl. rewrite Hc. reflexivity.
  - intros Hclosed serverAddress validateId services ctx Hin Hdest Hne Hget Hamount.
    eapply account_closed_payment; try eassumption.
    destruct Hclosed as [-> | ->]; reflexivity.
Qed.

(** An incoming payment that was created and then completed by hand. *)
Definition created : IncomingPayment :=
  {| id := "2ad0a4c7-2e0e-4d9c-a5ea-5e0f4b0a3c11"; walletAddressId := "wa";
     state := Pending; expiresAt := 86400000; connectionId := None;
     processAt := None; incomingAmountValue := Some 56;
     receivedAmountValue := None |}.

Definition completePatch : Patch :=
  {| patch_state := Some Completed; patch_processAt := None;
     patch_connectionId := None; patch_expiresAt := None;
     patch_incomingAmountValue := None |}.

Definition completedTable : gmap string IncomingPayment :=
  patchById (insert ∅ created "c7b1f5a0-9d57-4a43-8a40-6f0f1f6f2b9e")
    (id created) completePatch.

Definition completed : IncomingPayment :=
  {| id := id created; walletAddressId := "wa";
     state := Completed; expiresAt := 86400000; connectionId := None;
     processAt := None; incomingAmountValue := Some 56;
     receivedAmountValue := None |}.

Definition someServices : Services :=
  {| incomingPayments_get := fun i => completedTable !! i;
     walletAddresses_get := fun _ => None;
     peers_getByDestinationAddress := fun _ => None;
     accounting_createLiquidityAccount := fun _ _ => Created |}.

Definition somePrepare : ILPContext :=
  {| incomingAccount := Some {| peer_id := "peer"; staticIlpAddress := "test.peer" |};
     streamDestination := Some (id created);
     prepare_amount := "100";
     prepare_destination := "test.rafiki.abc" |}.

Lemma completedTable_reachable : reachable completedTable.
Proof.
  unfold completedTable.
  apply (reachable_step (insert ∅ created "c7b1f5a0-9d57-4a43-8a40-6f0f1f6f2b9e")).
  - apply (reachable_step ∅); [apply reachable_empty|].
    apply (step_insert ∅ created); reflexivity.
  - apply (step_patch _ (id created) completePatch); reflexivity.
Defined.

Lemma connectionId_iff_open_and_closed_unreachable_witness :
  (connectionId completed <> None
   <-> (state completed = Pending \/ state completed = Processing))
  /\ account "test.rafiki" (fun _ => true) someServices somePrepare
     = inr (UnreachableError "destination account is disabled").
Proof.
  destruct (connectionId_iff_open_and_closed_unreachable
              completedTable (id created) completed
              completedTable_reachable) as (Hiff & _ & _ & Hreject).
  - vm_compute. reflexivity.
  - split; [exact Hiff|].
    apply Hreject.
    + left. reflexivity.
    + discriminate.
    + reflexivity.
    + discriminate.
    + vm_compute. reflexivity.
    + discriminate.
Defined.

(** C9. For an incoming payment whose stored row is [Completed] or
    [Expired], [onCredit] writes nothing and returns the payment it was
    called on as it is: both of its patch queries exclude rows in these
    two states, so a late credit neither moves the row back to
    [Processing] nor completes it again. *)
Theorem onCredit_closed_unchanged
    (db : gmap string IncomingPayment) (this row : IncomingPayment)
    (totalReceived now : Z) :
  db !! id this = Some row ->
  state row = Completed \/ state row = Expired ->
  onCredit this totalReceived now db = (this, db)
  /\ (forall patch : Patch,
        patchAndFetchById_whereNotIn db (id this) patch [Expired; Completed]
        = (None, db)).
Proof.
  intros Hrow Hclosed.
  assert (isTerminal (state row) = true) as Ht
    by (destruct Hclosed as [-> | ->]; reflexivity).
  split.
  - unfold onCredit.
    destruct (match incomingAmount this with Some v => v <=? totalReceived | None => false end);
      rewrite (patch_excluding_closed db (id this) _ row Hrow Ht); reflexivity.
  - intros patch. apply (patch_excluding_closed db (id this) patch row Hrow Ht).
Qed.

Lemma onCredit_closed_unchanged_witness :
  onCredit completed 56 1000 completedTable = (completed, completedTable).
Proof.
  apply (onCredit_closed_unchanged completedTable completed completed 56 1000).
  - vm_compute. reflexivity.
  - left. reflexivity.
Defined.

End IncomingPaymentProps.

(** ** Wallet addresses *)

Module WalletAddressProps.
Import WalletAddresses.

(** The credit takes the received total over the withdrawal threshold,
    counted from what earlier events already covered. *)
Definition crossesThreshold (this row : WalletAddress) (opts : OnCreditOptions)
    : Prop :=
  exists threshold,
    withdrawalThreshold (asset this) = Some threshold
    /\ totalEventsAmount row <= totalReceived opts - threshold.

Lemma not_crossesThreshold (this row : WalletAddress) (opts : OnCreditOptions)
    (threshold : Z) :
  ~ crossesThreshold this row opts ->
  withdrawalThreshold (asset this) = Some threshold ->
  (totalEventsAmount row <=? totalReceived opts - threshold) = false.
Proof.
  intros Hno Hth. apply Z.leb_gt.
  destruct (Z_lt_le_dec (totalReceived opts - threshold) (totalEventsAmount row))
    as [Hlt|Hle]; [exact Hlt|].
  exfalso. apply Hno. exists threshold. split; assumption.
Qed.


Definition usd : Asset :=
  {| asset_code := "USD"; asset_scale := 2; withdrawalThreshold := Some 10 |}.

Definition alice : WalletAddress :=
  {| id := "alice"; url := "https://wallet.example/alice"; asset := usd;
     totalEventsAmount := 100; processAt := None; deactivatedAt := None |}.

Definition aliceScheduled : WalletAddress := set_processAt alice (Some 5000).

Definition credit (total : Z) : OnCreditOptions :=
  {| totalReceived := total; withdrawalThrottleDelay := Some 60000 |}.

Lemma crossesThreshold_alice_110 : crossesThreshold alice alice (credit 110).
Proof. exists 10. split; [reflexivity|]. vm_compute. discriminate. Defined.

Lemma not_crossesThreshold_105 (this : WalletAddress) :
  asset this = usd -> totalEventsAmount this = 100 ->
  ~ crossesThreshold this this (credit 105).
Proof.
  intros Ha Ht (threshold & Hth & Hle).
  rewrite Ha in Hth. injection Hth as <-. rewrite Ht in Hle.
  vm_compute in Hle. apply Hle. reflexivity.
Defined.


End WalletAddressProps.

(** ** The receiver service *)

Module ReceiverProps.
Import Receivers.

(** The options under which the grant for reading incoming payments of
    an authorization server is cached. *)
Definition readAllOptions (authServerUrl : string) : GrantOptions :=
  {| authServer := authServerUrl;
     accessType := AccessIncomingPayment;
     accessActions := [ReadAll] |}.

Lemma grantMatches_authServer (o : GrantOptions) (g : Grant) :
  grantMatches o g = true -> grant_authServer g = Some (authServer o).
Proof.
  unfold grantMatches. intros H.
  apply andb_prop in H as [H _]. apply andb_prop in H as [H _].
  apply bool_decide_eq_true_1 in H. exact H.
Qed.

(** An expired grant whose token cannot be rotated: the lookup of the
    grant gives nothing, touches no stored grant, and its only calls are
    the wallet address lookup and the rotation. *)
Lemma getIncomingPaymentGrant_rotation_fails
    (deps : ServiceDependencies) (now : Z) (walletAddressUrl : string)
    (walletAddress : RemoteWalletAddress) (g : Grant) (e : Thrown) (w : World) :
  client_walletAddress_get deps walletAddressUrl = inl (Some walletAddress) ->
  List.find (grantMatches (readAllOptions (wa_authServer walletAddress))) (grants w)
  = Some g ->
  expired now g = true ->
  client_token_rotate deps (getManagementUrl g (wa_authServer walletAddress))
    (grant_accessToken g) = inr e ->
  getIncomingPaymentGrant deps now walletAddressUrl w
  = (inl None,
     {| grants := grants w;
        calls := Call_token_rotate (getManagementUrl g (wa_authServer walletAddress))
                   (grant_accessToken g)
                 :: Call_walletAddress_get walletAddressUrl :: calls w |}).
Proof.
  intros Hwa Hfind Hexp Hrot.
  pose proof (grantMatches_authServer _ _ (proj2 (find_some _ _ Hfind))) as Hauth.
  simpl in Hauth.
  unfold getIncomingPaymentGrant, bind, call, grantService_get, try_catch, ret.
  rewrite Hwa. simpl. fold (readAllOptions (wa_authServer walletAddress)).
  rewrite Hfind, Hexp, Hauth.
  unfold getManagementUrl in *. rewrite Hrot. reflexivity.
Qed.

(** C8, as the code has it. When the grant stored for (authServer,
    incoming-payment, read-all) is expired and rotating its token through
    the management URL fails, [get(url)] returns [undefined] and the
    resolver does not request a fresh grant from the authorization
    server: its only calls are the wallet address lookup and the failed
    rotation. The stored grants are left as they were, so the expired
    grant stays in the cache. *)
Theorem get_expired_grant_rotation_fails
    (deps : ServiceDependencies) (now : Z) (url id walletAddressUrl : string)
    (walletAddress : RemoteWalletAddress) (g : Grant) (e : Thrown) (w : World) :
  matchesConnectionUrl url = false ->
  parseIncomingPaymentUrl url = Some (id, walletAddressUrl) ->
  walletAddressService_getByUrl deps walletAddressUrl = None ->
  client_walletAddress_get deps walletAddressUrl = inl (Some walletAddress) ->
  List.find (grantMatches (readAllOptions (wa_authServer walletAddress))) (grants w)
  = Some g ->
  expired now g = true ->
  client_token_rotate deps (getManagementUrl g (wa_authServer walletAddress))
    (grant_accessToken g) = inr e ->
  let '(result, w') := getReceiver deps now url w in
  result = inl None
  /\ grants w' = grants w
  /\ List.find (grantMatches (readAllOptions (wa_authServer walletAddress))) (grants w')
     = Some g
  /\ calls w'
     = Call_token_rotate (getManagementUrl g (wa_authServer walletAddress))
         (grant_accessToken g)
       :: Call_walletAddress_get walletAddressUrl :: calls w
  /\ (forall authServerUrl,
        Call_grant_request authServerUrl ∈ calls w' ->
        Call_grant_request authServerUrl ∈ calls w).
Proof.
  intros Hconn Hparse Hlocal Hwa Hfind Hexp Hrot.
  unfold getReceiver. rewrite Hconn.
  unfold getIncomingPayment. rewrite Hparse, Hlocal.
  unfold bind, try_catch.
  rewrite (getIncomingPaymentGrant_rotation_fails deps now walletAddressUrl
             walletAddress g e w Hwa Hfind Hexp Hrot).
  simpl. repeat split; try assumption.
  intros authServerUrl Hin.
  apply elem_of_cons in Hin as [Hin|Hin]; [discriminate|].
  apply elem_of_cons in Hin as [Hin|Hin]; [discriminate|]. exact Hin.
Qed.

(** A remote incoming payment whose authorization server no longer
    rotates the token of the cached, expired grant. *)
Definition remoteUrl : string :=
  "https://wallet.example/bob/incoming-payments/0c3a8f4e-7d6b-4f0a-9a55-2f1d6c9b7e10".

Definition staleGrant : Grant :=
  {| grant_authServer := Some "https://auth.example";
     grant_accessType := AccessIncomingPayment;
     grant_accessActions := [ReadAll];
     grant_accessToken := "OZB8CDFONP219RP1LT0OS9M2PMHKUR64TB8N6BW7";
     grant_managementUrl :=
       "https://auth.example/token/8f69de01-5bf9-4603-91ed-eeca101081f1";
     grant_expiresAt := Some 1000 |}.

Definition remoteDeps : ServiceDependencies :=
  {| openPaymentsUrl := "https://op.example";
     walletAddressService_getByUrl := fun _ => None;
     incomingPaymentService_get := fun _ _ => None;
     incomingPaymentService_getByConnection := fun _ => None;
     connectionService_get := fun _ => None;
     client_walletAddress_get := fun u =>
       inl (Some {| wa_id := u; wa_authServer := "https://auth.example" |});
     client_token_rotate := fun _ _ => inr (Error "token rotation failed");
     client_grant_request := fun _ =>
       inl (NonPendingGrant {| value := "fresh"; manage := "m"; expires_in := Some 3600 |});
     client_incomingPayment_get := fun u t => inl (RemoteIncomingPayment u t);
     client_ilpStreamConnection_get := fun u => inl u |}.

Definition cache : World := {| grants := [staleGrant]; calls := [] |}.

Lemma get_expired_grant_rotation_fails_witness :
  let '(result, w') := getReceiver remoteDeps 2000 remoteUrl cache in
  result = inl None
  /\ grants w' = [staleGrant]
  /\ List.find (grantMatches (readAllOptions "https://auth.example")) (grants w')
     = Some staleGrant
  /\ calls w'
     = [Call_token_rotate (grant_managementUrl staleGrant)
          (grant_accessToken staleGrant);
        Call_walletAddress_get "https://wallet.example/bob"]
  /\ (forall authServerUrl,
        Call_grant_request authServerUrl ∈ calls w' ->
        Call_grant_request authServerUrl ∈ []).
Proof.
  apply (get_expired_grant_rotation_fails remoteDeps 2000 remoteUrl
           "0c3a8f4e-7d6b-4f0a-9a55-2f1d6c9b7e10" "https://wallet.example/bob"
           {| wa_id := "https://wallet.example/bob";
              wa_authServer := "https://auth.example" |}
           staleGrant (Error "token rotation failed") cache);
    vm_compute; reflexivity.
Defined.

(** The claim at this input: [undefined] is returned, the expired grant
    is gone from the cache, and no fresh grant is requested. The second
    part fails: the grant is still there. *)
Lemma expired_grant_not_evicted :
  ~ (let '(result, w') := getReceiver remoteDeps 2000 remoteUrl cache in
     result = inl None
     /\ List.find (grantMatches (readAllOptions "https://auth.example")) (grants w')
        = None
     /\ (forall authServerUrl, Call_grant_request authServerUrl ∉ calls w')).
Proof.
  vm_compute. intros (_ & Hevicted & _). discriminate Hevicted.
Qed.

End ReceiverProps.

(** ** Quotes *)

Module QuoteProps.
Import Quotes.

(** C7. A quote expires at the earlier of its creation time plus the
    configured lifespan and the expiry of its receiver, when the receiver
    has one: with the incoming payment, if that expires before
    creation + quoteLifespan, and at creation + quoteLifespan otherwise.
    This is the expiry that the test of the quote service expects. *)
Theorem quote_expiry (createdAt quoteLifespan : Z) (receiverExpiresAt : option Z) :
  (forall e, receiverExpiresAt = Some e ->
     quoteExpiresAt createdAt quoteLifespan receiverExpiresAt
     = Z.min (createdAt + quoteLifespan) e
     /\ quoteExpiresAt createdAt quoteLifespan receiverExpiresAt
        = expectedExpiresAt createdAt quoteLifespan e
     /\ (e < createdAt + quoteLifespan ->
         quoteExpiresAt createdAt quoteLifespan receiverExpiresAt = e)
     /\ (createdAt + quoteLifespan <= e ->
         quoteExpiresAt createdAt quoteLifespan receiverExpiresAt
         = createdAt + quoteLifespan))
  /\ (receiverExpiresAt = None ->
      quoteExpiresAt createdAt quoteLifespan receiverExpiresAt
      = createdAt + quoteLifespan).
Proof.
  split.
  - intros e ->. unfold quoteExpiresAt, expectedExpiresAt. cbv zeta.
    repeat split.
    + destruct (Z.gtb_spec (createdAt + quoteLifespan) e); lia.
    + lia.
    + lia.
  - intros ->. reflexivity.
Qed.

(** The two rows of the test, with a lifespan of five minutes: a
    receiver that expires two minutes before, and one that expires two
    minutes after, the longest life of the quote. *)
Lemma quote_expiry_witness :
  quoteExpiresAt 1000 300000 (Some (1000 + 300000 - 120000)) = 181000
  /\ quoteExpiresAt 1000 300000 (Some (1000 + 300000 + 120000)) = 301000
  /\ quoteExpiresAt 1000 300000 None = 301000.
Proof.
  split; [|split].
  - destruct (quote_expiry 1000 300000 (Some (1000 + 300000 - 120000)))
      as [Hsome _].
    destruct (Hsome _ eq_refl) as (_ & _ & Hearlier & _).
    apply Hearlier. reflexivity.
  - destruct (quote_expiry 1000 300000 (Some (1000 + 300000 + 120000)))
      as [Hsome _].
    destruct (Hsome _ eq_refl) as (_ & _ & _ & Hlater).
    apply Hlater. discriminate.
  - destruct (quote_expiry 1000 300000 None) as [_ Hnone].
    apply Hnone. reflexivity.
Defined.

(** The quote of the fixed-delivery rows before fees: 3364 to deliver
    in the same asset, for which the rate probe asks 3365 (row
    'no fees'). *)
Definition estimate3364 : Estimate :=
  {| est_debitAmountValue := 3365; est_receiveAmountValue := 3364;
     est_rate := {| ratio_a := 1; ratio_b := 1 |} |}.




End QuoteProps.

(** ** Outgoing payments *)

Module OutgoingPaymentProps.
Import Quotes OutgoingPayments.

(** *** Funding *)

Lemma applyPatch_state (now : Z) (p : OutgoingPayment) (s : OutgoingPaymentState)
    (err : option (option string)) :
  let p' := applyPatch now p
              {| patch_state := Some s; patch_error := err;
                 patch_stateAttempts := None |} in
  state p' = s /\ stateAttempts p' = 0 /\ id p' = id p /\ quote p' = quote p
  /\ updatedAt p' = now.
Proof. cbv zeta. unfold applyPatch. simpl. auto. Qed.

(** C4. [fund({id, amount, transferId})] moves an outgoing payment from
    [Funding] to [Sending] together with a ledger deposit of the amount
    to the payment's account. It fails with [UnknownPayment] when there is
    no payment with that id, with [WrongState] when the payment is in any
    state but [Funding], and with [InvalidAmount] when the amount is not
    the debit amount of the quote. A call that fails writes nothing: the
    state, and the balance of the account (0 for a payment that was never
    funded), stay as they were. *)
Theorem fund_transition (w : World) (now : Z) (options : FundOptions) :
  (outgoingPayments w !! fund_id options = None ->
     fund w now options = (inr FundingUnknownPayment, w))
  /\ (forall p, outgoingPayments w !! fund_id options = Some p ->
        state p <> Funding ->
        fund w now options = (inr FundingWrongState, w))
  /\ (forall p, outgoingPayments w !! fund_id options = Some p ->
        state p = Funding ->
        fund_amount options <> value (debitAmount p) ->
        fund w now options = (inr FundingInvalidAmount, w))
  /\ (forall p balance,
        outgoingPayments w !! fund_id options = Some p ->
        id p = fund_id options ->
        state p = Funding ->
        fund_amount options = value (debitAmount p) ->
        0 < fund_amount options ->
        fund_transferId options ∉ transfers (ledger w) ->
        getBalance (ledger w) (id p) = Some balance ->
        exists p' w',
          fund w now options = (inl p', w')
          /\ state p' = Sending
          /\ outgoingPayments w' !! fund_id options = Some p'
          /\ getBalance (ledger w') (id p) = Some (balance + fund_amount options)
          /\ fund_transferId options ∈ transfers (ledger w'))
  /\ (forall err, (fund w now options).1 = inr err -> (fund w now options).2 = w).
Proof.
  unfold fund. repeat split.
  - intros ->. reflexivity.
  - intros p -> Hs. rewrite bool_decide_eq_false_2 by assumption. reflexivity.
  - intros p -> Hs Ha. rewrite bool_decide_eq_true_2 by assumption. cbn [negb].
    apply Z.eqb_neq in Ha. rewrite Ha. reflexivity.
  - intros p balance -> Hid Hs Ha Hpos Hfresh Hbal.
    rewrite bool_decide_eq_true_2 by assumption. cbn [negb].
    rewrite (proj2 (Z.eqb_eq _ _) Ha). cbn [negb].
    unfold createDeposit. rewrite bool_decide_eq_false_2 by assumption.
    rewrite (proj2 (Z.leb_gt _ _) Hpos).
    unfold getBalance in Hbal. rewrite Hbal.
    eexists _, _. split; [reflexivity|].
    repeat split.
    + unfold with_ledger, with_payment; simpl. rewrite Hid. apply lookup_insert_eq.
    + unfold getBalance, with_ledger; simpl. apply lookup_insert_eq.
    + unfold with_ledger; simpl. set_solver.
  - intros err.
    destruct (outgoingPayments w !! fund_id options) as [p|]; [|reflexivity].
    destruct (negb (bool_decide (state p = Funding))); [reflexivity|].
    destruct (negb (fund_amount options =? value (debitAmount p))); [reflexivity|].
    destruct (createDeposit _ _ _ _); [discriminate|reflexivity].
Qed.

(** *** Creation *)

(** The checks of a quote that make it invalid for a payment. *)
Definition quoteInvalid (w : World) (now : Z) (walletAddressId : string) (q : Quote)
    : Prop :=
  is_Some (outgoingPayments w !! Quotes.id q)
  \/ Quotes.expiresAt q <= now
  \/ Quotes.walletAddressId q <> walletAddressId
  \/ (exists incomingPayment,
        receivers w !! Quotes.receiver q = Some incomingPayment
        /\ (IncomingPayments.state incomingPayment = IncomingPayments.Completed
            \/ IncomingPayments.state incomingPayment = IncomingPayments.Expired)).

Lemma create_inserts (w w' : World) (now : Z) (options : CreateOutgoingPaymentOptions)
    (p : OutgoingPayment) :
  create w now options = (inl p, w') ->
  outgoingPayments w' !! opt_quoteId options = Some p
  /\ walletAddresses w' = walletAddresses w
  /\ quotes w' = quotes w
  /\ id p = opt_quoteId options
  /\ is_Some (quotes w !! opt_quoteId options).
Proof.
  unfold create.
  destruct (walletAddresses w !! opt_walletAddressId options) as [wa|]; [|discriminate].
  destruct (negb (WalletAddresses.isActive wa now)); [discriminate|].
  destruct (quotes w !! opt_quoteId options) as [q|]; [|discriminate].
  destruct (_ || _); [discriminate|].
  destruct (opt_grant options) as [g|].
  - destruct (validateGrant w now q g); [|discriminate].
    intros [= <- <-]. simpl. rewrite lookup_insert_eq. eauto 10.
  - intros [= <- <-]. simpl. rewrite lookup_insert_eq. eauto 10.
Qed.

(** C6. Creating an outgoing payment is rejected with
    [UnknownWalletAddress] for an unknown wallet address,
    [InactiveWalletAddress] for a deactivated one, [UnknownQuote] when
    there is no quote with the id, and [InvalidQuote] when the quote is
    already consumed, expired, belongs to another wallet address, or its
    receiver is an incoming payment that is [Completed] or [Expired].
    A quote is used at most once: the payment takes the key of its quote
    in [outgoingPayments], and after a creation every further creation
    from the same quote is rejected with [InvalidQuote]. *)
Theorem create_rejections (w : World) (now : Z) (options : CreateOutgoingPaymentOptions) :
  (walletAddresses w !! opt_walletAddressId options = None ->
     create w now options = (inr UnknownWalletAddress, w))
  /\ (forall wa, walletAddresses w !! opt_walletAddressId options = Some wa ->
        WalletAddresses.isActive wa now = false ->
        create w now options = (inr InactiveWalletAddress, w))
  /\ (forall wa, walletAddresses w !! opt_walletAddressId options = Some wa ->
        WalletAddresses.isActive wa now = true ->
        quotes w !! opt_quoteId options = None ->
        create w now options = (inr UnknownQuote, w))
  /\ (forall wa q, walletAddresses w !! opt_walletAddressId options = Some wa ->
        WalletAddresses.isActive wa now = true ->
        quotes w !! opt_quoteId options = Some q ->
        Quotes.id q = opt_quoteId options ->
        quoteInvalid w now (opt_walletAddressId options) q ->
        create w now options = (inr InvalidQuote, w))
  /\ (forall p w' wa now',
        create w now options = (inl p, w') ->
        walletAddresses w !! opt_walletAddressId options = Some wa ->
        WalletAddresses.isActive wa now' = true ->
        id p = opt_quoteId options
        /\ outgoingPayments w' !! opt_quoteId options = Some p
        /\ forall grant,
             create w' now'
               {| opt_walletAddressId := opt_walletAddressId options;
                  opt_quoteId := opt_quoteId options; opt_grant := grant |}
             = (inr InvalidQuote, w')).
Proof.
  splits.
  - unfold create. intros ->. reflexivity.
  - unfold create. intros wa -> ->. reflexivity.
  - unfold create. intros wa -> -> ->. reflexivity.
  - unfold create. intros wa q -> -> -> Hid Hinvalid. simpl.
    assert (bool_decide (is_Some (outgoingPayments w !! opt_quoteId options))
            || (Quotes.expiresAt q <=? now)
            || negb (bool_decide (Quotes.walletAddressId q = opt_walletAddressId options))
            || negb (receiverOpen w q) = true) as ->; [|reflexivity].
    destruct Hinvalid as [H|[H|[H|(ip & Hip & H)]]].
    + rewrite Hid in H. rewrite bool_decide_eq_true_2 by assumption. reflexivity.
    + apply Z.leb_le in H. rewrite H. apply orb_true_iff. left.
      apply orb_true_iff. left. apply orb_true_r.
    + rewrite (bool_decide_eq_false_2 _ H). apply orb_true_iff. left. apply orb_true_r.
    + unfold receiverOpen. rewrite Hip.
      assert (IncomingPayments.isTerminal (IncomingPayments.state ip) = true) as ->
        by (destruct H as [-> | ->]; reflexivity).
      apply orb_true_r.
  - intros p w' wa now' Hcreate Hwa Hactive.
    destruct (create_inserts w w' now options p Hcreate)
      as (Hp & Hwallets & Hquotes & Hid & [q Hquote]).
    splits; [exact Hid|exact Hp|].
    intros grant. unfold create; simpl.
    rewrite Hwallets, Hquotes, Hwa, Hactive, Hquote. simpl.
    rewrite bool_decide_eq_true_2 by (rewrite Hp; eauto). reflexivity.
Qed.

(** *** Grant limits *)

(** The prior payments that count against a grant, and what they add up
    to. *)
Definition priorPayments (w : World) (grant paymentId : string)
    (window : option (Z * Z)) : list OutgoingPayment :=
  List.filter (countsAgainst grant paymentId window)
    (map_to_list (outgoingPayments w)).*2.

Definition sumOf (f : OutgoingPayment -> Z) (l : list OutgoingPayment) : Z :=
  foldr (fun p acc => f p + acc) 0 l.

Definition sentSoFar (w : World) (grant paymentId : string)
    (window : option (Z * Z)) : Z :=
  sumOf (sentContribution (ledger w)) (priorPayments w grant paymentId window).

Definition receivedSoFar (w : World) (grant paymentId : string)
    (window : option (Z * Z)) : Z :=
  sumOf (receivedContribution (ledger w)) (priorPayments w grant paymentId window).

(** The amount of the quote does not fit in what is left of a limit. *)
Definition exceedsLimit (w : World) (q : Quote) (grant : Grant) (lim : Limits)
    (window : option (Z * Z)) : Prop :=
  (exists a, limit_debitAmount lim = Some a
             /\ value a - sentSoFar w (grant_id grant) (Quotes.id q) window
                < debitAmountValue q)
  \/ (exists a, limit_receiveAmount lim = Some a
                /\ value a - receivedSoFar w (grant_id grant) (Quotes.id q) window
                   < receiveAmountValue q).

Lemma fold_addGrantPayment (l : Ledger) (grant paymentId : string)
    (window : option (Z * Z)) (payments : list OutgoingPayment) (amounts : Z * Z) :
  fold_left (addGrantPayment l grant paymentId window) payments amounts
  = (amounts.1 + sumOf (sentContribution l)
                   (List.filter (countsAgainst grant paymentId window) payments),
     amounts.2 + sumOf (receivedContribution l)
                   (List.filter (countsAgainst grant paymentId window) payments)).
Proof.
  revert amounts. induction payments as [|p payments IH]; intros [sent received].
  - simpl. f_equal; lia.
  - simpl. rewrite IH. unfold addGrantPayment.
    destruct (countsAgainst grant paymentId window p); simpl; f_equal; lia.
Qed.

Lemma grantAmounts_sums (w : World) (grant paymentId : string)
    (window : option (Z * Z)) :
  grantAmounts w grant paymentId window
  = (sentSoFar w grant paymentId window, receivedSoFar w grant paymentId window).
Proof.
  unfold grantAmounts. rewrite fold_addGrantPayment. reflexivity.
Qed.

(** The limits of a grant are in the currencies of the quote. *)
Definition limitsInQuoteAssets (lim : Limits) (q : Quote) : Prop :=
  (forall a, limit_debitAmount lim = Some a ->
     assetCode a = asset_code q /\ assetScale a = asset_scale q)
  /\ (forall a, limit_receiveAmount lim = Some a ->
        assetCode a = receiveAmountAssetCode q
        /\ assetScale a = receiveAmountAssetScale q).

Lemma withinLimits_spec (w : World) (q : Quote) (grant : Grant) (lim : Limits)
    (window : option (Z * Z)) :
  limitsInQuoteAssets lim q ->
  withinLimits w q grant lim window = false <-> exceedsLimit w q grant lim window.
Proof.
  intros [Hdebit Hreceive]. unfold withinLimits, exceedsLimit.
  rewrite grantAmounts_sums. simpl.
  assert (match limit_debitAmount lim with
          | Some a => sameAsset a (asset_code q) (asset_scale q)
          | None => true
          end = true) as ->.
  { destruct (limit_debitAmount lim) as [a|]; [|reflexivity].
    destruct (Hdebit a eq_refl) as [Hc Hs]. unfold sameAsset.
    rewrite bool_decide_eq_true_2 by assumption.
    rewrite (proj2 (Z.eqb_eq _ _) Hs). reflexivity. }
  assert (match limit_receiveAmount lim with
          | Some a => sameAsset a (receiveAmountAssetCode q) (receiveAmountAssetScale q)
          | None => true
          end = true) as ->.
  { destruct (limit_receiveAmount lim) as [a|]; [|reflexivity].
    destruct (Hreceive a eq_refl) as [Hc Hs]. unfold sameAsset.
    rewrite bool_decide_eq_true_2 by assumption.
    rewrite (proj2 (Z.eqb_eq _ _) Hs). reflexivity. }
  simpl. rewrite andb_false_iff.
  split.
  - intros [H|H].
    + left. destruct (limit_debitAmount lim) as [a|]; [|discriminate].
      exists a. split; [reflexivity|].
      apply negb_false_iff, Z.ltb_lt in H. exact H.
    + right. destruct (limit_receiveAmount lim) as [a|]; [|discriminate].
      exists a. split; [reflexivity|].
      apply negb_false_iff, Z.ltb_lt in H. exact H.
  - intros [(a & -> & H)|(a & -> & H)]; [left|right];
      apply negb_false_iff, Z.ltb_lt; exact H.
Qed.

(** Everything that creation checks before it looks at the grant. *)
Definition creatable (w : World) (now : Z) (options : CreateOutgoingPaymentOptions)
    (q : Quote) : Prop :=
  (exists wa, walletAddresses w !! opt_walletAddressId options = Some wa
              /\ WalletAddresses.isActive wa now = true)
  /\ quotes w !! opt_quoteId options = Some q
  /\ outgoingPayments w !! opt_quoteId options = None
  /\ now < Quotes.expiresAt q
  /\ Quotes.walletAddressId q = opt_walletAddressId options
  /\ receiverOpen w q = true.

Lemma create_creatable (w : World) (now : Z) (options : CreateOutgoingPaymentOptions)
    (q : Quote) (grant : Grant) :
  creatable w now options q ->
  opt_grant options = Some grant ->
  (validateGrant w now q grant = false ->
     create w now options = (inr InsufficientGrant, w))
  /\ (validateGrant w now q grant = true ->
      exists p w', create w now options = (inl p, w')
                   /\ state p = Funding /\ grantId p = Some (grant_id grant)
                   /\ outgoingPayments w' !! opt_quoteId options = Some p).
Proof.
  intros ((wa & Hwa & Hactive) & Hq & Hfree & Hexp & Hwallet & Hopen) Hgrant.
  unfold create. rewrite Hwa, Hactive, Hq, Hfree, Hopen, Hgrant. simpl.
  rewrite (proj2 (Z.leb_gt _ _) Hexp).
  rewrite bool_decide_eq_true_2 by assumption. simpl.
  split; intros ->; [reflexivity|].
  eexists _, _. split; [reflexivity|]. simpl. rewrite lookup_insert_eq. auto.
Qed.


(** *** The lifecycle worker *)

(** The payment after a retryable error: one more attempt, written at
    [now]. *)
Definition retried (now : Z) (p : OutgoingPayment) : OutgoingPayment :=
  applyPatch now p
    {| patch_state := None; patch_error := None;
       patch_stateAttempts := Some (stateAttempts p + 1) |}.

(** The payment after its failure. *)
Definition failedWith (now : Z) (p : OutgoingPayment) (err : string) : OutgoingPayment :=
  applyPatch now p
    {| patch_state := Some Failed; patch_error := Some (Some err);
       patch_stateAttempts := None |}.

Lemma retried_fields (now : Z) (p : OutgoingPayment) :
  id (retried now p) = id p
  /\ state (retried now p) = state p
  /\ stateAttempts (retried now p) = stateAttempts p + 1
  /\ error (retried now p) = error p
  /\ quote (retried now p) = quote p
  /\ walletAddressId (retried now p) = walletAddressId p
  /\ updatedAt (retried now p) = now.
Proof. unfold retried, applyPatch. simpl. auto 10. Qed.

Lemma failedWith_fields (now : Z) (p : OutgoingPayment) (err : string) :
  id (failedWith now p err) = id p
  /\ state (failedWith now p err) = Failed
  /\ stateAttempts (failedWith now p err) = 0
  /\ error (failedWith now p err) = Some err
  /\ quote (failedWith now p err) = quote p
  /\ walletAddressId (failedWith now p err) = walletAddressId p.
Proof. unfold failedWith, applyPatch. simpl. auto 10. Qed.

(** One step of the worker on a payment in [Sending] whose pay attempt
    ends with an error. *)
Lemma handlePaymentLifecycle_error
    (pay : World -> OutgoingPayment -> PaymentProgress) (w : World) (now : Z)
    (p : OutgoingPayment) (e : PaymentError) :
  state p = Sending ->
  sourceAssetMatches w p = true ->
  pay_error (pay w p) = Some e ->
  let w1 := with_ledger w (send (ledger w) (id p) (amountSent (pay w p))) in
  handlePaymentLifecycle pay w now p
  = if (stateAttempts p + 1 <? MAX_STATE_ATTEMPTS) && canRetryError (PayFailure e)
    then with_payment w1 (retried now p)
    else with_event (with_payment w1 (failedWith now p (paymentErrorName e)))
           {| event_type := PaymentFailed; event_paymentId := id p;
              withdrawal :=
                let balance := default 0 (getBalance (ledger w1) (id p)) in
                if 0 <? balance then Some (id p, balance) else None |}.
Proof.
  intros Hs Hasset He. cbv zeta. unfold handlePaymentLifecycle.
  rewrite bool_decide_eq_true_2 by assumption. rewrite Hasset, He. simpl.
  unfold onLifecycleError. reflexivity.
Qed.

Lemma send_balance (l : Ledger) (account : string) (amount balance : Z) :
  balances l !! account = Some balance ->
  balances (send l account amount) !! account = Some (balance - amount)
  /\ getTotalSent (send l account amount) account = getTotalSent l account + amount.
Proof.
  intros Hb. split.
  - unfold send; simpl. rewrite lookup_insert_eq, Hb. reflexivity.
  - unfold send, getTotalSent; simpl. rewrite lookup_insert_eq. reflexivity.
Qed.

(** The payment is the only row of [outgoingPayments]; its account holds
    [balance] and has sent [sent]; its wallet address still has the asset
    of the quote. *)
Definition alone (w : World) (p : OutgoingPayment) (balance sent : Z) : Prop :=
  outgoingPayments w = {[ id p := p ]}
  /\ balances (ledger w) !! id p = Some balance
  /\ getTotalSent (ledger w) (id p) = sent
  /\ sourceAssetMatches w p = true.

Lemma getPendingPayment_alone (R : Z) (w : World) (now : Z) (p : OutgoingPayment)
    (balance sent : Z) :
  alone w p balance sent ->
  getPendingPayment R w now = if isPending R now p then Some p else None.
Proof.
  intros (Hp & _). unfold getPendingPayment. rewrite Hp.
  rewrite map_to_list_singleton. reflexivity.
Qed.

Lemma alone_lookup (w : World) (p : OutgoingPayment) (balance sent : Z) :
  alone w p balance sent -> outgoingPayments w !! id p = Some p.
Proof. intros (Hp & _). rewrite Hp. apply lookup_singleton_eq. Qed.

Lemma alone_step (w : World) (p p' : OutgoingPayment) (balance sent amount : Z) :
  alone w p balance sent ->
  id p' = id p -> quote p' = quote p -> walletAddressId p' = walletAddressId p ->
  alone (with_payment (with_ledger w (send (ledger w) (id p) amount)) p') p'
    (balance - amount) (sent + amount).
Proof.
  intros (Hp & Hb & Hs & Ha) Hid Hq Hw.
  destruct (send_balance (ledger w) (id p) amount balance Hb) as [Hb' Hs'].
  unfold alone, with_payment, with_ledger; simpl. rewrite Hid, Hp.
  repeat split.
  - apply insert_singleton_eq.
  - exact Hb'.
  - rewrite Hs'. rewrite Hs. reflexivity.
  - unfold sourceAssetMatches in *; simpl. rewrite Hw, Hq. exact Ha.
Qed.

Lemma alone_with_event (w : World) (p : OutgoingPayment) (balance sent : Z)
    (ev : PaymentEvent) :
  alone w p balance sent -> alone (with_event w ev) p balance sent.
Proof. intros H. exact H. Qed.

(** A round of the worker on the only payment, when the mocked pay step
    moved [amount] and ended with a retryable error, and attempts are
    left. *)
Lemma processNext_retry (R : Z) (pay : World -> OutgoingPayment -> PaymentProgress)
    (w : World) (now : Z) (p : OutgoingPayment) (balance sent : Z) (e : PaymentError) :
  alone w p balance sent ->
  isPending R now p = true ->
  pay_error (pay w p) = Some e ->
  canRetryError (PayFailure e) = true ->
  stateAttempts p + 1 < MAX_STATE_ATTEMPTS ->
  exists w',
    processNext R pay w now = (Some (id p), w')
    /\ alone w' (retried now p) (balance - amountSent (pay w p))
         (sent + amountSent (pay w p))
    /\ events w' = events w.
Proof.
  intros Halone Hpending He Hretry Hleft.
  assert (state p = Sending) as Hs.
  { unfold isPending in Hpending. apply andb_prop in Hpending as [H _].
    apply bool_decide_eq_true_1 in H. exact H. }
  unfold processNext.
  rewrite (getPendingPayment_alone R w now p balance sent Halone), Hpending.
  rewrite (handlePaymentLifecycle_error pay w now p e Hs (proj2 (proj2 (proj2 Halone))) He).
  rewrite (proj2 (Z.ltb_lt _ _) Hleft), Hretry. simpl.
  eexists. split; [reflexivity|]. split; [|reflexivity].
  destruct (retried_fields now p) as (Hid & _ & _ & _ & Hq & Hw & _).
  apply alone_step; assumption.
Qed.

(** The round that uses up the attempts. *)
Lemma processNext_fail (R : Z) (pay : World -> OutgoingPayment -> PaymentProgress)
    (w : World) (now : Z) (p : OutgoingPayment) (balance sent : Z) (e : PaymentError) :
  alone w p balance sent ->
  isPending R now p = true ->
  pay_error (pay w p) = Some e ->
  MAX_STATE_ATTEMPTS <= stateAttempts p + 1 ->
  exists w',
    processNext R pay w now = (Some (id p), w')
    /\ alone w' (failedWith now p (paymentErrorName e))
         (balance - amountSent (pay w p)) (sent + amountSent (pay w p))
    /\ events w'
       = {| event_type := PaymentFailed; event_paymentId := id p;
            withdrawal :=
              if 0 <? balance - amountSent (pay w p)
              then Some (id p, balance - amountSent (pay w p)) else None |}
         :: events w.
Proof.
  intros Halone Hpending He Hdone.
  assert (state p = Sending) as Hs.
  { unfold isPending in Hpending. apply andb_prop in Hpending as [H _].
    apply bool_decide_eq_true_1 in H. exact H. }
  unfold processNext.
  rewrite (getPendingPayment_alone R w now p balance sent Halone), Hpending.
  rewrite (handlePaymentLifecycle_error pay w now p e Hs (proj2 (proj2 (proj2 Halone))) He).
  rewrite (proj2 (Z.ltb_ge _ _) Hdone). cbn [andb].
  destruct (send_balance (ledger w) (id p) (amountSent (pay w p)) balance
              (proj1 (proj2 Halone))) as [Hb' _].
  unfold getBalance. cbn [ledger with_ledger]. rewrite Hb'. cbn [default].
  eexists. split; [reflexivity|]. split; [|reflexivity].
  destruct (failedWith_fields now p (paymentErrorName e)) as (Hid & _ & _ & _ & Hq & Hw).
  apply alone_with_event, alone_step; assumption.
Qed.

Lemma isPending_state (R : Z) (now : Z) (p : OutgoingPayment) :
  isPending R now p = true -> state p = Sending.
Proof.
  unfold isPending. intros H. apply andb_prop in H as [H _].
  apply bool_decide_eq_true_1 in H. exact H.
Qed.

(** After a retry at [now] the payment is pending again at the time that
    [fastForwardToAttempt] jumps to. *)
Lemma retried_pending (R : Z) (now : Z) (p : OutgoingPayment) :
  state p = Sending ->
  isPending R (fastForwardToAttempt R now (stateAttempts (retried now p)))
    (retried now p) = true.
Proof.
  intros Hs. unfold isPending, scheduledAt, retryDelay, fastForwardToAttempt.
  destruct (retried_fields now p) as (_ & -> & -> & _ & _ & _ & ->).
  rewrite bool_decide_eq_true_2 by assumption.
  rewrite Z.leb_refl. apply orb_true_r.
Qed.

(** The loop of the test keeps the payment in [Sending], one attempt and
    one mocked transfer further in each round, as long as attempts are
    left. *)
Lemma retryLoop_alone (R : Z) (e : PaymentError) (amount delivered : Z) (n : nat) :
  canRetryError (PayFailure e) = true ->
  forall (w : World) (now : Z) (p : OutgoingPayment) (balance sent : Z),
    alone w p balance sent ->
    isPending R now p = true ->
    stateAttempts p + Z.of_nat n < MAX_STATE_ATTEMPTS ->
    exists w' now' p',
      retryLoop R (mockPay amount delivered (Some e)) (id p) n w now = (w', now')
      /\ alone w' p' (balance - Z.of_nat n * amount) (sent + Z.of_nat n * amount)
      /\ isPending R now' p' = true
      /\ id p' = id p
      /\ stateAttempts p' = stateAttempts p + Z.of_nat n
      /\ quote p' = quote p
      /\ events w' = events w.
Proof.
  intros Hretry. induction n as [|n IH]; intros w now p balance sent Halone Hpending Hleft.
  - exists w, now, p. cbn [retryLoop].
    replace (balance - Z.of_nat 0 * amount) with balance by lia.
    replace (sent + Z.of_nat 0 * amount) with sent by lia.
    splits; try assumption; try reflexivity. lia.
  - destruct (processNext_retry R (mockPay amount delivered (Some e)) w now p
                balance sent e Halone Hpending eq_refl Hretry) as (w1 & Hnext & Halone1 & Hev);
      [lia|].
    destruct (retried_fields now p) as (Hid & Hstate & Hattempts & _ & Hquote & _ & _).
    cbn [retryLoop]. rewrite Hnext. cbn [snd].
    pose proof (alone_lookup w1 (retried now p) _ _ Halone1) as Hlookup.
    rewrite Hid in Hlookup. rewrite Hlookup.
    destruct (IH w1 (fastForwardToAttempt R now (stateAttempts (retried now p)))
                (retried now p) _ _ Halone1) as (w' & now' & p' & Hloop & Halone' & Hpending'
                                                 & Hid' & Hattempts' & Hquote' & Hev').
    + apply retried_pending. apply (isPending_state R now p Hpending).
    + rewrite Hattempts. lia.
    + rewrite Hid in Hloop. exists w', now', p'.
      split; [exact Hloop|]. simpl amountSent in Halone'.
      replace (balance - Z.of_nat (S n) * amount)
        with (balance - amount - Z.of_nat n * amount) by lia.
      replace (sent + Z.of_nat (S n) * amount)
        with (sent + amount + Z.of_nat n * amount) by lia.
      splits; try assumption; try congruence.
      rewrite Hattempts', Hattempts. lia.
Qed.

(** The test 'SENDING (partial payment then retryable Pay error)' on the
    only payment of the table. *)
Lemma partialPaymentThenRetryableError_alone (R : Z) (w : World) (now : Z)
    (p : OutgoingPayment) (balance : Z) :
  alone w p balance 0 ->
  state p = Sending -> stateAttempts p = 0 ->
  exists w' now' p',
    partialPaymentThenRetryableError R (id p) w now = (Some (id p), w')
    /\ alone w' (failedWith now' p' "ClosedByReceiver") (balance - 50) 50
    /\ id p' = id p /\ quote p' = quote p
    /\ events w'
       = {| event_type := PaymentFailed; event_paymentId := id p;
            withdrawal := if 0 <? balance - 50
                          then Some (id p, balance - 50) else None |}
         :: events w.
Proof.
  intros Halone Hs Hattempts.
  destruct (retryLoop_alone R ClosedByReceiver 10 5 4 eq_refl w now p balance 0 Halone)
    as (w4 & now4 & p4 & Hloop & Halone4 & Hpending4 & Hid4 & Hattempts4 & Hquote4 & Hev4).
  { unfold isPending. rewrite bool_decide_eq_true_2 by assumption.
    rewrite Hattempts. reflexivity. }
  { rewrite Hattempts. reflexivity. }
  destruct (processNext_fail R (mockPay 10 5 (Some ClosedByReceiver)) w4 now4 p4 _ _
              ClosedByReceiver Halone4 Hpending4 eq_refl)
    as (w' & Hnext & Halone' & Hev').
  { rewrite Hattempts4, Hattempts. discriminate. }
  unfold partialPaymentThenRetryableError. rewrite Hloop.
  rewrite <- Hid4. rewrite Hnext.
  exists w', now4, p4. simpl amountSent in *.
  replace (balance - Z.of_nat 4 * 10 - 10) with (balance - 50) in * by lia.
  replace (0 + Z.of_nat 4 * 10 + 10) with 50 in * by lia.
  splits; try assumption; try reflexivity.
  rewrite Hev', Hev4. reflexivity.
Qed.

Lemma two_pow_ne_3 (k : nat) : 2 ^ Z.of_nat k <> 3.
Proof.
  destruct k as [|[|k]]; [discriminate|discriminate|].
  rewrite !Nat2Z.inj_succ, !Z.pow_succ_r by lia.
  pose proof (Z.pow_pos_nonneg 2 (Z.of_nat k)). lia.
Qed.


(** The world of the test: a payment of 123, funded, nothing sent yet. *)
Definition usd9 : WalletAddresses.Asset :=
  {| WalletAddresses.asset_code := "USD"; WalletAddresses.asset_scale := 9;
     WalletAddresses.withdrawalThreshold := None |}.

Definition payer : WalletAddresses.WalletAddress :=
  {| WalletAddresses.id := "payer"; WalletAddresses.url := "https://wallet.example/payer";
     WalletAddresses.asset := usd9; WalletAddresses.totalEventsAmount := 0;
     WalletAddresses.processAt := None; WalletAddresses.deactivatedAt := None |}.

Definition quote123 : Quote :=
  {| Quotes.id := "quote-123"; Quotes.walletAddressId := "payer";
     Quotes.asset_code := "USD"; Quotes.asset_scale := 9;
     Quotes.receiver := "https://wallet.example/payee/incoming-payments/1";
     debitAmountValue := 123; receiveAmountValue := 61;
     receiveAmountAssetCode := "XRP"; receiveAmountAssetScale := 9;
     Quotes.expiresAt := 300000; Quotes.createdAt := 0 |}.

Definition sending123 : OutgoingPayment :=
  {| id := "quote-123"; walletAddressId := "payer"; quote := quote123;
     state := Sending; error := None; stateAttempts := 0; grantId := None;
     createdAt := 0; updatedAt := 0 |}.

Definition funded123 : World :=
  {| walletAddresses := {[ "payer" := payer ]};
     quotes := {[ "quote-123" := quote123 ]};
     receivers := ∅;
     outgoingPayments := {[ "quote-123" := sending123 ]};
     outgoingPaymentGrants := ∅;
     ledger := {| balances := {[ "quote-123" := 123 ]}; totalsSent := ∅;
                  transfers := {[ "deposit" ]} |};
     events := [] |}.

Lemma funded123_alone : alone funded123 sending123 123 0.
Proof. unfold alone. splits; reflexivity. Defined.



(** *** A grant of 200 USD a month and payments of 190 *)

Definition usd2 : WalletAddresses.Asset :=
  {| WalletAddresses.asset_code := "USD"; WalletAddresses.asset_scale := 2;
     WalletAddresses.withdrawalThreshold := None |}.

Definition sender : WalletAddresses.WalletAddress :=
  {| WalletAddresses.id := "sender"; WalletAddresses.url := "https://wallet.example/sender";
     WalletAddresses.asset := usd2; WalletAddresses.totalEventsAmount := 0;
     WalletAddresses.processAt := None; WalletAddresses.deactivatedAt := None |}.

Definition deactivated : WalletAddresses.WalletAddress :=
  {| WalletAddresses.id := "deactivated";
     WalletAddresses.url := "https://wallet.example/deactivated";
     WalletAddresses.asset := usd2; WalletAddresses.totalEventsAmount := 0;
     WalletAddresses.processAt := None; WalletAddresses.deactivatedAt := Some 500 |}.

Definition quote190 (quoteId receiverUrl : string) : Quote :=
  {| Quotes.id := quoteId; Quotes.walletAddressId := "sender";
     Quotes.asset_code := "USD"; Quotes.asset_scale := 2;
     Quotes.receiver := receiverUrl;
     debitAmountValue := 190; receiveAmountValue := 190;
     receiveAmountAssetCode := "USD"; receiveAmountAssetScale := 2;
     Quotes.expiresAt := 300000; Quotes.createdAt := 0 |}.

Definition incoming (s : IncomingPayments.IncomingPaymentState)
    : IncomingPayments.IncomingPayment :=
  {| IncomingPayments.id := "incoming"; IncomingPayments.walletAddressId := "payee";
     IncomingPayments.state := s; IncomingPayments.expiresAt := 86400000;
     IncomingPayments.connectionId := None; IncomingPayments.processAt := None;
     IncomingPayments.incomingAmountValue := None;
     IncomingPayments.receivedAmountValue := None |}.

Definition start : World :=
  {| walletAddresses := {[ "sender" := sender; "deactivated" := deactivated ]};
     quotes := {[ "quote-1" := quote190 "quote-1" "https://payee/open";
                  "quote-2" := quote190 "quote-2" "https://payee/open";
                  "quote-3" := quote190 "quote-3" "https://payee/done" ]};
     receivers := {[ "https://payee/open" := incoming IncomingPayments.Pending;
                     "https://payee/done" := incoming IncomingPayments.Completed ]};
     outgoingPayments := ∅;
     outgoingPaymentGrants := ∅;
     ledger := {| balances := ∅; totalsSent := ∅; transfers := ∅ |};
     events := [] |}.

Definition limit200 : Amount :=
  {| value := 200; assetCode := "USD"; assetScale := 2 |}.

Definition monthly : Limits :=
  {| limit_receiver := None; limit_debitAmount := Some limit200;
     limit_receiveAmount := None;
     limit_interval := Some [(0, 2592000000)] |}.

Definition grant200 : Grant := {| grant_id := "grant"; limits := Some monthly |}.

Definition optionsFor (walletAddressId quoteId : string) (grant : option Grant)
    : CreateOutgoingPaymentOptions :=
  {| opt_walletAddressId := walletAddressId; opt_quoteId := quoteId;
     opt_grant := grant |}.

(** The tables after the first payment of 190 under the grant. *)
Definition afterFirst : World :=
  (create start 1000 (optionsFor "sender" "quote-1" (Some grant200))).2.

Definition firstPayment : OutgoingPayment :=
  {| id := "quote-1"; walletAddressId := "sender";
     quote := quote190 "quote-1" "https://payee/open";
     state := Funding; error := None; stateAttempts := 0;
     grantId := Some "grant"; createdAt := 1000; updatedAt := 1000 |}.

Lemma monthly_in_quote_assets (quoteId receiverUrl : string) :
  limitsInQuoteAssets monthly (quote190 quoteId receiverUrl).
Proof.
  split; intros a H; [|discriminate H].
  injection H as <-. split; reflexivity.
Defined.

Lemma creatable_second :
  creatable afterFirst 2000 (optionsFor "sender" "quote-2" (Some grant200))
    (quote190 "quote-2" "https://payee/open").
Proof.
  unfold creatable. splits; try (vm_compute; reflexivity).
  exists sender. split; vm_compute; reflexivity.
Defined.

Lemma second_exceeds :
  exceedsLimit afterFirst (quote190 "quote-2" "https://payee/open") grant200 monthly
    (Some (0, 2592000000)).
Proof.
  left. exists limit200. split; [reflexivity|]. vm_compute. reflexivity.
Defined.

Lemma creatable_first :
  creatable start 1000 (optionsFor "sender" "quote-1" (Some grant200))
    (quote190 "quote-1" "https://payee/open").
Proof.
  unfold creatable. splits; try (vm_compute; reflexivity).
  exists sender. split; vm_compute; reflexivity.
Defined.

Lemma first_fits :
  ~ exceedsLimit start (quote190 "quote-1" "https://payee/open") grant200 monthly
      (Some (0, 2592000000)).
Proof.
  intros [(a & Ha & Hlt)|(a & Ha & _)]; [|discriminate Ha].
  injection Ha as <-. vm_compute in Hlt. discriminate Hlt.
Defined.


(** The first payment failed after it had sent [sent] of its 190. *)
Definition afterFirstFailed (sent : Z) : World :=
  with_ledger
    (with_payment afterFirst (failedWith 1500 firstPayment "ClosedByReceiver"))
    (send (ledger afterFirst) "quote-1" sent).

(** A failed payment counts for what it sent, not for what it quoted:
    after 188 sent there is no room for 190 more under a limit of 200,
    after 5 sent there is. *)
Example failed_payment_counts_what_it_sent :
  create (afterFirstFailed 188) 2000 (optionsFor "sender" "quote-2" (Some grant200))
  = (inr InsufficientGrant, afterFirstFailed 188)
  /\ (create (afterFirstFailed 5) 2000
        (optionsFor "sender" "quote-2" (Some grant200))).1
     = inl {| id := "quote-2"; walletAddressId := "sender";
              quote := quote190 "quote-2" "https://payee/open";
              state := Funding; error := None; stateAttempts := 0;
              grantId := Some "grant"; createdAt := 2000; updatedAt := 2000 |}.
Proof. split; vm_compute; reflexivity. Qed.

Lemma create_rejections_witness :
  create start 1000 (optionsFor "nobody" "quote-1" None)
  = (inr UnknownWalletAddress, start)
  /\ create start 1000 (optionsFor "deactivated" "quote-1" None)
     = (inr InactiveWalletAddress, start)
  /\ create start 1000 (optionsFor "sender" "quote-0" None)
     = (inr UnknownQuote, start)
  /\ create start 1000 (optionsFor "sender" "quote-3" None)
     = (inr InvalidQuote, start)
  /\ create afterFirst 2000 (optionsFor "sender" "quote-1" None)
     = (inr InvalidQuote, afterFirst).
Proof.
  splits.
  - apply (create_rejections start 1000 (optionsFor "nobody" "quote-1" None)).
    vm_compute. reflexivity.
  - apply (create_rejections start 1000 (optionsFor "deactivated" "quote-1" None))
      with (wa := deactivated); vm_compute; reflexivity.
  - apply (create_rejections start 1000 (optionsFor "sender" "quote-0" None))
      with (wa := sender); vm_compute; reflexivity.
  - apply (create_rejections start 1000 (optionsFor "sender" "quote-3" None))
      with (wa := sender) (q := quote190 "quote-3" "https://payee/done");
      try (vm_compute; reflexivity).
    right. right. right. exists (incoming IncomingPayments.Completed).
    split; [vm_compute; reflexivity|left; reflexivity].
  - destruct (create_rejections start 1000
                (optionsFor "sender" "quote-1" (Some grant200)))
      as (_ & _ & _ & _ & Honce).
    destruct (Honce firstPayment afterFirst sender 2000) as (_ & _ & Hagain);
      [vm_compute; reflexivity..|].
    exact (Hagain None).
Defined.

Definition fundWith (paymentId : string) (amount : Z) (transferId : string)
    : FundOptions :=
  {| fund_id := paymentId; fund_amount := amount; fund_transferId := transferId |}.

(** The tables after the first payment was funded. *)
Definition afterFunding : World :=
  (fund afterFirst 3000 (fundWith "quote-1" 190 "transfer-1")).2.

Definition firstPaymentSending : OutgoingPayment :=
  {| id := "quote-1"; walletAddressId := "sender";
     quote := quote190 "quote-1" "https://payee/open";
     state := Sending; error := None; stateAttempts := 0;
     grantId := Some "grant"; createdAt := 1000; updatedAt := 3000 |}.

Lemma fund_transition_witness :
  (exists p' w',
     fund afterFirst 3000 (fundWith "quote-1" 190 "transfer-1") = (inl p', w')
     /\ state p' = Sending
     /\ outgoingPayments w' !! "quote-1" = Some p'
     /\ getBalance (ledger w') "quote-1" = Some (0 + 190)
     /\ "transfer-1" ∈ transfers (ledger w'))
  /\ fund afterFirst 3000 (fundWith "quote-9" 190 "transfer-1")
     = (inr FundingUnknownPayment, afterFirst)
  /\ fund afterFirst 3000 (fundWith "quote-1" 189 "transfer-1")
     = (inr FundingInvalidAmount, afterFirst)
  /\ fund afterFunding 4000 (fundWith "quote-1" 190 "transfer-2")
     = (inr FundingWrongState, afterFunding).
Proof.
  splits.
  - destruct (fund_transition afterFirst 3000 (fundWith "quote-1" 190 "transfer-1"))
      as (_ & _ & _ & Hfunds & _).
    apply (Hfunds firstPayment 0); try (vm_compute; reflexivity).
    vm_compute. set_solver.
  - destruct (fund_transition afterFirst 3000 (fundWith "quote-9" 190 "transfer-1"))
      as (Hunknown & _).
    apply Hunknown. vm_compute. reflexivity.
  - destruct (fund_transition afterFirst 3000 (fundWith "quote-1" 189 "transfer-1"))
      as (_ & _ & Hamount & _).
    apply (Hamount firstPayment); [vm_compute; reflexivity|reflexivity|discriminate].
  - destruct (fund_transition afterFunding 4000 (fundWith "quote-1" 190 "transfer-2"))
      as (_ & Hstate & _).
    apply (Hstate firstPaymentSending); [vm_compute; reflexivity|discriminate].
Defined.

End OutgoingPaymentProps.

(** ** JavaScript strings *)

Module JsStringProps.
Import JsStrings.

Lemma append_cons (c : Ascii.ascii) (a b : string) :
  String c a ++ b = String c (a ++ b).
Proof. reflexivity. Qed.

Lemma length_append (a b : string) :
  String.length (a ++ b) = (String.length a + String.length b)%nat.
Proof.
  induction a as [|c a IH]; [reflexivity|].
  rewrite append_cons. simpl. rewrite IH. reflexivity.
Qed.

Lemma append_assoc (a b c : string) : (a ++ b) ++ c = a ++ (b ++ c).
Proof.
  induction a as [|x a IH]; [reflexivity|].
  rewrite !append_cons, IH. reflexivity.
Qed.

Lemma substring_all (s : string) : String.substring 0 (String.length s) s = s.
Proof. induction s as [|c s IH]; simpl; [reflexivity|]. rewrite IH. reflexivity. Qed.

Lemma substring_append_left (a b : string) :
  String.substring 0 (String.length a) (a ++ b) = a.
Proof.
  induction a as [|c a IH].
  - destruct b; reflexivity.
  - rewrite append_cons. simpl. rewrite IH. reflexivity.
Qed.

Lemma substring_append_right (a b : string) (n m : nat) :
  String.substring (String.length a + n) m (a ++ b) = String.substring n m b.
Proof.
  induction a as [|c a IH]; [reflexivity|].
  rewrite append_cons. simpl. exact IH.
Qed.

Lemma substring_append_from (a b : string) (m : nat) :
  String.substring (String.length a) m (a ++ b) = String.substring 0 m b.
Proof.
  rewrite <- (substring_append_right a b 0 m). f_equal. lia.
Qed.

Lemma substring_add (s : string) (n a b : nat) :
  (n + a <= String.length s)%nat ->
  String.substring n (a + b) s
  = String.substring n a s ++ String.substring (n + a) b s.
Proof.
  revert n a. induction s as [|c s IH]; intros n a Hle; simpl in Hle.
  - assert (n = 0%nat) as -> by lia. assert (a = 0%nat) as -> by lia.
    simpl. destruct b; reflexivity.
  - destruct n as [|n]; simpl.
    + destruct a as [|a]; simpl.
      * reflexivity.
      * rewrite (IH 0%nat a) by lia. reflexivity.
    + apply IH. lia.
Qed.

Lemma substring_length (s : string) (n m : nat) :
  (n + m <= String.length s)%nat -> String.length (String.substring n m s) = m.
Proof.
  revert n m. induction s as [|c s IH]; intros n m Hle; simpl in Hle.
  - assert (n = 0%nat) as -> by lia. assert (m = 0%nat) as -> by lia. reflexivity.
  - destruct n as [|n]; simpl.
    + destruct m as [|m]; simpl; [reflexivity|]. rewrite IH by lia. reflexivity.
    + apply IH. lia.
Qed.

Lemma lastChars_append (a b : string) :
  lastChars (String.length b) (a ++ b) = b.
Proof.
  unfold lastChars. rewrite length_append.
  replace (String.length a + String.length b - String.length b)%nat
    with (String.length a + 0)%nat by lia.
  rewrite substring_append_right. apply substring_all.
Qed.

Lemma startsWith_append (a b : string) : startsWith a (a ++ b) = true.
Proof.
  unfold startsWith. apply bool_decide_eq_true_2. apply substring_append_left.
Qed.

Lemma length_nonempty (s : string) : s <> "" <-> (1 <= String.length s)%nat.
Proof.
  destruct s; simpl; split; intros H; try lia; try congruence.
Qed.

End JsStringProps.

(** ** The URLs of the receiver service *)

Module ReceiverUrlProps.
Import JsStrings JsStringProps Receivers.

(** A URL that parses is a wallet address URL, the path, and an id. *)
Lemma parseIncomingPaymentUrl_sound (url id walletAddressUrl : string) :
  parseIncomingPaymentUrl url = Some (id, walletAddressUrl) ->
  url = walletAddressUrl ++ "/incoming-payments/" ++ id
  /\ String.length id = 36%nat /\ walletAddressUrl <> ""
  /\ allDots walletAddressUrl = true /\ allDots id = true.
Proof.
  unfold parseIncomingPaymentUrl, lastChars.
  set (n := String.length url).
  destruct (56 <=? n)%nat eqn:Hn; [|discriminate].
  apply Nat.leb_le in Hn.
  case_bool_decide as Hsep; [|discriminate].
  destruct (allDots (String.substring 0 (n - 55) url)) eqn:Hw; [|discriminate].
  destruct (allDots (String.substring (n - 36) 36 url)) eqn:Hid; [|discriminate].
  simpl. intros [= <- <-]. splits.
  - rewrite <- Hsep.
    rewrite <- (substring_all url) at 1. fold n.
    replace n with ((n - 55) + (19 + 36))%nat at 1 by lia.
    rewrite (substring_add url 0 (n - 55) (19 + 36)) by (fold n; lia).
    rewrite (substring_add url (0 + (n - 55)) 19 36) by (fold n; lia).
    replace (0 + (n - 55) + 19)%nat with (n - 36)%nat by lia.
    reflexivity.
  - apply substring_length. fold n. lia.
  - apply length_nonempty. rewrite substring_length by (fold n; lia). lia.
  - exact Hw.
  - exact Hid.
Qed.

(** And every such URL parses, into just these parts. *)
Lemma parseIncomingPaymentUrl_complete (id walletAddressUrl : string) :
  String.length id = 36%nat -> walletAddressUrl <> "" ->
  allDots walletAddressUrl = true -> allDots id = true ->
  parseIncomingPaymentUrl (walletAddressUrl ++ "/incoming-payments/" ++ id)
  = Some (id, walletAddressUrl).
Proof.
  intros Hlen Hne Hw Hid. apply length_nonempty in Hne.
  unfold parseIncomingPaymentUrl.
  assert (String.length (walletAddressUrl ++ "/incoming-payments/" ++ id)
          = (String.length walletAddressUrl + 55)%nat) as Hn.
  { rewrite !length_append, Hlen. reflexivity. }
  rewrite Hn.
  replace (String.length walletAddressUrl + 55 - 55)%nat
    with (String.length walletAddressUrl) by lia.
  rewrite substring_append_left.
  rewrite substring_append_from.
  replace (String.substring 0 19 ("/incoming-payments/" ++ id))
    with "/incoming-payments/" by (destruct id; reflexivity).
  pose proof (lastChars_append (walletAddressUrl ++ "/incoming-payments/") id)
    as Hlast.
  rewrite Hlen, append_assoc in Hlast.
  rewrite Hlast, Hw, Hid.
  rewrite bool_decide_eq_true_2 by reflexivity.
  replace (56 <=? String.length walletAddressUrl + 55)%nat with true
    by (symmetry; apply Nat.leb_le; lia).
  reflexivity.
Qed.

(** The pattern of connection URLs does not match an incoming payment
    URL: the thirteen characters before the id differ. *)
Lemma incoming_payment_url_not_connection (id walletAddressUrl : string) :
  String.length id = 36%nat ->
  matchesConnectionUrl (walletAddressUrl ++ "/incoming-payments/" ++ id) = false.
Proof.
  intros Hlen. unfold matchesConnectionUrl.
  rewrite !length_append, Hlen.
  replace (String.length walletAddressUrl
           + (String.length "/incoming-payments/" + 36) - 49)%nat
    with (String.length walletAddressUrl + 6)%nat by (simpl; lia).
  rewrite substring_append_right.
  replace (String.substring 6 13 ("/incoming-payments/" ++ id))
    with "ing-payments/" by (destruct id; reflexivity).
  rewrite (bool_decide_eq_false_2 ("ing-payments/" = "/connections/")) by discriminate.
  rewrite andb_false_r. reflexivity.
Qed.

End ReceiverUrlProps.

(** ** Looking receivers up *)

Module ReceiverLookupProps.
Import JsStrings JsStringProps Receivers ReceiverUrlProps.

(** X1. [parseIncomingPaymentUrl] accepts exactly the URLs made of a
    non-empty wallet address URL, ["/incoming-payments/"] and an id of
    36 characters, none of them a line terminator, and returns just
    these two parts. *)
Theorem parseIncomingPaymentUrl_spec (url id walletAddressUrl : string) :
  parseIncomingPaymentUrl url = Some (id, walletAddressUrl)
  <-> (url = walletAddressUrl ++ "/incoming-payments/" ++ id
       /\ String.length id = 36%nat /\ walletAddressUrl <> ""
       /\ allDots walletAddressUrl = true /\ allDots id = true).
Proof.
  split.
  - apply parseIncomingPaymentUrl_sound.
  - intros (-> & Hlen & Hne & Hw & Hid).
    apply parseIncomingPaymentUrl_complete; assumption.
Qed.

(** X2. The URL that [IncomingPayment.getUrl] gives for a payment parses
    back into the id of the payment and the URL of the wallet address,
    when the id has 36 characters, the wallet address URL is not empty
    and neither holds a line terminator. Such a URL does not match the
    pattern of connection URLs. *)
Theorem parseIncomingPaymentUrl_getUrl
    (p : IncomingPayments.IncomingPayment) (w : WalletAddresses.WalletAddress) :
  String.length (IncomingPayments.id p) = 36%nat ->
  allDots (IncomingPayments.id p) = true ->
  WalletAddresses.url w <> "" ->
  allDots (WalletAddresses.url w) = true ->
  parseIncomingPaymentUrl (IncomingPaymentModel.getUrl p w)
  = Some (IncomingPayments.id p, WalletAddresses.url w)
  /\ matchesConnectionUrl (IncomingPaymentModel.getUrl p w) = false.
Proof.
  intros Hlen Hid Hne Hw.
  assert (IncomingPaymentModel.getUrl p w
          = WalletAddresses.url w ++ "/incoming-payments/" ++ IncomingPayments.id p)
    as ->.
  { unfold IncomingPaymentModel.getUrl, IncomingPaymentModel.urlPath.
    rewrite <- (append_assoc "/incoming-payments" "/"). reflexivity. }
  split.
  - apply parseIncomingPaymentUrl_complete; assumption.
  - apply incoming_payment_url_not_connection. exact Hlen.
Qed.

(** A payment of a wallet address that this instance serves. *)
Definition bob : WalletAddresses.WalletAddress :=
  {| WalletAddresses.id := "bob"; WalletAddresses.url := "https://wallet.example/bob";
     WalletAddresses.asset :=
       {| WalletAddresses.asset_code := "USD"; WalletAddresses.asset_scale := 2;
          WalletAddresses.withdrawalThreshold := None |};
     WalletAddresses.totalEventsAmount := 0; WalletAddresses.processAt := None;
     WalletAddresses.deactivatedAt := None |}.

Definition invoice : IncomingPayments.IncomingPayment :=
  {| IncomingPayments.id := "7f2c3a5e-90b1-4c8e-8d3a-1b2c3d4e5f60";
     IncomingPayments.walletAddressId := "bob";
     IncomingPayments.state := IncomingPayments.Pending;
     IncomingPayments.expiresAt := 86400000;
     IncomingPayments.connectionId := Some "0a1b2c3d-4e5f-4a6b-8c7d-9e0f1a2b3c4d";
     IncomingPayments.processAt := None;
     IncomingPayments.incomingAmountValue := Some 500;
     IncomingPayments.receivedAmountValue := None |}.

Lemma parseIncomingPaymentUrl_getUrl_witness :
  parseIncomingPaymentUrl
    "https://wallet.example/bob/incoming-payments/7f2c3a5e-90b1-4c8e-8d3a-1b2c3d4e5f60"
  = Some ("7f2c3a5e-90b1-4c8e-8d3a-1b2c3d4e5f60", "https://wallet.example/bob")
  /\ matchesConnectionUrl
       "https://wallet.example/bob/incoming-payments/7f2c3a5e-90b1-4c8e-8d3a-1b2c3d4e5f60"
     = false.
Proof.
  apply (parseIncomingPaymentUrl_getUrl invoice bob).
  - reflexivity.
  - reflexivity.
  - discriminate.
  - reflexivity.
Defined.

(** What [getIncomingPayment] does under its [try]. *)
Lemma getIncomingPayment_parsed (deps : ServiceDependencies) (now : Z)
    (url id walletAddressUrl : string) (world : World) :
  parseIncomingPaymentUrl url = Some (id, walletAddressUrl) ->
  getIncomingPayment deps now url world
  = try_catch
      (match walletAddressService_getByUrl deps walletAddressUrl with
       | Some walletAddress => ret (getLocalIncomingPayment deps id walletAddress)
       | None =>
           let! grant := getIncomingPaymentGrant deps now walletAddressUrl in
           match grant with
           | None => throw (Error "Could not find grant")
           | Some grant =>
               let! p := call (Call_incomingPayment_get url (grant_accessToken grant))
                         (client_incomingPayment_get deps url
                            (grant_accessToken grant)) in
               ret (Some p)
           end
       end)
      (fun error => ret None) world.
Proof. intros Hparse. unfold getIncomingPayment. rewrite Hparse. reflexivity. Qed.

(** X3. An incoming payment URL under a wallet address that this
    instance serves is resolved from the local services alone: the Open
    Payments client is not called and no grant is touched. Such a URL is
    not taken for a connection URL. *)
Theorem getIncomingPayment_local (deps : ServiceDependencies) (now : Z)
    (url id walletAddressUrl : string) (walletAddress : WalletAddresses.WalletAddress)
    (world : World) :
  parseIncomingPaymentUrl url = Some (id, walletAddressUrl) ->
  walletAddressService_getByUrl deps walletAddressUrl = Some walletAddress ->
  matchesConnectionUrl url = false
  /\ getIncomingPayment deps now url world
     = (inl (getLocalIncomingPayment deps id walletAddress), world).
Proof.
  intros Hparse Hlocal. split.
  - destruct (parseIncomingPaymentUrl_sound url id walletAddressUrl Hparse)
      as (-> & Hlen & _).
    apply incoming_payment_url_not_connection. exact Hlen.
  - rewrite (getIncomingPayment_parsed deps now url id walletAddressUrl world Hparse).
    rewrite Hlocal. reflexivity.
Qed.

(** An instance that serves the wallet address of [bob] and knows its
    payment [invoice]; the remote side is not there. *)
Definition localDeps : ServiceDependencies :=
  {| openPaymentsUrl := "https://wallet.example";
     walletAddressService_getByUrl := fun u =>
       if bool_decide (u = "https://wallet.example/bob") then Some bob else None;
     incomingPaymentService_get := fun i w =>
       if bool_decide (i = IncomingPayments.id invoice) && bool_decide (w = "bob")
       then Some invoice else None;
     incomingPaymentService_getByConnection := fun c =>
       if bool_decide (Some c = IncomingPayments.connectionId invoice)
       then Some invoice else None;
     connectionService_get := fun p => IncomingPayments.connectionId p;
     client_walletAddress_get := fun _ => inr (Error "unreachable host");
     client_token_rotate := fun _ _ => inr (Error "unreachable host");
     client_grant_request := fun _ => inr (Error "unreachable host");
     client_incomingPayment_get := fun _ _ => inr (Error "unreachable host");
     client_ilpStreamConnection_get := fun _ => inr (Error "unreachable host") |}.

Definition untouched : World := {| grants := []; calls := [] |}.

Lemma getIncomingPayment_local_witness :
  getIncomingPayment localDeps 1000
    "https://wallet.example/bob/incoming-payments/7f2c3a5e-90b1-4c8e-8d3a-1b2c3d4e5f60"
    untouched
  = (inl (Some (LocalIncomingPayment invoice "0a1b2c3d-4e5f-4a6b-8c7d-9e0f1a2b3c4d")),
     untouched).
Proof.
  apply (getIncomingPayment_local localDeps 1000
           "https://wallet.example/bob/incoming-payments/7f2c3a5e-90b1-4c8e-8d3a-1b2c3d4e5f60"
           "7f2c3a5e-90b1-4c8e-8d3a-1b2c3d4e5f60" "https://wallet.example/bob" bob
           untouched).
  - reflexivity.
  - reflexivity.
Defined.

(** X4. When the wallet address of an incoming payment URL is not served
    here and fetching it from the remote side throws or gives nothing,
    [get] resolves to [undefined] after that one call on the client: no
    grant is requested or rotated, and the stored grants are as before. *)
Theorem getReceiver_wallet_address_unavailable (deps : ServiceDependencies)
    (now : Z) (url id walletAddressUrl : string) (world : World) :
  parseIncomingPaymentUrl url = Some (id, walletAddressUrl) ->
  walletAddressService_getByUrl deps walletAddressUrl = None ->
  client_walletAddress_get deps walletAddressUrl = inl None
  \/ (exists e, client_walletAddress_get deps walletAddressUrl = inr e) ->
  getReceiver deps now url world
  = (inl None,
     {| grants := grants world;
        calls := Call_walletAddress_get walletAddressUrl :: calls world |}).
Proof.
  intros Hparse Hremote Hfetch.
  unfold getReceiver.
  destruct (parseIncomingPaymentUrl_sound url id walletAddressUrl Hparse)
    as (Hurl & Hlen & _).
  assert (matchesConnectionUrl url = false) as ->
    by (rewrite Hurl; apply incoming_payment_url_not_connection; exact Hlen).
  unfold bind at 1.
  rewrite (getIncomingPayment_parsed deps now url id walletAddressUrl world Hparse).
  rewrite Hremote.
  unfold try_catch, bind, getIncomingPaymentGrant, bind, call.
  destruct Hfetch as [-> | [e ->]]; reflexivity.
Qed.

Lemma getReceiver_wallet_address_unavailable_witness :
  getReceiver localDeps 1000
    "https://wallet.example/eve/incoming-payments/7f2c3a5e-90b1-4c8e-8d3a-1b2c3d4e5f60"
    untouched
  = (inl None,
     {| grants := [];
        calls := [Call_walletAddress_get "https://wallet.example/eve"] |}).
Proof.
  apply (getReceiver_wallet_address_unavailable localDeps 1000
           "https://wallet.example/eve/incoming-payments/7f2c3a5e-90b1-4c8e-8d3a-1b2c3d4e5f60"
           "7f2c3a5e-90b1-4c8e-8d3a-1b2c3d4e5f60" "https://wallet.example/eve"
           untouched).
  - reflexivity.
  - reflexivity.
  - right. exists (Error "unreachable host"). reflexivity.
Defined.

(** X5. With no grant stored, a remote incoming payment is not fetched
    unless the auth server hands out a grant at once: when the grant
    request comes back pending (it needs interaction) or throws, [get]
    resolves to [undefined] after the calls for the wallet address and
    for the grant, the incoming payment is never asked for, and no
    grant is stored. *)
Theorem getReceiver_no_grant (deps : ServiceDependencies) (now : Z)
    (url id walletAddressUrl : string) (walletAddress : RemoteWalletAddress)
    (world : World) :
  parseIncomingPaymentUrl url = Some (id, walletAddressUrl) ->
  walletAddressService_getByUrl deps walletAddressUrl = None ->
  client_walletAddress_get deps walletAddressUrl = inl (Some walletAddress) ->
  grants world = [] ->
  client_grant_request deps (wa_authServer walletAddress) = inl PendingGrant
  \/ (exists e, client_grant_request deps (wa_authServer walletAddress) = inr e) ->
  getReceiver deps now url world
  = (inl None,
     {| grants := [];
        calls := Call_grant_request (wa_authServer walletAddress)
                 :: Call_walletAddress_get walletAddressUrl :: calls world |}).
Proof.
  intros Hparse Hremote Hfetch Hempty Hgrant.
  unfold getReceiver.
  destruct (parseIncomingPaymentUrl_sound url id walletAddressUrl Hparse)
    as (Hurl & Hlen & _).
  assert (matchesConnectionUrl url = false) as ->
    by (rewrite Hurl; apply incoming_payment_url_not_connection; exact Hlen).
  unfold bind at 1.
  rewrite (getIncomingPayment_parsed deps now url id walletAddressUrl world Hparse).
  rewrite Hremote.
  unfold try_catch, bind, getIncomingPaymentGrant, bind, call, grantService_get.
  rewrite Hfetch. cbn [grants]. rewrite Hempty. cbn [List.find].
  destruct Hgrant as [-> | [e ->]]; reflexivity.
Qed.

(** A remote wallet whose auth server wants the user to interact. *)
Definition interactiveDeps : ServiceDependencies :=
  {| openPaymentsUrl := "https://wallet.example";
     walletAddressService_getByUrl := fun _ => None;
     incomingPaymentService_get := fun _ _ => None;
     incomingPaymentService_getByConnection := fun _ => None;
     connectionService_get := fun _ => None;
     client_walletAddress_get := fun u =>
       inl (Some {| wa_id := u; wa_authServer := "https://auth.example" |});
     client_token_rotate := fun _ _ => inr (Error "unreachable host");
     client_grant_request := fun _ => inl PendingGrant;
     client_incomingPayment_get := fun u t => inl (RemoteIncomingPayment u t);
     client_ilpStreamConnection_get := fun _ => inr (Error "unreachable host") |}.

Lemma getReceiver_no_grant_witness :
  getReceiver interactiveDeps 1000
    "https://other.example/dan/incoming-payments/7f2c3a5e-90b1-4c8e-8d3a-1b2c3d4e5f60"
    untouched
  = (inl None,
     {| grants := [];
        calls := [Call_grant_request "https://auth.example";
                  Call_walletAddress_get "https://other.example/dan"] |}).
Proof.
  apply (getReceiver_no_grant interactiveDeps 1000
           "https://other.example/dan/incoming-payments/7f2c3a5e-90b1-4c8e-8d3a-1b2c3d4e5f60"
           "7f2c3a5e-90b1-4c8e-8d3a-1b2c3d4e5f60" "https://other.example/dan"
           {| wa_id := "https://other.example/dan";
              wa_authServer := "https://auth.example" |}
           untouched).
  - reflexivity.
  - reflexivity.
  - reflexivity.
  - reflexivity.
  - left. reflexivity.
Defined.

(** A connection URL of this instance matches the pattern of connection
    URLs and ends with the connection id. *)
Lemma local_connection_url (base connectionId : string) :
  String.length connectionId = 36%nat ->
  allDots connectionId = true ->
  matchesConnectionUrl (base ++ "/connections/" ++ connectionId) = true
  /\ lastChars 36 (base ++ "/connections/" ++ connectionId) = connectionId
  /\ startsWith (base ++ "/connections/") (base ++ "/connections/" ++ connectionId)
     = true.
Proof.
  intros Hlen Hdots.
  pose proof (lastChars_append (base ++ "/connections/") connectionId) as Hlast.
  rewrite Hlen, append_assoc in Hlast.
  splits.
  - unfold matchesConnectionUrl. rewrite Hlast, Hdots.
    rewrite !length_append, Hlen.
    replace (String.length base + (String.length "/connections/" + 36) - 49)%nat
      with (String.length base) by (simpl; lia).
    rewrite substring_append_from.
    replace (String.substring 0 13 ("/connections/" ++ connectionId))
      with "/connections/" by (destruct connectionId; reflexivity).
    rewrite bool_decide_eq_true_2 by reflexivity.
    replace (49 <=? String.length base + (String.length "/connections/" + 36))%nat
      with true by (symmetry; apply Nat.leb_le; simpl; lia).
    reflexivity.
  - exact Hlast.
  - rewrite <- append_assoc. apply startsWith_append.
Qed.

(** X6. A connection URL of this instance, [openPaymentsUrl], then
    ["/connections/"], then a connection id of 36 characters, matches
    the pattern of connection URLs and is resolved locally, by the
    incoming payment that has this connection id: the Open Payments
    client is not called. *)
Theorem getConnection_local (deps : ServiceDependencies)
    (connectionId : string) (world : World) :
  String.length connectionId = 36%nat ->
  allDots connectionId = true ->
  let url := openPaymentsUrl deps ++ "/connections/" ++ connectionId in
  matchesConnectionUrl url = true
  /\ getConnection deps url world
     = (inl match incomingPaymentService_getByConnection deps connectionId with
            | Some incomingPayment => connectionService_get deps incomingPayment
            | None => None
            end,
        world).
Proof.
  intros Hlen Hdots url.
  destruct (local_connection_url (openPaymentsUrl deps) connectionId Hlen Hdots)
    as (Hmatch & Hlast & Hstarts).
  split; [exact Hmatch|].
  unfold getConnection, try_catch. subst url. rewrite Hstarts.
  unfold getLocalConnection. rewrite Hlast. reflexivity.
Qed.

Lemma getConnection_local_witness :
  getConnection localDeps
    "https://wallet.example/connections/0a1b2c3d-4e5f-4a6b-8c7d-9e0f1a2b3c4d"
    untouched
  = (inl (Some "0a1b2c3d-4e5f-4a6b-8c7d-9e0f1a2b3c4d"), untouched).
Proof.
  apply (getConnection_local localDeps "0a1b2c3d-4e5f-4a6b-8c7d-9e0f1a2b3c4d"
           untouched).
  - reflexivity.
  - reflexivity.
Defined.

(** X7. [getIncomingPayment] and [getConnection] never reject: whatever
    the local services and the remote side do, each resolves, to a
    value or to [undefined]. *)
Theorem lookups_never_reject (deps : ServiceDependencies) (now : Z)
    (url : string) (world : World) :
  (exists incomingPayment world',
     getIncomingPayment deps now url world = (inl incomingPayment, world'))
  /\ (exists connection world',
        getConnection deps url world = (inl connection, world')).
Proof.
  split.
  - unfold getIncomingPayment, try_catch.
    match goal with
    | |- context [match ?m world with _ => _ end] =>
        destruct (m world) as [[incomingPayment|error] world']
    end.
    + exists incomingPayment, world'. reflexivity.
    + exists None, world'. reflexivity.
  - unfold getConnection, try_catch.
    match goal with
    | |- context [match ?m world with _ => _ end] =>
        destruct (m world) as [[connection|error] world']
    end.
    + exists connection, world'. reflexivity.
    + exists None, world'. reflexivity.
Qed.

End ReceiverLookupProps.

(** ** Creating receivers *)

Module ReceiverCreationProps.
Import Receivers ReceiverCreation.


End ReceiverCreationProps.

(** ** The account middleware *)

Module AccountMiddlewareProps.
Import IncomingPayments AccountMiddleware.

(** The lookup by destination address gives a peer or nothing. *)
Lemma account_by_stream_destination (serverAddress : string)
    (validateId : string -> bool) (services : Services) (ctx : ILPContext)
    (peer : Peer) (dest : string) :
  incomingAccount ctx = Some peer ->
  streamDestination ctx = Some dest -> dest <> "" ->
  account serverAddress validateId services ctx
  = match
      match incomingPayments_get services dest with
      | Some incomingPayment =>
          if negb (bool_decide (prepare_amount ctx = "0"))
             && isTerminal (state incomingPayment)
          then inr (UnreachableError "destination account is disabled")
          else
            if bool_decide (state incomingPayment = Pending)
            then match createLiquidityAccount services (id incomingPayment) INCOMING with
                 | inl _ => inl (Some (OutgoingIncomingPayment incomingPayment))
                 | inr e => inr e
                 end
            else inl (Some (OutgoingIncomingPayment incomingPayment))
      | None =>
          match walletAddresses_get services dest with
          | Some walletAddress =>
              if WalletAddresses.totalEventsAmount walletAddress =? 0
              then match createLiquidityAccount services
                           (WalletAddresses.id walletAddress) WEB_MONETIZATION with
                   | inl _ => inl (Some (OutgoingWalletAddress walletAddress))
                   | inr e => inr e
                   end
              else inl (Some (OutgoingWalletAddress walletAddress))
          | None =>
              getAccountByDestinationAddress serverAddress validateId services
                {| incomingAccount := incomingAccount ctx;
                   streamDestination := None;
                   prepare_amount := prepare_amount ctx;
                   prepare_destination := prepare_destination ctx |}
          end
      end
    with
    | inr e => inr e
    | inl None => inr (UnreachableError "unknown destination account")
    | inl (Some outgoingAccount) =>
        inl {| incoming := peer; outgoing := outgoingAccount |}
    end.
Proof.
  intros Hin Hdest Hne. unfold account. rewrite Hin.
  unfold getAccountByDestinationAddress. rewrite Hdest.
  rewrite (bool_decide_eq_false_2 _ Hne). reflexivity.
Qed.

(** A connector with two peers, one incoming payment and one wallet
    address, whose ledger is out of order. *)
Definition upstream : Peer :=
  {| peer_id := "upstream"; staticIlpAddress := "test.upstream" |}.

Definition downstream : Peer :=
  {| peer_id := "downstream"; staticIlpAddress := "test.downstream" |}.

Definition paymentIn (s : IncomingPaymentState) : IncomingPayment :=
  {| id := "5b1e7f0c-3d2a-4e6b-9c8d-7a6b5c4d3e2f"; walletAddressId := "carol";
     state := s; expiresAt := 86400000;
     connectionId := if isTerminal s then None else Some "c0ffee00-0000-4000-8000-000000000001";
     processAt := None; incomingAmountValue := Some 100;
     receivedAmountValue := None |}.

Definition carol (totalEvents : Z) : WalletAddresses.WalletAddress :=
  {| WalletAddresses.id := "carol"; WalletAddresses.url := "https://wallet.example/carol";
     WalletAddresses.asset :=
       {| WalletAddresses.asset_code := "USD"; WalletAddresses.asset_scale := 2;
          WalletAddresses.withdrawalThreshold := None |};
     WalletAddresses.totalEventsAmount := totalEvents;
     WalletAddresses.processAt := None; WalletAddresses.deactivatedAt := None |}.

Definition ledgerDown : string -> LiquidityAccountType -> CreateAccountOutcome :=
  fun _ _ => OtherAccountingError "ledger unavailable".

Definition connector (s : IncomingPaymentState) (totalEvents : Z) : Services :=
  {| incomingPayments_get := fun i =>
       if bool_decide (i = id (paymentIn s)) then Some (paymentIn s) else None;
     walletAddresses_get := fun i =>
       if bool_decide (i = "carol") then Some (carol totalEvents) else None;
     peers_getByDestinationAddress := fun a =>
       if JsStrings.startsWith "test.downstream" a then Some downstream else None;
     accounting_createLiquidityAccount := ledgerDown |}.

Definition prepareTo (dest : option string) (amount destination : string)
    : ILPContext :=
  {| incomingAccount := Some upstream; streamDestination := dest;
     prepare_amount := amount; prepare_destination := destination |}.

(** The same services with another accounting service. *)
Definition withAccounting (services : Services)
    (accounting : string -> LiquidityAccountType -> CreateAccountOutcome)
    : Services :=
  {| incomingPayments_get := incomingPayments_get services;
     walletAddresses_get := walletAddresses_get services;
     peers_getByDestinationAddress := peers_getByDestinationAddress services;
     accounting_createLiquidityAccount := accounting |}.

(** X9. A prepare with amount ["0"] to an incoming payment that is
    [Completed] or [Expired] is not turned away: the middleware resolves
    the payment as the outgoing account, and does not ask the accounting
    service for a liquidity account. *)
Theorem account_zero_amount_closed_payment (serverAddress : string)
    (validateId : string -> bool) (services : Services) (ctx : ILPContext)
    (peer : Peer) (pid : string) (p : IncomingPayment) :
  incomingAccount ctx = Some peer ->
  streamDestination ctx = Some pid -> pid <> "" ->
  incomingPayments_get services pid = Some p ->
  state p = Completed \/ state p = Expired ->
  prepare_amount ctx = "0" ->
  forall accounting,
    account serverAddress validateId (withAccounting services accounting) ctx
    = inl {| incoming := peer; outgoing := OutgoingIncomingPayment p |}.
Proof.
  intros Hin Hdest Hne Hget Hclosed Hzero accounting.
  rewrite (account_by_stream_destination _ _ _ ctx peer pid Hin Hdest Hne).
  cbn [withAccounting incomingPayments_get]. rewrite Hget, Hzero.
  rewrite (bool_decide_eq_true_2 ("0" = "0")) by reflexivity.
  destruct Hclosed as [-> | ->]; reflexivity.
Qed.

Lemma account_zero_amount_closed_payment_witness :
  account "test.rafiki" (fun _ => true) (connector Expired 0)
    (prepareTo (Some "5b1e7f0c-3d2a-4e6b-9c8d-7a6b5c4d3e2f") "0" "test.rafiki.x")
  = inl {| incoming := upstream; outgoing := OutgoingIncomingPayment (paymentIn Expired) |}.
Proof.
  apply (account_zero_amount_closed_payment "test.rafiki" (fun _ => true)
           (connector Expired 0)
           (prepareTo (Some "5b1e7f0c-3d2a-4e6b-9c8d-7a6b5c4d3e2f") "0" "test.rafiki.x")
           upstream "5b1e7f0c-3d2a-4e6b-9c8d-7a6b5c4d3e2f" (paymentIn Expired)).
  - reflexivity.
  - reflexivity.
  - discriminate.
  - reflexivity.
  - right. reflexivity.
  - reflexivity.
Defined.

(** X10. For a packet to an incoming payment that is still open, the
    middleware asks for a liquidity account only while the payment is
    [Pending]: the packet then goes on unless the accounting service
    fails with something other than [AccountAlreadyExistsError], which
    is thrown on. For a [Processing] payment the accounting service is
    not asked at all. *)
Theorem account_open_payment (serverAddress : string)
    (validateId : string -> bool) (services : Services) (ctx : ILPContext)
    (peer : Peer) (pid : string) (p : IncomingPayment) :
  incomingAccount ctx = Some peer ->
  streamDestination ctx = Some pid -> pid <> "" ->
  incomingPayments_get services pid = Some p ->
  let resolved := {| incoming := peer; outgoing := OutgoingIncomingPayment p |} in
  (state p = Pending ->
   account serverAddress validateId services ctx
   = match accounting_createLiquidityAccount services (id p) INCOMING with
     | Created | AccountAlreadyExistsError => inl resolved
     | OtherAccountingError message => inr (AccountingError message)
     end)
  /\ (state p = Processing ->
      forall accounting,
        account serverAddress validateId (withAccounting services accounting) ctx
        = inl resolved).
Proof.
  intros Hin Hdest Hne Hget resolved. split.
  - intros Hstate.
    rewrite (account_by_stream_destination _ _ _ ctx peer pid Hin Hdest Hne).
    rewrite Hget, Hstate. cbn [isTerminal]. rewrite andb_false_r.
    rewrite bool_decide_eq_true_2 by reflexivity.
    unfold createLiquidityAccount.
    destruct (accounting_createLiquidityAccount services (id p) INCOMING);
      reflexivity.
  - intros Hstate accounting.
    rewrite (account_by_stream_destination _ _ _ ctx peer pid Hin Hdest Hne).
    cbn [withAccounting incomingPayments_get]. rewrite Hget, Hstate.
    cbn [isTerminal]. rewrite andb_false_r.
    rewrite bool_decide_eq_false_2 by discriminate. reflexivity.
Qed.

Lemma account_open_payment_witness :
  account "test.rafiki" (fun _ => true) (connector Pending 0)
    (prepareTo (Some "5b1e7f0c-3d2a-4e6b-9c8d-7a6b5c4d3e2f") "25" "test.rafiki.x")
  = inr (AccountingError "ledger unavailable")
  /\ account "test.rafiki" (fun _ => true)
       (withAccounting (connector Processing 0) ledgerDown)
       (prepareTo (Some "5b1e7f0c-3d2a-4e6b-9c8d-7a6b5c4d3e2f") "25" "test.rafiki.x")
     = inl {| incoming := upstream;
              outgoing := OutgoingIncomingPayment (paymentIn Processing) |}.
Proof.
  split.
  - apply (account_open_payment "test.rafiki" (fun _ => true) (connector Pending 0)
             (prepareTo (Some "5b1e7f0c-3d2a-4e6b-9c8d-7a6b5c4d3e2f") "25" "test.rafiki.x")
             upstream "5b1e7f0c-3d2a-4e6b-9c8d-7a6b5c4d3e2f" (paymentIn Pending));
      try reflexivity. discriminate.
  - apply (account_open_payment "test.rafiki" (fun _ => true) (connector Processing 0)
             (prepareTo (Some "5b1e7f0c-3d2a-4e6b-9c8d-7a6b5c4d3e2f") "25" "test.rafiki.x")
             upstream "5b1e7f0c-3d2a-4e6b-9c8d-7a6b5c4d3e2f" (paymentIn Processing));
      try reflexivity. discriminate.
Defined.

(** X11. The SPSP fallback: when the stream destination names no
    incoming payment but a wallet address, the wallet address is the
    outgoing account, whatever the amount. A liquidity account is asked
    for only while the wallet address has no events amount yet, with
    the same tolerance for an account that exists. *)
Theorem account_wallet_address_fallback (serverAddress : string)
    (validateId : string -> bool) (services : Services) (ctx : ILPContext)
    (peer : Peer) (dest : string) (w : WalletAddresses.WalletAddress) :
  incomingAccount ctx = Some peer ->
  streamDestination ctx = Some dest -> dest <> "" ->
  incomingPayments_get services dest = None ->
  walletAddresses_get services dest = Some w ->
  let resolved := {| incoming := peer; outgoing := OutgoingWalletAddress w |} in
  (WalletAddresses.totalEventsAmount w = 0 ->
   account serverAddress validateId services ctx
   = match accounting_createLiquidityAccount services (WalletAddresses.id w)
             WEB_MONETIZATION with
     | Created | AccountAlreadyExistsError => inl resolved
     | OtherAccountingError message => inr (AccountingError message)
     end)
  /\ (WalletAddresses.totalEventsAmount w <> 0 ->
      forall accounting,
        account serverAddress validateId (withAccounting services accounting) ctx
        = inl resolved).
Proof.
  intros Hin Hdest Hne Hnone Hget resolved. split.
  - intros Hzero.
    rewrite (account_by_stream_destination _ _ _ ctx peer dest Hin Hdest Hne).
    rewrite Hnone, Hget, Hzero. cbn [Z.eqb].
    unfold createLiquidityAccount.
    destruct (accounting_createLiquidityAccount services (WalletAddresses.id w)
                WEB_MONETIZATION); reflexivity.
  - intros Hsome accounting.
    rewrite (account_by_stream_destination _ _ _ ctx peer dest Hin Hdest Hne).
    cbn [withAccounting incomingPayments_get walletAddresses_get].
    rewrite Hnone, Hget.
    apply Z.eqb_neq in Hsome. rewrite Hsome. reflexivity.
Qed.

Lemma account_wallet_address_fallback_witness :
  account "test.rafiki" (fun _ => true) (connector Pending 0)
    (prepareTo (Some "carol") "25" "test.rafiki.x")
  = inr (AccountingError "ledger unavailable")
  /\ account "test.rafiki" (fun _ => true)
       (withAccounting (connector Pending 70) ledgerDown)
       (prepareTo (Some "carol") "25" "test.rafiki.x")
     = inl {| incoming := upstream; outgoing := OutgoingWalletAddress (carol 70) |}.
Proof.
  split.
  - apply (account_wallet_address_fallback "test.rafiki" (fun _ => true)
             (connector Pending 0) (prepareTo (Some "carol") "25" "test.rafiki.x")
             upstream "carol" (carol 0));
      try reflexivity. discriminate.
  - apply (account_wallet_address_fallback "test.rafiki" (fun _ => true)
             (connector Pending 70) (prepareTo (Some "carol") "25" "test.rafiki.x")
             upstream "carol" (carol 70));
      try reflexivity; discriminate.
Defined.

(** Without a stream destination that resolves, only a peer is found. *)
Lemma getAccountByDestinationAddress_by_address (serverAddress : string)
    (validateId : string -> bool) (services : Services) (ctx : ILPContext) :
  streamDestination ctx = None
  \/ (exists dest, streamDestination ctx = Some dest
        /\ (dest = ""
            \/ (incomingPayments_get services dest = None
                /\ walletAddresses_get services dest = None))) ->
  getAccountByDestinationAddress serverAddress validateId services ctx
  = inl (OutgoingPeer
           <$> peers_getByDestinationAddress services (prepare_destination ctx)).
Proof.
  intros Hdest. unfold getAccountByDestinationAddress.
  assert (forall (b : bool) (accountId : string),
            (if b then if validateId accountId
                       then @inl (option OutgoingAccount) Thrown None
                       else inl None
             else inl None) = inl None) as Htodo.
  { intros b accountId. destruct b; [destruct (validateId accountId)|]; reflexivity. }
  destruct Hdest as [-> | (dest & -> & [-> | [Hp Hw]])].
  - destruct (peers_getByDestinationAddress services (prepare_destination ctx));
      [reflexivity|apply Htodo].
  - rewrite bool_decide_eq_true_2 by reflexivity.
    destruct (peers_getByDestinationAddress services (prepare_destination ctx));
      [reflexivity|apply Htodo].
  - rewrite Hp, Hw. case_bool_decide;
      (destruct (peers_getByDestinationAddress services (prepare_destination ctx));
       [reflexivity|apply Htodo]).
Qed.

(** The server address and [validateId] do not matter to the lookup. *)
Lemma getAccountByDestinationAddress_server_address
    (serverAddress serverAddress' : string) (validateId validateId' : string -> bool)
    (services : Services) (ctx : ILPContext) :
  getAccountByDestinationAddress serverAddress validateId services ctx
  = getAccountByDestinationAddress serverAddress' validateId' services ctx.
Proof.
  destruct (streamDestination ctx) as [dest|] eqn:Hdest.
  - destruct (decide (dest = "")) as [Hempty|Hne].
    + rewrite !getAccountByDestinationAddress_by_address; [reflexivity| |];
        right; exists dest; auto.
    + unfold getAccountByDestinationAddress at 1 2. rewrite Hdest.
      rewrite (bool_decide_eq_false_2 _ Hne).
      destruct (incomingPayments_get services dest) as [p|] eqn:Hp; [reflexivity|].
      destruct (walletAddresses_get services dest) as [w|] eqn:Hw; [reflexivity|].
      pose proof (getAccountByDestinationAddress_by_address serverAddress
                    validateId services ctx) as H1.
      pose proof (getAccountByDestinationAddress_by_address serverAddress'
                    validateId' services ctx) as H2.
      unfold getAccountByDestinationAddress in H1, H2.
      rewrite Hdest, (bool_decide_eq_false_2 _ Hne), Hp, Hw in H1, H2.
      rewrite H1, H2; [reflexivity| |]; right; exists dest; auto.
  - rewrite !getAccountByDestinationAddress_by_address; auto.
Qed.

(** X12. No account is resolved from the destination address itself:
    the middleware behaves the same for every server address and every
    [validateId], because the lookup of direct ILP access accounts under
    the server's address is not there. So a packet whose stream
    destination names neither an incoming payment nor a wallet address
    goes to the peer for its destination address, and is rejected as
    unreachable when there is none. *)
Theorem account_no_direct_accounts (serverAddress : string)
    (validateId : string -> bool) (services : Services) (ctx : ILPContext) :
  (forall (serverAddress' : string) (validateId' : string -> bool),
     account serverAddress validateId services ctx
     = account serverAddress' validateId' services ctx)
  /\ (forall peer : Peer,
        incomingAccount ctx = Some peer ->
        streamDestination ctx = None
        \/ (exists dest, streamDestination ctx = Some dest
              /\ (dest = ""
                  \/ (incomingPayments_get services dest = None
                      /\ walletAddresses_get services dest = None))) ->
        account serverAddress validateId services ctx
        = match peers_getByDestinationAddress services (prepare_destination ctx) with
          | Some next => inl {| incoming := peer; outgoing := OutgoingPeer next |}
          | None => inr (UnreachableError "unknown destination account")
          end).
Proof.
  split.
  - intros serverAddress' validateId'. unfold account.
    rewrite (getAccountByDestinationAddress_server_address serverAddress
               serverAddress' validateId validateId').
    reflexivity.
  - intros peer Hin Hdest. unfold account. rewrite Hin.
    rewrite (getAccountByDestinationAddress_by_address _ _ _ _ Hdest).
    destruct (peers_getByDestinationAddress services (prepare_destination ctx));
      reflexivity.
Qed.

Lemma account_no_direct_accounts_witness :
  account "test.rafiki" (fun _ => true) (connector Pending 0)
    (prepareTo None "25" "test.rafiki.5b1e7f0c-3d2a-4e6b-9c8d-7a6b5c4d3e2f")
  = inr (UnreachableError "unknown destination account").
Proof.
  destruct (account_no_direct_accounts "test.rafiki" (fun _ => true)
              (connector Pending 0)
              (prepareTo None "25" "test.rafiki.5b1e7f0c-3d2a-4e6b-9c8d-7a6b5c4d3e2f"))
    as [_ Hpeer].
  apply (Hpeer upstream).
  - reflexivity.
  - left. reflexivity.
Defined.

End AccountMiddlewareProps.

(** ** Credits to incoming payments *)

Module CreditProps.
Import IncomingPayments.

(** The row that a credit leaves when the payment has reached its
    incoming amount, and the row it leaves otherwise. *)
Definition completedAt (now : Z) (row : IncomingPayment) : IncomingPayment :=
  {| id := id row; walletAddressId := walletAddressId row;
     state := Completed; expiresAt := expiresAt row;
     connectionId := None; processAt := Some (now + 30000);
     incomingAmountValue := incomingAmountValue row;
     receivedAmountValue := receivedAmountValue row |}.

Definition processing (row : IncomingPayment) : IncomingPayment :=
  {| id := id row; walletAddressId := walletAddressId row;
     state := Processing; expiresAt := expiresAt row;
     connectionId := connectionId row; processAt := processAt row;
     incomingAmountValue := incomingAmountValue row;
     receivedAmountValue := receivedAmountValue row |}.

(** Whether the payment that [onCredit] is called on has an incoming
    amount that the total covers. *)
Definition covered (this : IncomingPayment) (totalReceived : Z) : bool :=
  match incomingAmount this with
  | Some v => v <=? totalReceived
  | None => false
  end.

Lemma credit_of_open_row (db : gmap string IncomingPayment)
    (this row : IncomingPayment) (totalReceived now : Z) :
  db !! id this = Some row ->
  isTerminal (state row) = false ->
  onCredit this totalReceived now db
  = let row' := if covered this totalReceived then completedAt now row
                else processing row in
    (row', <[id this := row']> db).
Proof.
  intros Hrow Hopen. unfold onCredit, covered, patchAndFetchById_whereNotIn.
  rewrite Hrow.
  assert (bool_decide (state row ∈ [Expired; Completed]) = false) as ->.
  { apply bool_decide_eq_false_2. intros Hin.
    apply elem_of_cons in Hin as [Heq | Hin];
      [rewrite Heq in Hopen; discriminate|].
    apply elem_of_cons in Hin as [Heq | Hin];
      [rewrite Heq in Hopen; discriminate|].
    inversion Hin. }
  destruct (match incomingAmount this with
            | Some v => v <=? totalReceived
            | None => false
            end); reflexivity.
Qed.

(** X13. A credit to an incoming payment whose stored row is [Pending]
    or [Processing]: when the payment that [onCredit] is called on has
    an incoming amount and the total received reaches it, the row
    becomes [Completed], loses its connection id and is due for its
    webhook 30 seconds later; otherwise the row becomes [Processing] and
    keeps its connection id and [processAt]. The row is returned, and
    nothing else of it changes. *)
Theorem onCredit_open (db : gmap string IncomingPayment)
    (this row : IncomingPayment) (totalReceived now : Z) :
  db !! id this = Some row ->
  state row = Pending \/ state row = Processing ->
  (forall v, incomingAmount this = Some v -> v <= totalReceived ->
     onCredit this totalReceived now db
     = (completedAt now row, <[id this := completedAt now row]> db))
  /\ (incomingAmount this = None
      \/ (exists v, incomingAmount this = Some v /\ totalReceived < v) ->
      onCredit this totalReceived now db
      = (processing row, <[id this := processing row]> db)).
Proof.
  intros Hrow Hstate.
  assert (isTerminal (state row) = false) as Hopen
    by (destruct Hstate as [-> | ->]; reflexivity).
  rewrite (credit_of_open_row db this row totalReceived now Hrow Hopen).
  unfold covered. split.
  - intros v -> Hle. apply Z.leb_le in Hle. rewrite Hle. reflexivity.
  - intros [-> | (v & -> & Hlt)]; [reflexivity|].
    apply Z.leb_gt in Hlt. rewrite Hlt. reflexivity.
Qed.

Definition deposit : IncomingPayment :=
  {| id := "deposit"; walletAddressId := "carol"; state := Pending;
     expiresAt := 86400000; connectionId := Some "c0ffee00-0000-4000-8000-000000000002";
     processAt := None; incomingAmountValue := Some 100;
     receivedAmountValue := None |}.

Lemma onCredit_open_witness :
  onCredit deposit 100 5000 {[ "deposit" := deposit ]}
  = (completedAt 5000 deposit, <[ "deposit" := completedAt 5000 deposit ]> {[ "deposit" := deposit ]})
  /\ onCredit deposit 99 5000 {[ "deposit" := deposit ]}
     = (processing deposit, <[ "deposit" := processing deposit ]> {[ "deposit" := deposit ]}).
Proof.
  destruct (onCredit_open {[ "deposit" := deposit ]} deposit deposit 100 5000)
    as [Hdone _]; [apply lookup_singleton_eq|left; reflexivity|].
  destruct (onCredit_open {[ "deposit" := deposit ]} deposit deposit 99 5000)
    as [_ Hpart]; [apply lookup_singleton_eq|left; reflexivity|].
  split.
  - apply (Hdone 100); [reflexivity|lia].
  - apply Hpart. right. exists 100. split; [reflexivity|lia].
Defined.

(** X14. An incoming payment whose incoming amount was set to
    [undefined], or to an amount of value 0, has no amount to reach: a
    credit never completes it, however much was received. An open row
    becomes [Processing]. *)
Theorem onCredit_without_incoming_amount (db : gmap string IncomingPayment)
    (p row : IncomingPayment) (amount : option Quotes.Amount)
    (totalReceived now : Z) :
  amount = None \/ (exists a, amount = Some a /\ Quotes.value a = 0) ->
  db !! id p = Some row ->
  state row = Pending \/ state row = Processing ->
  onCredit (IncomingPaymentModel.set_incomingAmount p amount) totalReceived now db
  = (processing row, <[id p := processing row]> db).
Proof.
  intros Hamount Hrow Hstate.
  assert (isTerminal (state row) = false) as Hopen
    by (destruct Hstate as [-> | ->]; reflexivity).
  set (this := IncomingPaymentModel.set_incomingAmount p amount).
  assert (covered this totalReceived = false) as Hnot.
  { unfold covered, incomingAmount, this. simpl.
    destruct Hamount as [-> | (a & -> & Hzero)]; [reflexivity|].
    rewrite Hzero. reflexivity. }
  rewrite (credit_of_open_row db this row totalReceived now Hrow Hopen), Hnot.
  reflexivity.
Qed.

Lemma onCredit_without_incoming_amount_witness :
  onCredit
    (IncomingPaymentModel.set_incomingAmount deposit
       (Some {| Quotes.value := 0; Quotes.assetCode := "USD"; Quotes.assetScale := 2 |}))
    1000000 5000 {[ "deposit" := deposit ]}
  = (processing deposit, <[ "deposit" := processing deposit ]> {[ "deposit" := deposit ]}).
Proof.
  apply (onCredit_without_incoming_amount {[ "deposit" := deposit ]} deposit deposit
           (Some {| Quotes.value := 0; Quotes.assetCode := "USD"; Quotes.assetScale := 2 |})
           1000000 5000).
  - right. eexists. split; reflexivity.
  - apply lookup_singleton_eq.
  - left. reflexivity.
Defined.

(** The table after a guarded patch is the old one, or the old one with
    the patched row in the place of the row with the id. *)
Lemma patchAndFetchById_whereNotIn_table (db : gmap string IncomingPayment)
    (pid : string) (patch : Patch) (excluded : list IncomingPaymentState) :
  (patchAndFetchById_whereNotIn db pid patch excluded).2 = db
  \/ (exists row,
        db !! pid = Some row
        /\ (patchAndFetchById_whereNotIn db pid patch excluded).2
           = <[pid := applyPatch row (beforeUpdate patch)]> db).
Proof.
  unfold patchAndFetchById_whereNotIn.
  destruct (db !! pid) as [row|] eqn:Hrow; [|left; reflexivity].
  case_bool_decide; [left; reflexivity|].
  right. exists row. split; reflexivity.
Qed.

(** X15. A credit touches one row only, and only its state, [processAt]
    and connection id: every other row of the table stays as it is, no
    row is added (a payment that is not in the table is not put there),
    and the credited row keeps its id, wallet address, expiry and
    amounts. *)
Theorem onCredit_frame (db : gmap string IncomingPayment)
    (this : IncomingPayment) (totalReceived now : Z) :
  let db' := (onCredit this totalReceived now db).2 in
  (forall k, k <> id this -> db' !! k = db !! k)
  /\ (db !! id this = None -> db' = db)
  /\ (forall row', db' !! id this = Some row' ->
        exists row,
          db !! id this = Some row
          /\ id row' = id row /\ walletAddressId row' = walletAddressId row
          /\ expiresAt row' = expiresAt row
          /\ incomingAmountValue row' = incomingAmountValue row
          /\ receivedAmountValue row' = receivedAmountValue row).
Proof.
  intros db'.
  assert (db' = db
          \/ (exists row patch,
                db !! id this = Some row
                /\ patch_expiresAt patch = None
                /\ patch_incomingAmountValue patch = None
                /\ db' = <[id this := applyPatch row (beforeUpdate patch)]> db))
    as Hcases.
  { subst db'. unfold onCredit.
    destruct (match incomingAmount this with
              | Some v => v <=? totalReceived
              | None => false
              end).
    - match goal with
      | |- context [patchAndFetchById_whereNotIn db (id this) ?patch ?excluded] =>
          destruct (patchAndFetchById_whereNotIn_table db (id this) patch excluded)
            as [Hsame | (row & Hrow & Hput)];
          destruct (patchAndFetchById_whereNotIn db (id this) patch excluded)
            as [[p|] t]; simpl in *; subst t; auto;
          right; exists row, patch; auto
      end.
    - match goal with
      | |- context [patchAndFetchById_whereNotIn db (id this) ?patch ?excluded] =>
          destruct (patchAndFetchById_whereNotIn_table db (id this) patch excluded)
            as [Hsame | (row & Hrow & Hput)];
          destruct (patchAndFetchById_whereNotIn db (id this) patch excluded)
            as [[p|] t]; simpl in *; subst t; auto;
          right; exists row, patch; auto
      end. }
  destruct Hcases as [-> | (row & patch & Hrow & He & Ha & ->)]; splits.
  - reflexivity.
  - reflexivity.
  - intros row' Hrow'. exists row'. splits; auto.
  - intros k Hk. apply lookup_insert_ne. congruence.
  - intros Hnone. congruence.
  - intros row' Hrow'. rewrite lookup_insert_eq in Hrow'.
    injection Hrow' as <-. exists row. split; [exact Hrow|].
    assert (patch_expiresAt (beforeUpdate patch) = None
            /\ patch_incomingAmountValue (beforeUpdate patch) = None) as [He' Ha'].
    { unfold beforeUpdate. destruct (patch_state patch) as [s|]; [|auto].
      destruct (isTerminal s); auto. }
    unfold applyPatch; simpl. rewrite He', Ha'. splits; reflexivity.
Qed.

End CreditProps.

(** ** What a credit to a wallet address leaves alone *)

Module WalletAddressCreditProps.
Import WalletAddresses.

(** X16. [WalletAddress.onCredit] writes nothing but the [processAt] of
    the row with the id of the wallet address: every other row stays as
    it is, no row is added, and in that row [processAt] is set or kept,
    never cleared, while the other columns, [totalEventsAmount] among
    them, stay as they are. *)
Theorem wallet_address_onCredit_frame (db : gmap string WalletAddress)
    (this : WalletAddress) (opts : OnCreditOptions) (now : Z) :
  let db' := (onCredit this opts now db).2 in
  (forall k, k <> id this -> db' !! k = db !! k)
  /\ (db !! id this = None -> db' = db)
  /\ (forall row, db !! id this = Some row ->
        exists t,
          db' !! id this = Some (set_processAt row t)
          /\ (processAt row <> None -> t <> None)).
Proof.
  intros db'.
  assert (db' = db
          \/ (exists row t,
                db !! id this = Some row
                /\ db' = <[id this := set_processAt row (Some t)]> db)) as Hcases.
  { subst db'. unfold onCredit, patchProcessAt_where_totalEventsAmount_le,
      instance_patch_processAt.
    destruct (db !! id this) as [row|] eqn:Hrow.
    - destruct (withdrawalThreshold (asset this)) as [threshold|];
        [destruct (totalEventsAmount row <=? totalReceived opts - threshold);
           [right; exists row, now; auto|]|];
        (destruct (withdrawalThrottleDelay opts) as [delay|]; [|left; reflexivity];
         destruct (processAt this); [left; reflexivity|];
         right; exists row, (now + delay); rewrite ?Hrow; auto).
    - destruct (withdrawalThreshold (asset this)) as [threshold|];
        (destruct (withdrawalThrottleDelay opts) as [delay|]; [|left; reflexivity];
         destruct (processAt this); left; rewrite ?Hrow; reflexivity). }
  destruct Hcases as [-> | (row & t & Hrow & ->)]; splits.
  - reflexivity.
  - reflexivity.
  - intros row Hrow. exists (processAt row). split; [|auto].
    rewrite Hrow. destruct row; reflexivity.
  - intros k Hk. apply lookup_insert_ne. congruence.
  - intros Hnone. congruence.
  - intros row0 Hrow0. exists (Some t). rewrite lookup_insert_eq.
    split; [congruence|discriminate].
Qed.

End WalletAddressCreditProps.

(** ** Queries on the resources of a wallet address *)

Module SubresourceProps.
Import Subresources.

(** X17. [get] never gives a resource of another wallet address or of
    another client than the ones asked for: what it returns is the row
    stored under the id, and that row belongs to the wallet address and
    to the client of the options whenever these are given and not
    empty. An empty [walletAddressId] or [client] filters nothing. *)
Theorem get_scoped {M : Type} (walletAddressId : M -> string)
    (client : M -> option string) (table : gmap string M)
    (options : GetOptions) :
  (forall row, get walletAddressId client table options = Some row ->
     table !! get_id options = Some row
     /\ (forall w, get_walletAddressId options = Some w -> w <> "" ->
           walletAddressId row = w)
     /\ (forall c, get_client options = Some c -> c <> "" ->
           client row = Some c))
  /\ (truthy (get_walletAddressId options) = None ->
      truthy (get_client options) = None ->
      get walletAddressId client table options = table !! get_id options).
Proof.
  unfold get. split.
  - intros row Hget.
    destruct (table !! get_id options) as [found|]; [|discriminate].
    destruct (match truthy (get_walletAddressId options) with
              | Some w => bool_decide (walletAddressId found = w)
              | None => true
              end) eqn:Hw; [|discriminate].
    destruct (match truthy (get_client options) with
              | Some c => bool_decide (client found = Some c)
              | None => true
              end) eqn:Hc; [|discriminate].
    simpl in Hget. injection Hget as ->. splits.
    + reflexivity.
    + intros w Hsome Hne. rewrite Hsome in Hw. unfold truthy in Hw.
      rewrite (bool_decide_eq_false_2 _ Hne) in Hw.
      apply bool_decide_eq_true_1 in Hw. exact Hw.
    + intros c Hsome Hne. rewrite Hsome in Hc. unfold truthy in Hc.
      rewrite (bool_decide_eq_false_2 _ Hne) in Hc.
      apply bool_decide_eq_true_1 in Hc. exact Hc.
  - intros -> ->. destruct (table !! get_id options); reflexivity.
Qed.

End SubresourceProps.

(** ** The middleware pipeline *)

Module ComposeProps.
Import Connector.

Section compose.

Context {Ctx E : Type}.

Implicit Types (fn : Middleware Ctx E) (middlewares rest : list (Middleware Ctx E)).
Implicit Types (f g : Frame Ctx) (p q : Promise Ctx E).
Implicit Types (next : option (Ctx -> (unit + Rejection E) * Ctx)).

(** *** [index] only grows *)

Lemma run_index fn p :
  (forall f, index f <= index (p f).2) ->
  forall f, index f <= index (run fn p f).2.
Proof.
  intros Hp. induction fn as [|e|k IH|c k IH|k IH|k IHk handler IHh]; intros f; simpl.
  - lia.
  - lia.
  - apply IH.
  - apply (IH (set_ctx f c)).
  - pose proof (Hp f) as Hf. destruct (p f) as [[u|err] f']; simpl in *.
    + pose proof (IH f'). lia.
    + exact Hf.
  - pose proof (Hp f) as Hf. destruct (p f) as [[u|err] f']; simpl in *.
    + pose proof (IHk f'). lia.
    + pose proof (IHh err f'). lia.
Qed.

Lemma dispatch_index middlewares next (i : Z) f :
  i <= index (dispatch middlewares next i f).2
  /\ index f <= index (dispatch middlewares next i f).2.
Proof.
  revert i f. induction middlewares as [|fn rest IH]; intros i f; simpl.
  - destruct (Z.leb_spec i (index f)) as [Hle|Hlt]; simpl; [lia|].
    destruct next as [k|]; [destruct (k (ctx f)) as [result c]|]; simpl; lia.
  - destruct (Z.leb_spec i (index f)) as [Hle|Hlt]; simpl; [lia|].
    pose proof (run_index fn (dispatch rest next (i + 1))
                  (fun f' => proj2 (IH (i + 1) f'))
                  {| ctx := ctx f; index := i; entered := i :: entered f |}) as H.
    simpl in H. lia.
Qed.

(** A position that was dispatched cannot be dispatched again. *)
Lemma dispatch_again middlewares next (i : Z) f :
  let f' := (dispatch middlewares next i f).2 in
  dispatch middlewares next i f'
  = (inr (Error "next() called multiple times"), f').
Proof.
  intros f'. pose proof (proj1 (dispatch_index middlewares next i f)) as Hi.
  fold f' in Hi. apply Z.leb_le in Hi.
  destruct middlewares; simpl; rewrite Hi; reflexivity.
Qed.

(** *** The positions are entered in order *)

(** The positions below [n], latest first. *)
Fixpoint positions (n : nat) : list Z :=
  match n with
  | O => []
  | S m => Z.of_nat m :: positions m
  end.

Definition ordered f (n : nat) : Prop :=
  index f = Z.of_nat n - 1 /\ entered f = positions n.

Definition advances (lo hi : nat) p : Prop :=
  forall f n, ordered f n -> (lo <= n)%nat ->
    exists n', ordered (p f).2 n' /\ (n <= n')%nat /\ (lo < n')%nat
               /\ (n' <= Nat.max n hi)%nat.

Lemma run_ordered (lo hi : nat) fn p :
  advances lo hi p ->
  forall f n, ordered f n -> (lo <= n)%nat ->
    exists n', ordered (run fn p f).2 n' /\ (n <= n')%nat
               /\ (n' <= Nat.max n hi)%nat.
Proof.
  intros Hp. induction fn as [|e|k IH|c k IH|k IH|k IHk handler IHh];
    intros f n Hf Hlo; simpl.
  - exists n. splits; [exact Hf|lia|lia].
  - exists n. splits; [exact Hf|lia|lia].
  - apply IH; assumption.
  - apply IH; assumption.
  - destruct (Hp f n Hf Hlo) as (n1 & Hf1 & Hn1 & Hlo1 & Hhi1).
    destruct (p f) as [[u|err] f']; simpl in *.
    + destruct (IH f' n1 Hf1) as (n2 & Hf2 & Hn2 & Hhi2); [lia|].
      exists n2. splits; [exact Hf2|lia|lia].
    + exists n1. splits; [exact Hf1|lia|lia].
  - destruct (Hp f n Hf Hlo) as (n1 & Hf1 & Hn1 & Hlo1 & Hhi1).
    destruct (p f) as [[u|err] f']; simpl in *.
    + destruct (IHk f' n1 Hf1) as (n2 & Hf2 & Hn2 & Hhi2); [lia|].
      exists n2. splits; [exact Hf2|lia|lia].
    + destruct (IHh err f' n1 Hf1) as (n2 & Hf2 & Hn2 & Hhi2); [lia|].
      exists n2. splits; [exact Hf2|lia|lia].
Qed.

Lemma dispatch_advances middlewares next (i : nat) :
  advances i (i + length middlewares + 1) (dispatch middlewares next (Z.of_nat i)).
Proof.
  revert i. induction middlewares as [|fn rest IH]; intros i f n [Hindex Hentered] Hlo.
  - simpl. destruct (Z.leb_spec (Z.of_nat i) (index f)) as [Hle|Hlt]; simpl.
    + exists n. splits; [split; assumption|lia|lia|lia].
    + assert (n = i) as -> by lia.
      exists (S i). splits; [|lia|lia|lia].
      destruct next as [k|]; [destruct (k (ctx f)) as [result c]|]; simpl;
        (split; simpl; [lia|rewrite Hentered; reflexivity]).
  - simpl. destruct (Z.leb_spec (Z.of_nat i) (index f)) as [Hle|Hlt]; simpl.
    + exists n. splits; [split; assumption|lia|lia|lia].
    + assert (n = i) as -> by lia.
      replace (Z.of_nat i + 1) with (Z.of_nat (S i)) by lia.
      destruct (run_ordered (S i) (S i + length rest + 1) fn
                  (dispatch rest next (Z.of_nat (S i))) (IH (S i))
                  {| ctx := ctx f; index := Z.of_nat i;
                     entered := Z.of_nat i :: entered f |} (S i))
        as (n' & Hf' & Hn' & Hhi'); [|lia|].
      { split; simpl; [lia|rewrite Hentered; reflexivity]. }
      exists n'. splits; [exact Hf'|lia|lia|lia].
Qed.

(** *** One middleware around the rest *)

(** [fn(ctx, next)] for a [next] that works on the context alone and
    that may be called once: [called] says whether it was. *)
Fixpoint runOnce fn (next : Ctx -> (unit + Rejection E) * Ctx) (called : bool)
    (c : Ctx) : (unit + Rejection E) * Ctx :=
  match fn with
  | Return => (inl tt, c)
  | Throw e => (inr (Thrown e), c)
  | GetCtx k => runOnce (k c) next called c
  | SetCtx c' k => runOnce k next called c'
  | AwaitNext k =>
      if called then (inr (Error "next() called multiple times"), c)
      else match next c with
           | (inl _, c') => runOnce k next true c'
           | (inr err, c') => (inr err, c')
           end
  | AwaitNextCatch k handler =>
      if called
      then runOnce (handler (Error "next() called multiple times")) next true c
      else match next c with
           | (inl _, c') => runOnce k next true c'
           | (inr err, c') => runOnce (handler err) next true c'
           end
  end.

(** Two frames that differ by an offset of the index. *)
Definition shifted (d : Z) f g : Prop :=
  ctx f = ctx g /\ index f = index g + d.

Definition simulates (d : Z) p q : Prop :=
  forall f g, shifted d f g ->
    (p f).1 = (q g).1 /\ shifted d (p f).2 (q g).2.

Lemma run_simulates (d : Z) fn p q :
  simulates d p q -> simulates d (run fn p) (run fn q).
Proof.
  intros Hpq. induction fn as [|e|k IH|c k IH|k IH|k IHk handler IHh];
    intros f g Hs; simpl.
  - split; [reflexivity|exact Hs].
  - split; [reflexivity|exact Hs].
  - destruct Hs as [Hc Hi]. rewrite Hc. apply IH. split; assumption.
  - apply IH. destruct Hs as [Hc Hi]. split; [reflexivity|exact Hi].
  - destruct (Hpq f g Hs) as [Hr Hs'].
    destruct (p f) as [[u|err] f'], (q g) as [[u'|err'] g']; simpl in *;
      try discriminate.
    + apply IH. exact Hs'.
    + split; [exact Hr|exact Hs'].
  - destruct (Hpq f g Hs) as [Hr Hs'].
    destruct (p f) as [[u|err] f'], (q g) as [[u'|err'] g']; simpl in *;
      try discriminate.
    + apply IHk. exact Hs'.
    + injection Hr as ->. apply IHh. exact Hs'.
Qed.

Lemma dispatch_simulates middlewares next (i d : Z) :
  simulates d (dispatch middlewares next (i + d)) (dispatch middlewares next i).
Proof.
  revert i. induction middlewares as [|fn rest IH]; intros i f g [Hc Hi].
  - simpl. rewrite Hi, Hc.
    replace (i + d <=? index g + d) with (i <=? index g)
      by (destruct (Z.leb_spec i (index g)), (Z.leb_spec (i + d) (index g + d));
          reflexivity || lia).
    destruct (i <=? index g); simpl.
    + split; [reflexivity|split; assumption].
    + destruct next as [k|]; [destruct (k (ctx g)) as [result c]|]; simpl;
        (split; [reflexivity|split; reflexivity]).
  - simpl. rewrite Hi, Hc.
    replace (i + d <=? index g + d) with (i <=? index g)
      by (destruct (Z.leb_spec i (index g)), (Z.leb_spec (i + d) (index g + d));
          reflexivity || lia).
    destruct (i <=? index g); simpl.
    + split; [reflexivity|split; assumption].
    + replace (i + d + 1) with (i + 1 + d) by lia.
      apply (run_simulates d fn _ _ (IH (i + 1))).
      split; reflexivity.
Qed.

Lemma run_runOnce fn rest next (called : bool) f :
  (called = false -> index f = 0) ->
  (called = true -> 1 <= index f) ->
  runOnce fn (compose rest next) called (ctx f)
  = ((run fn (dispatch rest next 1) f).1,
     ctx (run fn (dispatch rest next 1) f).2).
Proof.
  revert called f.
  assert (forall f, index f = 0 ->
            compose rest next (ctx f)
            = ((dispatch rest next 1 f).1, ctx (dispatch rest next 1 f).2)
              /\ 1 <= index (dispatch rest next 1 f).2) as Hfirst.
  { intros f Hf. split; [|apply dispatch_index].
    unfold compose, composed.
    destruct (dispatch_simulates rest next 0 1 f
                {| ctx := ctx f; index := -1; entered := [] |})
      as [Hr [Hc _]]; [split; simpl; [reflexivity|lia]|].
    change (0 + 1) with 1 in Hr, Hc. simpl in Hr, Hc.
    destruct (dispatch rest next 0 {| ctx := ctx f; index := -1; entered := [] |})
      as [r g]. simpl in *. rewrite Hr, Hc. reflexivity. }
  assert (forall f, 1 <= index f ->
            dispatch rest next 1 f
            = (inr (Error "next() called multiple times"), f)) as Hlater.
  { intros f Hf. apply Z.leb_le in Hf. destruct rest; simpl; rewrite Hf; reflexivity. }
  induction fn as [|e|k IH|c k IH|k IH|k IHk handler IHh];
    intros called f Hnot Hcalled; simpl.
  - reflexivity.
  - reflexivity.
  - apply IH; assumption.
  - apply (IH called (set_ctx f c)); assumption.
  - destruct called.
    + rewrite (Hlater f (Hcalled eq_refl)). reflexivity.
    + destruct (Hfirst f (Hnot eq_refl)) as [-> Hindex].
      destruct (dispatch rest next 1 f) as [[u|err] f']; simpl in *.
      * apply IH; [discriminate|intros _; exact Hindex].
      * reflexivity.
  - destruct called.
    + rewrite (Hlater f (Hcalled eq_refl)).
      apply IHh; [discriminate|intros _; apply Hcalled; reflexivity].
    + destruct (Hfirst f (Hnot eq_refl)) as [-> Hindex].
      destruct (dispatch rest next 1 f) as [[u|err] f']; simpl in *.
      * apply IHk; [discriminate|intros _; exact Hindex].
      * apply IHh; [discriminate|intros _; exact Hindex].
Qed.

Lemma compose_head fn rest next (c : Ctx) :
  compose (fn :: rest) next c = runOnce fn (compose rest next) false c.
Proof.
  pose proof (run_runOnce fn rest next false
                {| ctx := c; index := 0; entered := [0] |}) as H.
  simpl in H. rewrite H; [|reflexivity|discriminate].
  unfold compose at 1. unfold composed. simpl. change (0 + 1) with 1.
  destruct (run fn (dispatch rest next 1) {| ctx := c; index := 0; entered := [0] |})
    as [r g]. reflexivity.
Qed.

(** X18. In one call of the composed middleware the positions are
    entered in the order of the array, each at most once and none
    skipped: the positions entered are [0], [1], ... up to the last one
    reached, which is what [index] holds in the end. The position after
    the last middleware stands for the [next] of the composed
    middleware. *)
Theorem compose_enters_in_order middlewares next (c : Ctx) :
  exists n : nat,
    (1 <= n <= length middlewares + 1)%nat
    /\ entered (composed middlewares next c).2 = positions n
    /\ index (composed middlewares next c).2 = Z.of_nat n - 1.
Proof.
  destruct (dispatch_advances middlewares next 0
              {| ctx := c; index := -1; entered := [] |} 0%nat)
    as (n & [Hindex Hentered] & _ & Hlo & Hhi).
  - split; reflexivity.
  - lia.
  - exists n. unfold composed. splits; [lia|lia|exact Hentered|exact Hindex].
Qed.

(** X19. A middleware that awaits [next()] a second time, after its
    first [next()] has resolved, is rejected with the error
    ['next() called multiple times']: the middlewares after it are not
    run again, and the context is as the first pass left it. *)
Theorem compose_next_twice (k : Middleware Ctx E) rest next (c : Ctx) :
  compose (AwaitNext (AwaitNext k) :: rest) next c
  = match compose (AwaitNext Return :: rest) next c with
    | (inl _, c') => (inr (Error "next() called multiple times"), c')
    | (inr err, c') => (inr err, c')
    end.
Proof.
  rewrite !compose_head. simpl.
  destruct (compose rest next c) as [[u|err] c']; reflexivity.
Qed.

(** X20. The composition of a list of middlewares is its first
    middleware run with, as its [next], the composition of the rest,
    which it can call once; the composition of no middleware is the
    [next] it is given, or nothing when there is none. *)
Theorem compose_nested fn rest next
    (k : Ctx -> (unit + Rejection E) * Ctx) (c : Ctx) :
  compose (fn :: rest) next c = runOnce fn (compose rest next) false c
  /\ compose [] (Some k) c = k c
  /\ compose (@nil (Middleware Ctx E)) None c = (inl tt, c).
Proof.
  splits.
  - apply compose_head.
  - unfold compose, composed. simpl. destruct (k c) as [result c']. reflexivity.
  - reflexivity.
Qed.

End compose.

(** X21. The account middleware in the pipeline: when it throws (401,
    unreachable destination, accounting error), the composed middleware
    rejects with what it threw, no later middleware runs and the context
    is untouched; otherwise the rest of the pipeline runs on the context
    with [ctx.accounts] set, and decides the outcome. *)
Theorem compose_account_middleware (serverAddress : string)
    (validateId : string -> bool) (services : AccountMiddleware.Services)
    (rest : list (Middleware Context AccountMiddleware.Thrown))
    (next : option (Context ->
                    (unit + Rejection AccountMiddleware.Thrown) * Context))
    (c : Context) :
  compose (accountMiddleware serverAddress validateId services :: rest) next c
  = match AccountMiddleware.account serverAddress validateId services (packet c) with
    | inr e => (inr (Thrown e), c)
    | inl a => compose rest next {| packet := packet c; accounts := Some a |}
    end.
Proof.
  rewrite compose_head. unfold accountMiddleware. simpl.
  destruct (AccountMiddleware.account serverAddress validateId services (packet c))
    as [a|e]; simpl; [|reflexivity].
  destruct (compose rest next {| packet := packet c; accounts := Some a |})
    as [[[]|err] c']; reflexivity.
Qed.

End ComposeProps.

(** ** Start-up *)

Module StartupProps.
Import Startup.

Section callWithRetry.

Context {A E : Type}.
Variable fn : nat -> A + E.

Lemma callWithRetry_unfold (depth : nat) (t : Timeline) :
  callWithRetry fn depth t
  = match fn (calls t) with
    | inl a => (inl a, {| calls := S (calls t); waited := waited t |})
    | inr e =>
        if decide (7 < depth)%nat
        then (inr e, {| calls := S (calls t); waited := waited t |})
        else callWithRetry fn (S depth)
               {| calls := S (calls t);
                  waited := waited t + 2 ^ Z.of_nat depth * 30 |}
    end.
Proof.
  rewrite callWithRetry_equation_1. unfold callWithRetry_unfold_clause_1.
  destruct (fn (calls t)) as [a|e]; [reflexivity|].
  destruct (decide (7 < depth)%nat); reflexivity.
Qed.

Lemma pow2_succ (n : nat) : 2 ^ Z.of_nat (S n) = 2 * 2 ^ Z.of_nat n.
Proof. rewrite Nat2Z.inj_succ. apply Z.pow_succ_r. lia. Qed.

(** X22. When [fn] throws [k] times and then returns, with [k] at most
    [8 - depth], [callWithRetry] returns what the call number [k + 1]
    returned. It has slept [2 ** d * 30] ms after the failure at each
    depth [d], which adds up to [30 * (2 ** (depth + k) - 2 ** depth)]
    ms, and has not called [fn] again after the success. *)
Theorem callWithRetry_succeeds_after (k depth : nat) (t : Timeline) (a : A) :
  (depth + k <= 8)%nat ->
  (forall j, (j < k)%nat -> exists e, fn (calls t + j) = inr e) ->
  fn (calls t + k) = inl a ->
  callWithRetry fn depth t
  = (inl a,
     {| calls := calls t + k + 1;
        waited := waited t
                  + 30 * (2 ^ Z.of_nat (depth + k) - 2 ^ Z.of_nat depth) |}).
Proof.
  revert depth t. induction k as [|k IH]; intros depth t Hdepth Hfail Hok.
  - rewrite callWithRetry_unfold. rewrite Nat.add_0_r in Hok. rewrite Hok.
    f_equal. f_equal; [lia|]. rewrite Nat.add_0_r. lia.
  - rewrite callWithRetry_unfold.
    destruct (Hfail 0%nat) as [e He]; [lia|]. rewrite Nat.add_0_r in He. rewrite He.
    destruct (decide (7 < depth)%nat) as [Hdeep|_]; [lia|].
    rewrite (IH (S depth)
               {| calls := S (calls t);
                  waited := waited t + 2 ^ Z.of_nat depth * 30 |}).
    + simpl calls. simpl waited. f_equal. f_equal; [lia|].
      replace (S depth + k)%nat with (S (depth + k)) by lia.
      replace (depth + S k)%nat with (S (depth + k)) by lia.
      rewrite (pow2_succ depth). lia.
    + lia.
    + intros j Hj. simpl calls.
      destruct (Hfail (S j)) as [e' He']; [lia|].
      exists e'. rewrite <- He'. f_equal. lia.
    + simpl calls. rewrite <- Hok. f_equal. lia.
Qed.

(** X23. When [fn] keeps throwing, [callWithRetry] gives up at depth 8:
    it throws what the last call threw, after [9 - depth] calls of [fn]
    and [30 * (2 ** 8 - 2 ** depth)] ms of sleep, which from depth 0 is
    nine calls and 7650 ms. Called at a depth beyond 7 it tries once
    and does not sleep. *)
Theorem callWithRetry_gives_up (depth : nat) (t : Timeline) :
  (forall j, (j <= 8 - depth)%nat -> exists e, fn (calls t + j) = inr e) ->
  exists e,
    fn (calls t + (8 - depth)) = inr e
    /\ callWithRetry fn depth t
       = (inr e,
          {| calls := calls t + (8 - depth) + 1;
             waited := waited t
                       + 30 * (2 ^ Z.of_nat (Nat.max depth 8)
                               - 2 ^ Z.of_nat depth) |}).
Proof.
  remember (8 - depth)%nat as m eqn:Hm. revert depth t Hm.
  induction m as [|m IH]; intros depth t Hm Hfail.
  - destruct (Hfail 0%nat) as [e He]; [lia|]. exists e. split; [exact He|].
    rewrite callWithRetry_unfold. rewrite Nat.add_0_r in He. rewrite He.
    destruct (decide (7 < depth)%nat) as [_|Hshallow]; [|lia].
    f_equal. f_equal; [lia|].
    replace (Nat.max depth 8) with depth by lia. lia.
  - destruct (Hfail 0%nat) as [e0 He0]; [lia|]. rewrite Nat.add_0_r in He0.
    destruct (IH (S depth)
                {| calls := S (calls t);
                   waited := waited t + 2 ^ Z.of_nat depth * 30 |})
      as (e & He & Hrun).
    + lia.
    + intros j Hj. simpl calls.
      destruct (Hfail (S j)) as [e' He']; [lia|].
      exists e'. rewrite <- He'. f_equal. lia.
    + simpl calls in He, Hrun. simpl waited in Hrun.
      exists e. split.
      * rewrite <- He. f_equal. lia.
      * rewrite callWithRetry_unfold, He0.
        destruct (decide (7 < depth)%nat) as [Hdeep|_]; [lia|].
        rewrite Hrun. f_equal. f_equal; [lia|].
        replace (Nat.max (S depth) 8) with (Nat.max depth 8) by lia.
        rewrite (pow2_succ depth). lia.
Qed.

End callWithRetry.

(** A database that answers from the fourth attempt on, and one that
    never does. *)
Definition answersFromFourth (n : nat) : nat + string :=
  if (n <? 3)%nat then inr "connect ECONNREFUSED" else inl n.

Definition neverAnswers (n : nat) : nat + string := inr "connect ECONNREFUSED".

Lemma callWithRetry_succeeds_after_witness :
  callWithRetry answersFromFourth 0 {| calls := 0; waited := 0 |}
  = (inl 3%nat, {| calls := 4; waited := 210 |}).
Proof.
  apply (callWithRetry_succeeds_after answersFromFourth 3 0
           {| calls := 0; waited := 0 |} 3%nat).
  - lia.
  - intros j Hj. exists "connect ECONNREFUSED".
    destruct j as [|[|[|j]]]; [reflexivity..|lia].
  - reflexivity.
Defined.

Lemma callWithRetry_gives_up_witness :
  exists e,
    callWithRetry neverAnswers 0 {| calls := 0; waited := 0 |}
    = (inr e, {| calls := 9; waited := 7650 |}).
Proof.
  destruct (callWithRetry_gives_up neverAnswers 0 {| calls := 0; waited := 0 |})
    as (e & _ & Hrun).
  - intros j Hj. exists "connect ECONNREFUSED". reflexivity.
  - exists e. exact Hrun.
Defined.

End StartupProps.
